(** * SpooqW pipeline-configuration processor: [src/lib/yaml-utils.ts]

    A shallow embedding of the serializer ([stepsToYaml]), the parser
    ([parseYamlSteps], [parseStepBlock]), the metadata extractor
    ([extractPipelineMetadata]), the merge ([mergeStepsIntoYaml]) and the
    validator ([validateYaml]), together with the part of the ECMAScript
    string and regular-expression semantics these functions rely on.

    JavaScript strings are sequences of UTF-16 code units; they are
    modelled as [list N].  Regular expressions are kept as syntax trees
    that mirror the literals of the source and are run by a backtracking
    matcher which follows the ECMAScript matching order (greedy and lazy
    quantifiers, alternation from left to right, atomic lookahead). *)

From Stdlib Require Import NArith List String Ascii Bool Lia.
From stdpp Require Import base decidable option list gmap.
Import ListNotations.

Local Open Scope N_scope.
Local Open Scope list_scope.

(** ** Strings *)

Abbreviation jsstring := (list N).

(** The code units of an (ASCII) literal of the source. *)
Fixpoint str (s : string) : jsstring :=
  match s with
  | EmptyString => []
  | String a s' => N_of_ascii a :: str s'
  end.

Arguments str : simpl never.

Definition NL : N := 10.
Definition SP : N := 32.
Definition COLON : N := 58.

(** ECMAScript [WhiteSpace] and [LineTerminator] code units. *)
Definition isWhiteSpace (c : N) : bool :=
  (c =? 9) || (c =? 11) || (c =? 12) || (c =? 32) || (c =? 160)
  || (c =? 0x1680) || ((0x2000 <=? c) && (c <=? 0x200A))
  || (c =? 0x202F) || (c =? 0x205F) || (c =? 0x3000) || (c =? 0xFEFF).

Definition isLineTerminator (c : N) : bool :=
  (c =? 10) || (c =? 13) || (c =? 0x2028) || (c =? 0x2029).

(** The class [\s], which is also what [String.prototype.trim] strips. *)
Definition is_space (c : N) : bool := isWhiteSpace c || isLineTerminator c.


Fixpoint str_eqb (a b : jsstring) : bool :=
  match a, b with
  | [], [] => true
  | x :: a', y :: b' => (x =? y) && str_eqb a' b'
  | _, _ => false
  end.

Fixpoint starts_with (p s : jsstring) : bool :=
  match p, s with
  | [], _ => true
  | x :: p', y :: s' => (x =? y) && starts_with p' s'
  | _ :: _, [] => false
  end.

(** [String.prototype.includes]. *)
Fixpoint includes (s p : jsstring) : bool :=
  starts_with p s ||
  match s with
  | [] => false
  | _ :: s' => includes s' p
  end.

Fixpoint trimStart (s : jsstring) : jsstring :=
  match s with
  | c :: s' => if is_space c then trimStart s' else s
  | [] => []
  end.

Definition trimEnd (s : jsstring) : jsstring := rev (trimStart (rev s)).

(** [String.prototype.trim]. *)
Definition trim (s : jsstring) : jsstring := trimEnd (trimStart s).

(** [Array.prototype.join]. *)
Fixpoint join (sep : jsstring) (l : list jsstring) : jsstring :=
  match l with
  | [] => []
  | [x] => x
  | x :: l' => x ++ sep ++ join sep l'
  end.

(** [String.prototype.split] with a one-character string separator. *)
Fixpoint split_chr_go (c : N) (s acc : jsstring) : list jsstring :=
  match s with
  | [] => [rev acc]
  | x :: s' => if x =? c then rev acc :: split_chr_go c s' []
               else split_chr_go c s' (x :: acc)
  end.

Definition split_chr (c : N) (s : jsstring) : list jsstring := split_chr_go c s [].

(** ** Regular expressions *)

Inductive citem : Type :=
| CChr (c : N)            (* a single character *)
| CRange (lo hi : N)      (* lo-hi *)
| CSpace                  (* \s *)
| CNotSpace.              (* \S *)

Definition citem_has (it : citem) (c : N) : bool :=
  match it with
  | CChr x => c =? x
  | CRange lo hi => (lo <=? c) && (c <=? hi)
  | CSpace => is_space c
  | CNotSpace => negb (is_space c)
  end.

Inductive regex : Type :=
| Eps                                  (* the empty pattern *)
| Chr (c : N)                          (* a literal character *)
| Dot                                  (* .  (no s flag) *)
| Cls (neg : bool) (items : list citem)(* [...] and [^...] *)
| Seq (r1 r2 : regex)
| Alt (r1 r2 : regex)                  (* r1|r2 *)
| Star (greedy : bool) (r : regex)     (* r* and r*? *)
| Group (i : nat) (r : regex)          (* capture group number i *)
| Look (r : regex)                     (* (?=r) *)
| Bol                                  (* ^ under the m flag *)
| Bos                                  (* ^ without the m flag *)
| Eos.                                 (* $ without the m flag *)

Fixpoint LitL (l : jsstring) : regex :=
  match l with
  | [] => Eps
  | [c] => Chr c
  | c :: l' => Seq (Chr c) (LitL l')
  end.

Definition Lit (s : string) : regex := LitL (str s).
Definition Plus (g : bool) (r : regex) : regex := Seq r (Star g r).
Definition Opt (r : regex) : regex := Alt r Eps.
Fixpoint Rep (n : nat) (r : regex) : regex :=
  match n with
  | O => Eps
  | S O => r
  | S n' => Seq r (Rep n' r)
  end.

Definition ws : regex := Cls false [CSpace].                      (* \s *)
Definition nonws : regex := Cls false [CNotSpace].                (* \S *)
Definition any : regex := Cls false [CSpace; CNotSpace].          (* [\s\S] *)
Definition not_nl : regex := Cls true [CChr 10].                  (* [^\n] *)
Definition tok : regex := Cls true [CSpace; CChr 10].             (* [^\s\n] *)
Definition alpha : regex := Cls false [CRange 97 122; CRange 65 90].        (* [a-zA-Z] *)
Definition alpha_ : regex := Cls false [CRange 97 122; CRange 65 90; CChr 95]. (* [a-zA-Z_] *)

Declare Scope regex_scope.
Delimit Scope regex_scope with re.
Bind Scope regex_scope with regex.
Infix "·" := Seq (at level 40, left associativity) : regex_scope.

(** The state of a match: the character before the current position, the
    input that is left, and the captures recorded so far (latest first). *)
Record mstate : Type := MState {
  prev : option N;
  rest : jsstring;
  caps : list (nat * jsstring)
}.

Definition cls_has (neg : bool) (items : list citem) (c : N) : bool :=
  xorb neg (existsb (fun it => citem_has it c) items).

Definition step_if (p : N -> bool) (k : mstate -> option mstate) (st : mstate)
  : option mstate :=
  match rest st with
  | c :: t => if p c then k (MState (Some c) t (caps st)) else None
  | [] => None
  end.

Definition consumed (st st' : mstate) : jsstring :=
  firstn (length (rest st) - length (rest st')) (rest st).

Definition at_bol (st : mstate) : bool :=
  match prev st with
  | None => true
  | Some c => isLineTerminator c
  end.

(** [star_loop] iterates the body of a quantifier.  An iteration that
    consumes nothing is rejected, as in the ECMAScript [RepeatMatcher];
    so every iteration shortens the input and [length (rest st)]
    iterations are always enough. *)
Fixpoint star_loop (body : (mstate -> option mstate) -> mstate -> option mstate)
    (greedy : bool) (k : mstate -> option mstate) (n : nat) (st : mstate)
  : option mstate :=
  match n with
  | O => k st
  | S n' =>
      let again (_ : unit) :=
        body (fun st' =>
                if (length (rest st') <? length (rest st))%nat
                then star_loop body greedy k n' st' else None) st in
      if greedy
      then match again tt with Some x => Some x | None => k st end
      else match k st with Some x => Some x | None => again tt end
  end.

(** The backtracking matcher, in continuation-passing style: [m r k st]
    tries the ways [r] can match at [st], in priority order, and returns
    the first for which the continuation [k] succeeds. *)
Fixpoint m (r : regex) (k : mstate -> option mstate) (st : mstate)
  : option mstate :=
  match r with
  | Eps => k st
  | Chr c => step_if (N.eqb c) k st
  | Dot => step_if (fun c => negb (isLineTerminator c)) k st
  | Cls neg items => step_if (cls_has neg items) k st
  | Seq r1 r2 => m r1 (m r2 k) st
  | Alt r1 r2 => match m r1 k st with Some x => Some x | None => m r2 k st end
  | Star g r' => star_loop (m r') g k (length (rest st)) st
  | Group i r' =>
      m r' (fun st' => k (MState (prev st') (rest st')
                                 ((i, consumed st st') :: caps st'))) st
  | Look r' =>
      match m r' Some st with
      | Some st' => k (MState (prev st) (rest st) (caps st'))
      | None => None
      end
  | Bol => if at_bol st then k st else None
  | Bos => match prev st with None => k st | Some _ => None end
  | Eos => match rest st with [] => k st | _ :: _ => None end
  end.

(** The result of [RegExp.prototype.exec]: the text before the match, the
    matched text, the text after it, and the captures. *)
Record match_result : Type := MatchResult {
  m_before : jsstring;
  m_text : jsstring;
  m_after : jsstring;
  m_caps : list (nat * jsstring)
}.

(** A match anchored at the current position. *)
Definition match_here (r : regex) (p : option N) (s : jsstring) : option mstate :=
  m r Some (MState p s []).

(** [exec_from r p before s]: the leftmost match in [s], where [before]
    (reversed) is the input already skipped and [p] its last character. *)
Fixpoint exec_from (r : regex) (p : option N) (before : jsstring) (s : jsstring)
  : option match_result :=
  match match_here r p s with
  | Some st' =>
      Some (MatchResult (rev before) (consumed (MState p s []) st') (rest st') (caps st'))
  | None =>
      match s with
      | [] => None
      | c :: t => exec_from r (Some c) (c :: before) t
      end
  end.

(** [String.prototype.match] with a regular expression without the g flag. *)
Definition regex_match (r : regex) (s : jsstring) : option match_result :=
  exec_from r None [] s.

Fixpoint assoc (i : nat) (l : list (nat * jsstring)) : option jsstring :=
  match l with
  | [] => None
  | (j, v) :: l' => if Nat.eqb i j then Some v else assoc i l'
  end.

(** [String.prototype.replace] with a regular expression without the g
    flag and a replacement string without [$] patterns. *)
Definition regex_replace (r : regex) (by_ : jsstring) (s : jsstring) : jsstring :=
  match regex_match r s with
  | Some mr => m_before mr ++ by_ ++ m_after mr
  | None => s
  end.

(** [String.prototype.split] with a regular expression without capture
    groups and no limit.  [acc] (reversed) is the text since the end of
    the last separator; [skip] counts the characters of a separator that
    are still to be passed over. *)
Fixpoint regex_split_go (r : regex) (p : option N) (s : jsstring)
    (acc : jsstring) (skip : nat) : list jsstring :=
  match s with
  | [] => [rev acc]
  | c :: t =>
      match skip with
      | S sk => regex_split_go r (Some c) t acc sk
      | O =>
          match match_here r p s with
          | Some st' =>
              match (length s - length (rest st'))%nat with
              | O =>
                  match acc with
                  | [] => regex_split_go r (Some c) t [c] O
                  | _ :: _ => rev acc :: regex_split_go r (Some c) t [c] O
                  end
              | S n => rev acc :: regex_split_go r (Some c) t [] n
              end
          | None => regex_split_go r (Some c) t (c :: acc) O
          end
      end
  end.

Definition regex_split (r : regex) (s : jsstring) : list jsstring :=
  match s with
  | [] => match match_here r None [] with Some _ => [] | None => [[]] end
  | _ :: _ => regex_split_go r None s [] O
  end.

(** ** The data model ([src/types/index.ts]) *)

(** [kind] is kept as a string: the parser stores whatever token it
    reads, and only the validator compares it with the known kinds.
    [options] is a JavaScript object used as an ordered map from strings
    to strings. *)
Record Step : Type := mkStep {
  id : jsstring;
  kind : jsstring;
  shortDesc : option jsstring;
  desc : option jsstring;
  format : option jsstring;
  sql : option jsstring;
  path : option jsstring;
  source : option jsstring;
  options : option (list (jsstring * jsstring));
  schema : option jsstring;
  cache : option bool;
  show : option bool;
  dependsOn : option (list jsstring);
  position : option (Z * Z)
}.

(** Truthiness of an optional string: [undefined] and [""] are falsy. *)
Definition truthy (o : option jsstring) : bool :=
  match o with
  | Some (_ :: _) => true
  | _ => false
  end.

Definition or_default (o : option jsstring) (d : jsstring) : jsstring :=
  match o with
  | Some (c :: s) => c :: s
  | _ => d
  end.

Definition bool_str (b : bool) : jsstring :=
  if b then str "true" else str "false".

(** ** Serializer: [stepsToYaml] *)

Definition sqlLines (v : jsstring) : list jsstring :=
  if includes v [NL]
  then str "    sql: |" :: map (fun sqlLine => str "      " ++ sqlLine) (split_chr NL v)
  else [str "    sql: " ++ v].

Definition optionLines (o : option (list (jsstring * jsstring))) : list jsstring :=
  match o with
  | Some ((k, v) :: l) =>
      str "    options:" ::
      map (fun kv => str "      " ++ fst kv ++ str ": " ++ snd kv) ((k, v) :: l)
  | _ => []
  end.

Definition dependsOnLines (o : option (list jsstring)) : list jsstring :=
  match o with
  | Some (d :: l) =>
      str "    dependsOn:" :: map (fun dep => str "      - " ++ dep) (d :: l)
  | _ => []
  end.

Definition textLine (key : string) (o : option jsstring) : list jsstring :=
  match o with
  | Some (c :: v) => [str "    " ++ str key ++ str ": " ++ c :: v]
  | _ => []
  end.

Definition boolLine (key : string) (o : option bool) : list jsstring :=
  match o with
  | Some b => [str "    " ++ str key ++ str ": " ++ bool_str b]
  | None => []
  end.

(** The lines pushed by one iteration of the loop over the steps. *)
Definition stepLines (step : Step) : list jsstring :=
  [str "  - id: " ++ id step; str "    kind: " ++ kind step]
  ++ textLine "shortDesc" (shortDesc step)
  ++ textLine "source" (source step)
  ++ textLine "format" (format step)
  ++ textLine "path" (path step)
  ++ match sql step with Some (c :: v) => sqlLines (c :: v) | _ => [] end
  ++ boolLine "cache" (cache step)
  ++ boolLine "show" (show step)
  ++ textLine "schema" (schema step)
  ++ optionLines (options step)
  ++ dependsOnLines (dependsOn step)
  ++ [[]].

Definition headerLines (pipelineId pipelineDesc : option jsstring) : list jsstring :=
  [str "id: " ++ or_default pipelineId (str "my-pipeline")]
  ++ match pipelineDesc with
     | Some (c :: d) => [str "desc: " ++ c :: d]
     | _ => []
     end
  ++ [[]; str "steps:"].

Definition yamlLines (steps : list Step) (pipelineId pipelineDesc : option jsstring)
  : list jsstring :=
  headerLines pipelineId pipelineDesc ++ flat_map stepLines steps.

Definition stepsToYaml (steps : list Step) (pipelineId pipelineDesc : option jsstring)
  : jsstring :=
  trim (join [NL] (yamlLines steps pipelineId pipelineDesc)).

(** ** Parser: [parseYamlSteps] and [parseStepBlock] *)

(** Reading a capture.  Using a capture that did not take part in the
    match would give [undefined], on which [.trim()] or [.split()] raise
    a TypeError; any such use is a [TypeError] of the model. *)
Inductive result (A : Type) : Type :=
| Ok (a : A)
| TypeError.
Arguments Ok {A} a.
Arguments TypeError {A}.

#[global] Instance result_bind : MBind result := fun A B f x =>
  match x with
  | Ok a => f a
  | TypeError => TypeError
  end.

Definition grp (i : nat) (mr : match_result) : result jsstring :=
  match assoc i (m_caps mr) with
  | Some v => Ok v
  | None => TypeError
  end.

(** An optional attribute read from the first capture of a pattern. *)
Definition field (r : regex) (post : jsstring -> jsstring) (block : jsstring)
  : result (option jsstring) :=
  match regex_match r block with
  | Some mr => v ← grp 1 mr; Ok (Some (post v))
  | None => Ok None
  end.

Definition bool_field (r : regex) (block : jsstring) : result (option bool) :=
  match regex_match r block with
  | Some mr => v ← grp 1 mr; Ok (Some (str_eqb v (str "true")))
  | None => Ok None
  end.

Definition re_steps : regex :=         (* /steps:\s*\n([\s\S]*?)(?=\n[a-zA-Z]|$)/ *)
  (Lit "steps:" · Star true ws · Chr 10 · Group 1 (Star false any)
   · Look (Alt (Chr 10 · alpha) Eos))%re.
Definition re_step_sep : regex :=      (* /\n\s*-\s+(?=id:)/ *)
  (Chr 10 · Star true ws · Chr 45 · Plus true ws · Look (Lit "id:"))%re.
Definition re_id : regex :=            (* /id:\s*([^\s\n]+)/ *)
  (Lit "id:" · Star true ws · Group 1 (Plus true tok))%re.
Definition re_kind : regex :=          (* /kind:\s*([^\s\n]+)/ *)
  (Lit "kind:" · Star true ws · Group 1 (Plus true tok))%re.
Definition re_shortDesc : regex :=     (* /shortDesc:\s*([^\n]+)/ *)
  (Lit "shortDesc:" · Star true ws · Group 1 (Plus true not_nl))%re.
Definition re_desc : regex :=          (* /desc:\s*([^\n]+)/ *)
  (Lit "desc:" · Star true ws · Group 1 (Plus true not_nl))%re.
Definition re_format : regex :=        (* /format:\s*([^\s\n]+)/ *)
  (Lit "format:" · Star true ws · Group 1 (Plus true tok))%re.
Definition re_source : regex :=        (* /source:\s*([^\s\n]+)/ *)
  (Lit "source:" · Star true ws · Group 1 (Plus true tok))%re.
Definition re_path : regex :=          (* /path:\s*([^\n]+)/ *)
  (Lit "path:" · Star true ws · Group 1 (Plus true not_nl))%re.
Definition re_schema : regex :=        (* /schema:\s*([^\n]+)/ *)
  (Lit "schema:" · Star true ws · Group 1 (Plus true not_nl))%re.
Definition re_cache : regex :=         (* /cache:\s*(true|false)/ *)
  (Lit "cache:" · Star true ws · Group 1 (Alt (Lit "true") (Lit "false")))%re.
Definition re_show : regex :=          (* /show:\s*(true|false)/ *)
  (Lit "show:" · Star true ws · Group 1 (Alt (Lit "true") (Lit "false")))%re.
Definition re_sql_pipe : regex :=      (* /sql:\s*\|\s*\n([\s\S]*?)(?=\n\s*[a-zA-Z]|$)/ *)
  (Lit "sql:" · Star true ws · Chr 124 · Star true ws · Chr 10
   · Group 1 (Star false any)
   · Look (Alt (Chr 10 · Star true ws · alpha) Eos))%re.
Definition re_sql : regex :=           (* /sql:\s*([^\n]+)/ *)
  (Lit "sql:" · Star true ws · Group 1 (Plus true not_nl))%re.
Definition re_indent6 : regex :=       (* /^\s{6}/ *)
  (Bos · Rep 6 ws)%re.
Definition re_options : regex :=       (* /options:\s*\n((?:\s+[a-zA-Z_]+:\s*[^\n]+\n?)+)/ *)
  (Lit "options:" · Star true ws · Chr 10
   · Group 1 (Plus true (Plus true ws · Plus true alpha_ · Chr 58 · Star true ws
                         · Plus true not_nl · Opt (Chr 10))))%re.
Definition re_option_line : regex :=   (* /\s*([a-zA-Z_]+):\s*(.+)/ *)
  (Star true ws · Group 1 (Plus true alpha_) · Chr 58 · Star true ws
   · Group 2 (Plus true Dot))%re.
Definition re_dependsOn : regex :=     (* /dependsOn:\s*\n((?:\s+-\s*[^\n]+\n?)+)/ *)
  (Lit "dependsOn:" · Star true ws · Chr 10
   · Group 1 (Plus true (Plus true ws · Chr 45 · Star true ws
                         · Plus true not_nl · Opt (Chr 10))))%re.
Definition re_dep_line : regex :=      (* /\s*-\s*(.+)/ *)
  (Star true ws · Chr 45 · Star true ws · Group 1 (Plus true Dot))%re.

(** [obj[key] = value] on an object used as an ordered string map: an
    existing key keeps its place; assigning a string to [__proto__] does
    not create a property. *)
Fixpoint obj_update (key value : jsstring) (o : list (jsstring * jsstring))
  : list (jsstring * jsstring) :=
  match o with
  | [] => [(key, value)]
  | (k, v) :: o' =>
      if str_eqb k key then (k, value) :: o' else (k, v) :: obj_update key value o'
  end.

Definition obj_set (key value : jsstring) (o : list (jsstring * jsstring))
  : list (jsstring * jsstring) :=
  if str_eqb key (str "__proto__") then o else obj_update key value o.

Definition parse_sql (block : jsstring) : result (option jsstring) :=
  match regex_match re_sql_pipe block with
  | Some mr =>
      body ← grp 1 mr;
      let sqlLines := map (regex_replace re_indent6 []) (split_chr NL body) in
      Ok (Some (trim (join [NL] sqlLines)))
  | None => field re_sql trim block
  end.

Fixpoint parse_option_lines (optionLines : list jsstring)
    (o : list (jsstring * jsstring)) : result (list (jsstring * jsstring)) :=
  match optionLines with
  | [] => Ok o
  | line :: ls =>
      match regex_match re_option_line line with
      | Some mr =>
          k ← grp 1 mr; v ← grp 2 mr;
          parse_option_lines ls (obj_set k (trim v) o)
      | None => parse_option_lines ls o
      end
  end.

Definition parse_options (block : jsstring)
  : result (option (list (jsstring * jsstring))) :=
  match regex_match re_options block with
  | Some mr =>
      body ← grp 1 mr;
      o ← parse_option_lines (split_chr NL (trim body)) [];
      Ok (Some o)
  | None => Ok None
  end.

Fixpoint parse_dep_lines (depLines : list jsstring) (deps : list jsstring)
  : result (list jsstring) :=
  match depLines with
  | [] => Ok deps
  | line :: ls =>
      match regex_match re_dep_line line with
      | Some mr => d ← grp 1 mr; parse_dep_lines ls (deps ++ [trim d])
      | None => parse_dep_lines ls deps
      end
  end.

Definition parse_dependsOn (block : jsstring) : result (option (list jsstring)) :=
  match regex_match re_dependsOn block with
  | Some mr =>
      body ← grp 1 mr;
      deps ← parse_dep_lines (split_chr NL (trim body)) [];
      Ok (Some deps)
  | None => Ok None
  end.

Definition parseStepBlock (block : jsstring) : result (option Step) :=
  match regex_match re_id block, regex_match re_kind block with
  | Some idMatch, Some kindMatch =>
      step_id ← grp 1 idMatch;
      step_kind ← grp 1 kindMatch;
      step_shortDesc ← field re_shortDesc trim block;
      step_desc ← field re_desc trim block;
      step_format ← field re_format (fun v => v) block;
      step_source ← field re_source (fun v => v) block;
      step_path ← field re_path trim block;
      step_schema ← field re_schema trim block;
      step_cache ← bool_field re_cache block;
      step_show ← bool_field re_show block;
      step_sql ← parse_sql block;
      step_options ← parse_options block;
      step_dependsOn ← parse_dependsOn block;
      Ok (Some (mkStep step_id step_kind step_shortDesc step_desc step_format
                       step_sql step_path step_source step_options step_schema
                       step_cache step_show step_dependsOn None))
  | _, _ => Ok None
  end.

Fixpoint parse_blocks (stepBlocks : list jsstring) : result (list Step) :=
  match stepBlocks with
  | [] => Ok []
  | block :: bs =>
      step ← parseStepBlock block;
      steps ← parse_blocks bs;
      Ok (match step with Some s => s :: steps | None => steps end)
  end.

Definition nonempty (s : jsstring) : bool :=
  match s with [] => false | _ :: _ => true end.

Definition stepBlocksOf (stepsContent : jsstring) : list jsstring :=
  filter (fun b => nonempty b = true) (regex_split re_step_sep stepsContent).

Definition parseYamlSteps (yaml : jsstring) : result (list Step) :=
  match regex_match re_steps yaml with
  | None => Ok []
  | Some stepsMatch =>
      stepsContent ← grp 1 stepsMatch;
      parse_blocks (stepBlocksOf stepsContent)
  end.

(** ** Metadata extraction and merge *)

Record Metadata : Type := mkMetadata {
  meta_id : option jsstring;
  meta_desc : option jsstring
}.

Definition re_meta_id : regex :=       (* /^id:\s*([^\n]+)/m *)
  (Bol · Lit "id:" · Star true ws · Group 1 (Plus true not_nl))%re.
Definition re_meta_desc : regex :=     (* /^desc:\s*([^\n]+)/m *)
  (Bol · Lit "desc:" · Star true ws · Group 1 (Plus true not_nl))%re.

(** [match?.[1]?.trim()] *)
Definition opt_capture (r : regex) (s : jsstring) : option jsstring :=
  match regex_match r s with
  | Some mr => trim <$> assoc 1 (m_caps mr)
  | None => None
  end.

Definition extractPipelineMetadata (yaml : jsstring) : Metadata :=
  mkMetadata (opt_capture re_meta_id yaml) (opt_capture re_meta_desc yaml).


(** ** Validator: [validateYaml] *)

Definition re_has_id : regex :=        (* /^id:\s*\S+/m *)
  (Bol · Lit "id:" · Star true ws · Plus true nonws)%re.

Definition validKinds : list jsstring :=
  map str ["input"; "input-stream"; "sql"; "variable"; "script"; "custom";
           "customInput"; "avro-serde"; "udf"; "output"; "output-stream";
           "parse-json"]%string.

Definition err_no_id : jsstring := str "Pipeline must have an 'id' field".
Definition err_no_steps : jsstring := str "Pipeline must have a 'steps' section".
Definition err_empty : jsstring := str "Pipeline must have at least one step".
Definition err_duplicate (step_id : jsstring) : jsstring :=
  str "Duplicate step ID: '" ++ step_id ++ str "'".
Definition err_kind (step_kind step_id : jsstring) : jsstring :=
  str "Invalid step kind '" ++ step_kind ++ str "' in step '" ++ step_id ++ str "'".
Definition err_format (step_id step_kind : jsstring) : jsstring :=
  str "Step '" ++ step_id ++ str "' of kind '" ++ step_kind
  ++ str "' should specify a format".
Definition err_source (step_id src : jsstring) : jsstring :=
  str "Step '" ++ step_id ++ str "' references unknown source '" ++ src ++ str "'".

Definition has_id (i : jsstring) (s : Step) : bool := str_eqb (id s) i.

(** [step.source !== steps.find(s => s.id === step.source)?.id] *)
Definition differs_from_found (steps : list Step) (src : jsstring) : bool :=
  match find (has_id src) steps with
  | Some s => negb (str_eqb src (id s))
  | None => true
  end.

(** The errors pushed by the four checks of one loop iteration, where
    [stepIds] is the set of the ids of the steps before this one. *)
Definition check_duplicate (stepIds : gset jsstring) (step : Step) : list jsstring :=
  if decide (id step ∈ stepIds) then [err_duplicate (id step)] else [].

Definition check_kind (step : Step) : list jsstring :=
  if existsb (str_eqb (kind step)) validKinds then []
  else [err_kind (kind step) (id step)].

Definition check_format (step : Step) : list jsstring :=
  if (str_eqb (kind step) (str "input") || str_eqb (kind step) (str "output"))
     && negb (truthy (format step))
  then [err_format (id step) (kind step)] else [].

Definition check_source (steps : list Step) (stepIds : gset jsstring) (step : Step)
  : list jsstring :=
  match source step with
  | Some (c :: s) =>
      let src := c :: s in
      if bool_decide (src ∉ stepIds) && differs_from_found steps src
      then (if existsb (has_id src) steps then [] else [err_source (id step) src])
      else []
  | _ => []
  end.

(** One iteration of the loop: the state is the set [stepIds] and the
    [errors] array. *)
Definition validate_step (steps : list Step)
    (acc : gset jsstring * list jsstring) (step : Step)
  : gset jsstring * list jsstring :=
  let '(stepIds, errors) := acc in
  let errors := errors ++ check_duplicate stepIds step in
  let stepIds := {[ id step ]} ∪ stepIds in
  let errors := errors ++ check_kind step in
  let errors := errors ++ check_format step in
  let errors := errors ++ check_source steps stepIds step in
  (stepIds, errors).

Definition header_errors (yaml : jsstring) : list jsstring :=
  (match regex_match re_has_id yaml with None => [err_no_id] | Some _ => [] end)
  ++ (if includes yaml (str "steps:") then [] else [err_no_steps]).

Definition validate_steps (errors : list jsstring) (steps : list Step) : list jsstring :=
  let errors := errors ++ match steps with [] => [err_empty] | _ :: _ => [] end in
  snd (fold_left (validate_step steps) steps (∅, errors)).

Record Validation : Type := mkValidation {
  valid : bool;
  errors : list jsstring
}.

Definition validateYaml (yaml : jsstring) : result Validation :=
  steps ← parseYamlSteps yaml;
  let errors := validate_steps (header_errors yaml) steps in
  Ok (mkValidation (match errors with [] => true | _ :: _ => false end) errors).

(** ** A declarative reading of the patterns

    [matches r st st'] says that [r] can match from [st] and leave the
    state [st'].  Every result of the backtracking matcher is such a
    match ([m_sound]). *)
Inductive matches : regex -> mstate -> mstate -> Prop :=
| M_Eps st : matches Eps st st
| M_Chr c p t cs : matches (Chr c) (MState p (c :: t) cs) (MState (Some c) t cs)
| M_Dot c p t cs :
    isLineTerminator c = false ->
    matches Dot (MState p (c :: t) cs) (MState (Some c) t cs)
| M_Cls neg items c p t cs :
    cls_has neg items c = true ->
    matches (Cls neg items) (MState p (c :: t) cs) (MState (Some c) t cs)
| M_Seq r1 r2 st st1 st2 :
    matches r1 st st1 -> matches r2 st1 st2 -> matches (Seq r1 r2) st st2
| M_AltL r1 r2 st st' : matches r1 st st' -> matches (Alt r1 r2) st st'
| M_AltR r1 r2 st st' : matches r2 st st' -> matches (Alt r1 r2) st st'
| M_Star0 g r st : matches (Star g r) st st
| M_StarS g r st st1 st2 :
    matches r st st1 ->
    (length (rest st1) < length (rest st))%nat ->
    matches (Star g r) st1 st2 ->
    matches (Star g r) st st2
| M_Group i r st st1 :
    matches r st st1 ->
    matches (Group i r) st
            (MState (prev st1) (rest st1) ((i, consumed st st1) :: caps st1))
| M_Look r st st1 :
    matches r st st1 ->
    matches (Look r) st (MState (prev st) (rest st) (caps st1))
| M_Bol st : at_bol st = true -> matches Bol st st
| M_Bos st : prev st = None -> matches Bos st st
| M_Eos st : rest st = [] -> matches Eos st st.

(** [defines i r]: every match of [r] goes through capture group [i]. *)
Fixpoint defines (i : nat) (r : regex) : bool :=
  match r with
  | Seq r1 r2 => defines i r1 || defines i r2
  | Alt r1 r2 => defines i r1 && defines i r2
  | Group j r' => Nat.eqb i j || defines i r'
  | Look r' => defines i r'
  | _ => false
  end.

(** ** The errors of the validation loop, iteration by iteration *)

(** What the iteration for [step] pushes when [stepIds] holds the ids of
    the steps before it. *)
Definition iter_errors (steps : list Step) (stepIds : gset jsstring) (step : Step)
  : list jsstring :=
  check_duplicate stepIds step ++ check_kind step ++ check_format step
  ++ check_source steps ({[ id step ]} ∪ stepIds) step.

Fixpoint loop_errors (steps : list Step) (stepIds : gset jsstring) (l : list Step)
  : list jsstring :=
  match l with
  | [] => []
  | step :: l' =>
      iter_errors steps stepIds step ++ loop_errors steps ({[ id step ]} ∪ stepIds) l'
  end.

(** Number of entries of an errors array equal to a given message. *)
Definition occurrences (e : jsstring) (l : list jsstring) : nat :=
  length (List.filter (str_eqb e) l).

(** Number of steps with a given id. *)
Definition steps_with_id (i : jsstring) (steps : list Step) : nat :=
  length (List.filter (has_id i) steps).


(** The first character tells the four kinds of message apart. *)
Definition first_chr (s : jsstring) : N := hd 0 s.


(** ** Documents used as examples *)

Definition text (lines : list string) : jsstring := join [NL] (map str lines).

(** Two steps with the same id (the document of the test suite). *)
Definition doc_two_duplicates : jsstring :=
  text [""; "id: test"; "steps:"; "  - id: duplicate"; "    kind: input";
        "  - id: duplicate"; "    kind: output"; ""]%string.


(** No top-level id, and one chunk whose kind is not a known kind; the
    chunk has no id, so no step is parsed from it. *)
Definition doc_no_id_unparsed_chunk : jsstring :=
  text ["steps:"; "  - kind: bogus"]%string.

(** No top-level id, and one parsed step whose kind is not a known kind. *)
Definition doc_no_id_bad_kind : jsstring :=
  text ["steps:"; "  - id: s"; "    kind: bogus"]%string.

(** The three errors that the accumulation example of the specification
    expects together. *)
Definition returns_all_three (yaml : jsstring) : Prop :=
  exists v, validateYaml yaml = Ok v
    /\ In err_no_id (errors v) /\ In err_empty (errors v)
    /\ exists k i, In (err_kind k i) (errors v).

(** ** Reading the emitted lines back

    [entryKey] gives the attribute name of a pushed line: the name
    before the colon of a sequence entry ([  - id: ...]) or of a line
    indented by exactly four spaces.  Nested lines (six spaces) and
    blank lines carry no attribute name. *)
Fixpoint until_colon (s : jsstring) : option jsstring :=
  match s with
  | [] => None
  | c :: s' => if c =? COLON then Some []
               else match until_colon s' with
                    | Some k => Some (c :: k)
                    | None => None
                    end
  end.

Definition entryKey (line : jsstring) : option jsstring :=
  if starts_with (str "  - ") line then until_colon (skipn 4 line)
  else if starts_with (str "    ") line then
         match skipn 4 line with
         | c :: _ => if c =? SP then None else until_colon (skipn 4 line)
         | [] => None
         end
       else None.




Definition is_some {A} (o : option A) : bool :=
  match o with Some _ => true | None => false end.




(** ** Top-level metadata in a text *)

Definition at_line_start (pre : jsstring) : Prop :=
  match hd_error (rev pre) with
  | None => True
  | Some c => isLineTerminator c = true
  end.

(** [v] is the trimmed value found after [key] at the start of a line of
    [yaml]: white space may separate the key from the value, which runs
    over characters other than a newline. *)
Definition top_level_value (key yaml v : jsstring) : Prop :=
  exists pre w x post,
    yaml = pre ++ key ++ w ++ x ++ post
    /\ at_line_start pre
    /\ Forall (fun c => is_space c = true) w
    /\ x <> [] /\ ~ In NL x
    /\ v = trim x.



(** ** The multi-line SQL example *)

Definition sql_three_lines : jsstring :=
  text ["SELECT *"; "FROM t"; "WHERE x = 1"]%string.

Definition step_query (v : jsstring) : Step :=
  mkStep (str "query") (str "sql") None None None (Some v)
         None None None None None None None None.

(** [leads_with l r]: the pattern [r] begins with the literal [l]. *)
Inductive leads_with (l : jsstring) : regex -> Prop :=
| LW_lit : leads_with l (LitL l)
| LW_seq r1 r2 : leads_with l r1 -> leads_with l (Seq r1 r2).

(** A text without any [steps:] (the second example of the test suite). *)
Definition doc_without_steps : jsstring :=
  text ["id: test"; "desc: description"]%string.

(** ** Auxiliary notions for following the matcher on a known text *)

(** The character before the position reached after reading [w]. *)
Fixpoint lastp (p : option N) (w : jsstring) : option N :=
  match w with
  | [] => p
  | c :: w' => lastp (Some c) w'
  end.

(** A greedy run over the word [w]: the continuation is tried after the
    whole of [w] first, then after shorter and shorter prefixes. *)
Fixpoint greedy_run (k : mstate -> option mstate) (w : jsstring) (p : option N)
    (s : jsstring) (cs : list (nat * jsstring)) : option mstate :=
  match w with
  | [] => k (MState p s cs)
  | c :: w' =>
      match greedy_run k w' (Some c) s cs with
      | Some x => Some x
      | None => k (MState p (c :: w' ++ s) cs)
      end
  end.

(** The input [s] does not go on with a character accepted by [p]. *)
Definition stops (p : N -> bool) (s : jsstring) : Prop :=
  match s with
  | [] => True
  | c :: _ => p c = false
  end.

Definition not_terminator (c : N) : bool := negb (isLineTerminator c).

(** The text of an array of lines, each after a newline. *)
Definition lines_text (lines : list jsstring) : jsstring :=
  flat_map (fun ln => NL :: ln) lines.

(** The pattern of a scalar attribute: [/key\s*(cls+)/]. *)
Definition re_attr (key : string) (cls : regex) : regex :=
  (Lit key · Star true ws · Group 1 (Plus true cls))%re.

(** ** The steps that the text format carries faithfully

    The serializer escapes nothing and the parser recognises attributes
    by their literal [key:], so a value that contains such a literal, a
    newline, or white space at its ends does not survive. *)
Definition attr_literals : list jsstring :=
  map str ["shortDesc:"; "desc:"; "format:"; "source:"; "path:"; "schema:";
           "cache:"; "show:"; "sql:"; "options:"; "dependsOn:"]%string.

(** No attribute literal occurs in [v]. *)
Definition clean (v : jsstring) : bool :=
  forallb (fun L => negb (includes v L)) attr_literals.

(** Non-empty, with no white space at either end (so [trim] keeps it). *)
Definition trimmed (v : jsstring) : bool :=
  match v with
  | [] => false
  | c :: _ => negb (is_space c) && negb (is_space (List.last v 0))
  end.

(** A one-line text value: [shortDesc], [path], [schema]. *)
Definition plain_text (v : jsstring) : bool :=
  trimmed v && forallb (fun c => negb (c =? NL)) v && clean v.

(** A token: [kind], [format], [source]. *)
Definition plain_token (v : jsstring) : bool :=
  nonempty v && forallb (fun c => negb (is_space c)) v && clean v.

(** A step id: a token in which [kind:] does not occur either. *)
Definition plain_id (v : jsstring) : bool :=
  plain_token v && negb (includes v (str "kind:")).

(** A one-line [sql] that does not look like a block-scalar marker. *)
Definition plain_sql (v : jsstring) : bool :=
  plain_text v && negb (starts_with [124] v).

Definition in_alpha_ (c : N) : bool :=
  cls_has false [CRange 97 122; CRange 65 90; CChr 95] c.

(** An option key: letters and underscores, not [__proto__], and not
    ending with the name of an attribute. *)
Definition plain_key (k : jsstring) : bool :=
  nonempty k && forallb in_alpha_ k && negb (str_eqb k (str "__proto__"))
  && clean (k ++ [COLON]).

(** An option value: one line in the sense of [.] *)
Definition plain_value (v : jsstring) : bool :=
  trimmed v && forallb (fun c => negb (isLineTerminator c)) v && clean v.

(** An entry of [dependsOn]: one line without a colon. *)
Definition plain_dep (d : jsstring) : bool :=
  trimmed d
  && forallb (fun c => negb (isLineTerminator c) && negb (c =? COLON)) d.

Fixpoint distinct_keys (l : list (jsstring * jsstring)) : bool :=
  match l with
  | [] => true
  | (k, _) :: l' =>
      negb (existsb (fun kv => str_eqb (fst kv) k) l') && distinct_keys l'
  end.

Definition opt_ok {A} (P : A -> bool) (o : option A) : bool :=
  match o with
  | Some v => P v
  | None => true
  end.

Definition plain_options (o : option (list (jsstring * jsstring))) : bool :=
  match o with
  | None => true
  | Some [] => false
  | Some l =>
      forallb (fun kv => plain_key (fst kv) && plain_value (snd kv)) l
      && distinct_keys l
  end.

Definition plain_deps (o : option (list jsstring)) : bool :=
  match o with
  | None => true
  | Some [] => false
  | Some l => forallb plain_dep l
  end.

Definition plain_step (s : Step) : bool :=
  plain_id (id s) && plain_token (kind s)
  && opt_ok plain_text (shortDesc s)
  && negb (is_some (desc s))
  && opt_ok plain_token (format s)
  && opt_ok plain_sql (sql s)
  && opt_ok plain_text (path s)
  && opt_ok plain_token (source s)
  && plain_options (options s)
  && opt_ok plain_text (schema s)
  && opt_ok (fun _ => true) (cache s) && opt_ok (fun _ => true) (show s)
  && plain_deps (dependsOn s)
  && negb (is_some (position s)).

(** A pipeline id or description under which the steps section is found:
    it does not contain [steps:]. *)
Definition plain_meta (o : option jsstring) : bool :=
  match o with
  | Some v => negb (includes v (str "steps:"))
  | None => true
  end.

(** ** The text of one step *)

(** The lines of a step after its [- id:] line, without the blank line
    that closes it. *)
Definition attr_lines (step : Step) : list jsstring :=
  [str "    kind: " ++ kind step]
  ++ textLine "shortDesc" (shortDesc step)
  ++ textLine "source" (source step)
  ++ textLine "format" (format step)
  ++ textLine "path" (path step)
  ++ match sql step with Some (c :: v) => sqlLines (c :: v) | _ => [] end
  ++ boolLine "cache" (cache step)
  ++ boolLine "show" (show step)
  ++ textLine "schema" (schema step)
  ++ optionLines (options step)
  ++ dependsOnLines (dependsOn step).

(** The text of a step from [id:] on. *)
Definition core (step : Step) : jsstring :=
  str "id: " ++ id step ++ lines_text (attr_lines step).

(** The pattern of a boolean attribute: [/key\s*(true|false)/]. *)
Definition re_bool (key : string) : regex :=
  (Lit key · Star true ws · Group 1 (Alt (Lit "true") (Lit "false")))%re.

(** The literal [L] does not occur in the line. *)
Definition free (L ln : jsstring) : Prop := includes ln L = false.

(** [ends k st R C]: the continuation [k] succeeds from [st] and the
    match it returns has [R] as remaining input and [C] as captures.
    [ends_at k s cs R C] says so for every previous character. *)
Definition ends (k : mstate -> option mstate) (st : mstate)
    (R : jsstring) (C : list (nat * jsstring)) : Prop :=
  exists res, k st = Some res /\ rest res = R /\ caps res = C.

Definition ends_at (k : mstate -> option mstate) (s : jsstring)
    (cs : list (nat * jsstring)) (R : jsstring) (C : list (nat * jsstring)) : Prop :=
  forall p, ends k (MState p s cs) R C.

(** [k] fails on [s] whatever the previous character. *)
Definition fails_at (k : mstate -> option mstate) (s : jsstring)
    (cs : list (nat * jsstring)) : Prop :=
  forall p, k (MState p s cs) = None.

(** ** Nested blocks: the lines read by a repeated item

    [items_text lines tail] is the text on which a repeated item reads
    [lines] one after the other: the lines are separated by newlines;
    after the last one the input ends ([tail = None]) or goes on with a
    newline and [ts] ([tail = Some ts]). *)
Fixpoint items_text (lines : list jsstring) (tail : option jsstring) : jsstring :=
  match lines with
  | [] => match tail with Some ts => ts | None => [] end
  | l :: ls =>
      l ++ match ls, tail with
           | [], None => []
           | _, _ => NL :: items_text ls tail
           end
  end.

(** The text that the items take: the lines and the newlines after them. *)
Definition items_taken (lines : list jsstring) (tail : option jsstring) : jsstring :=
  join [NL] lines ++ match tail with Some _ => [NL] | None => [] end.

Definition re_option_item : regex :=   (* \s+[a-zA-Z_]+:\s*[^\n]+\n? *)
  (Plus true ws · Plus true alpha_ · Chr 58 · Star true ws
   · Plus true not_nl · Opt (Chr 10))%re.

Definition re_dep_item : regex :=      (* \s+-\s*[^\n]+\n? *)
  (Plus true ws · Chr 45 · Star true ws · Plus true not_nl · Opt (Chr 10))%re.

Definition all_space (w : jsstring) : Prop := Forall (fun c => is_space c = true) w.
Definition no_newline (v : jsstring) : Prop := Forall (fun c => c <> NL) v.
Definition starts_nonspace (v : jsstring) : Prop :=
  match v with
  | c :: _ => is_space c = false
  | [] => False
  end.

(** A line that one option item reads: indentation, key, colon, white
    space, value. *)
Definition option_item_line (l : jsstring) : Prop :=
  exists ind k w2 v,
    l = ind ++ k ++ COLON :: w2 ++ v
    /\ ind <> [] /\ all_space ind
    /\ k <> [] /\ Forall (fun c => in_alpha_ c = true) k
    /\ all_space w2
    /\ starts_nonspace v /\ no_newline v.

(** A line that one dependsOn item reads: indentation, dash, blank, value. *)
Definition dep_item_line (l : jsstring) : Prop :=
  exists ind v,
    l = ind ++ 45 :: SP :: v
    /\ ind <> [] /\ all_space ind
    /\ starts_nonspace v /\ no_newline v.

(** The pattern of a nested block: [/key\s*\n((?:item)+)/]. *)
Definition re_nested (key : string) (it : regex) : regex :=
  (Lit key · Star true ws · Chr 10 · Group 1 (Plus true it))%re.

Definition ends_nonspace (s : jsstring) : Prop :=
  exists a c, s = a ++ [c] /\ is_space c = false.

Definition opt_line (kv : jsstring * jsstring) : jsstring :=
  str "      " ++ fst kv ++ str ": " ++ snd kv.

Definition dep_line (d : jsstring) : jsstring := str "      - " ++ d.

(** [line] is an option line for the entry [kv], with any indentation. *)
Definition reads_option (line : jsstring) (kv : jsstring * jsstring) : Prop :=
  exists ind, all_space ind /\ line = ind ++ fst kv ++ COLON :: SP :: snd kv.

(** [line] is a dependsOn line for [d], with any indentation. *)
Definition reads_dep (line d : jsstring) : Prop :=
  exists ind, all_space ind /\ line = ind ++ 45 :: SP :: d.

(** No entry of [o] has the key [k]. *)
Definition fresh_key (o : list (jsstring * jsstring)) (k : jsstring) : Prop :=
  existsb (fun e => str_eqb (fst e) k) o = false.

(** [L] is one of the attribute literals. *)
Definition is_literal (L : jsstring) : bool := existsb (str_eqb L) attr_literals.

(** The lines of [attr_lines], attribute by attribute. *)
Definition kindGroup (step : Step) : list jsstring := [str "    kind: " ++ kind step].

Definition sqlGroup (step : Step) : list jsstring :=
  match sql step with Some (c :: v) => sqlLines (c :: v) | _ => [] end.

Definition groups (step : Step) : list (list jsstring) :=
  [kindGroup step;
   textLine "shortDesc" (shortDesc step);
   textLine "source" (source step);
   textLine "format" (format step);
   textLine "path" (path step);
   sqlGroup step;
   boolLine "cache" (cache step);
   boolLine "show" (show step);
   textLine "schema" (schema step);
   optionLines (options step);
   dependsOnLines (dependsOn step)].

(** What a scalar value must be for the pattern with the class
    [cls] and the post-processing [post] to read it back. *)
Definition reads_value (neg : bool) (items : list citem)
    (post : jsstring -> jsstring) (o : option jsstring) : Prop :=
  match o with
  | Some v => starts_nonspace v
              /\ Forall (fun x => cls_has neg items x = true) v
              /\ post v = v
  | None => True
  end.

(** ** The text of a list of steps *)

(** The entry of a step in the sequence, and the text between the last
    line of a step and the [id:] of the next one. *)
Definition entry (s : Step) : jsstring := str "  - " ++ core s.

Definition step_sep : jsstring := NL :: NL :: str "  - ".

(** The text of the steps section for the steps [s :: rest]. *)
Definition body_text (s : Step) (rest : list Step) : jsstring :=
  entry s ++ flat_map (fun s' => step_sep ++ core s') rest.

(** No newline of [s] is followed by a letter: nothing in [s] looks like
    a top-level key. *)
Fixpoint no_top_level (s : jsstring) : bool :=
  match s with
  | [] => true
  | c :: t =>
      negb ((c =? NL)
            && match t with
               | x :: _ => cls_has false [CRange 97 122; CRange 65 90] x
               | [] => false
               end)
      && no_top_level t
  end.

(** A line of a step after the first: indented, and when it starts with
    a dash, an entry of [dependsOn]. *)
Definition attr_line (l : jsstring) : Prop :=
  no_newline l /\ ends_nonspace l
  /\ exists n x r,
       l = repeat SP (S n) ++ x :: r /\ is_space x = false
       /\ (x = 45 -> exists d, r = SP :: d /\ starts_nonspace d /\ ~ In COLON d).

(** The separator pattern matches nowhere in [b], whatever comes before
    [b], when the text ends or goes on with a newline after it. *)
Definition sep_free (b : jsstring) : Prop :=
  forall T p b1 c b2,
    (T = [] \/ exists T', T = NL :: T') ->
    b = b1 ++ c :: b2 ->
    match_here re_step_sep p (c :: b2 ++ T) = None.

(** ** What the text carries of a step

    The serializer writes neither [desc] nor [position], and it skips an
    attribute that is an empty string, an object without keys or an
    empty array. *)
Definition carried_text (o : option jsstring) : option jsstring :=
  match o with
  | Some (c :: v) => Some (c :: v)
  | _ => None
  end.

Definition carried_list {A} (o : option (list A)) : option (list A) :=
  match o with
  | Some (x :: l) => Some (x :: l)
  | _ => None
  end.

Definition carried (s : Step) : Step :=
  mkStep (id s) (kind s) (carried_text (shortDesc s)) None
         (carried_text (format s)) (carried_text (sql s))
         (carried_text (path s)) (carried_text (source s))
         (carried_list (options s)) (carried_text (schema s))
         (cache s) (show s) (carried_list (dependsOn s)) None.

(** ** Steps used as examples of the round trip *)


Definition has_newline (v : jsstring) : bool := existsb (N.eqb NL) v.

Definition opt_no_newline (o : option jsstring) : bool :=
  match o with Some v => negb (has_newline v) | None => true end.

(** No field of the step other than [sql] contains a newline. *)
Definition no_embedded_newline (s : Step) : bool :=
  negb (has_newline (id s)) && negb (has_newline (kind s))
  && opt_no_newline (shortDesc s) && opt_no_newline (desc s)
  && opt_no_newline (format s) && opt_no_newline (path s)
  && opt_no_newline (source s) && opt_no_newline (schema s)
  && match options s with
     | Some l => forallb (fun kv => negb (has_newline (fst kv))
                                    && negb (has_newline (snd kv))) l
     | None => true
     end
  && match dependsOn s with
     | Some l => forallb (fun d => negb (has_newline d)) l
     | None => true
     end.

(** A pipeline of three plain steps. *)
Definition step_customers : Step :=
  mkStep (str "customers") (str "input") (Some (str "Load customers")) None
         (Some (str "csv")) None (Some (str "/data/customers.csv")) None
         (Some [(str "header", str "true"); (str "delimiter", str ";")])
         (Some (str "id INT, name STRING")) (Some true) None None None.

Definition step_adults : Step :=
  mkStep (str "adults") (str "sql") None None None
         (Some (str "SELECT * FROM customers WHERE age >= 18")) None None None
         None None (Some false) (Some [str "customers"]) None.

Definition step_report : Step :=
  mkStep (str "report") (str "output") None None (Some (str "parquet")) None
         (Some (str "/out/adults")) (Some (str "adults")) None None None None
         (Some [str "adults"; str "customers"]) None.

Definition pipeline_example : list Step := [step_customers; step_adults; step_report].

(** A step with a description, and one with a position on the canvas. *)
Definition step_described : Step :=
  mkStep (str "load") (str "input") None (Some (str "note")) (Some (str "csv"))
         None None None None None None None None None.

Definition step_placed : Step :=
  mkStep (str "clean") (str "sql") (Some (str "")) None None
         (Some (str "SELECT * FROM load")) None None (Some []) None None None
         (Some [str "load"]) (Some (120, 80)%Z).

(** A JDBC input: the URL contains the characters [sql:]. *)
Definition step_jdbc : Step :=
  mkStep (str "orders") (str "input") None None (Some (str "jdbc")) None None None
         (Some [(str "url", str "jdbc:postgresql://db/sales")])
         None None None None None.



(** ** What the validator accepts *)

Fixpoint distinct_ids (l : list jsstring) : bool :=
  match l with
  | [] => true
  | i :: l' => negb (existsb (str_eqb i) l') && distinct_ids l'
  end.

(** [step.kind === 'input' || step.kind === 'output'] *)
Definition needs_format (s : Step) : bool :=
  str_eqb (kind s) (str "input") || str_eqb (kind s) (str "output").

(** The step passes the checks on its kind, its format and its source. *)
Definition step_accepted (steps : list Step) (s : Step) : bool :=
  existsb (str_eqb (kind s)) validKinds
  && negb (needs_format s && negb (truthy (format s)))
  && match source s with
     | Some (c :: r) => existsb (has_id (c :: r)) steps
     | _ => true
     end.

(** The text has an id line and a steps section, and its steps are at
    least one, have distinct ids and are accepted one by one. *)
Definition accepted (yaml : jsstring) (steps : list Step) : bool :=
  is_some (regex_match re_has_id yaml)
  && includes yaml (str "steps:")
  && match steps with [] => false | _ :: _ => true end
  && distinct_ids (map id steps)
  && forallb (step_accepted steps) steps.

(** The last character of a message. *)
Definition last_chr (s : jsstring) : N := List.last s 0.

(** ** Texts without line breaks *)

Definition one_line (v : jsstring) : bool :=
  forallb (fun c => negb (isLineTerminator c)) v.

Definition opt_one_line (o : option jsstring) : bool :=
  match o with Some v => one_line v | None => true end.

(** A pipeline id or description that is read back as it is: absent or
    empty (and then not written), or on one line and without white
    space at its ends. *)
Definition plain_header (o : option jsstring) : bool :=
  match o with
  | Some (c :: v) => trimmed (c :: v) && one_line (c :: v)
  | _ => true
  end.

(** No written field of the step holds a line terminator, except that
    [sql] may hold newlines. *)
Definition no_line_break (s : Step) : bool :=
  one_line (id s) && one_line (kind s)
  && opt_one_line (shortDesc s) && opt_one_line (source s)
  && opt_one_line (format s) && opt_one_line (path s)
  && match sql s with
     | Some v => forallb (fun c => (c =? NL) || negb (isLineTerminator c)) v
     | None => true
     end
  && opt_one_line (schema s)
  && match options s with
     | Some l => forallb (fun kv => one_line (fst kv) && one_line (snd kv)) l
     | None => true
     end
  && match dependsOn s with
     | Some l => forallb one_line l
     | None => true
     end.

(** A line of the text of the steps: without line terminator, and empty
    or indented. *)
Definition indented_line (l : jsstring) : Prop :=
  one_line l = true /\ (l = [] \/ exists t, l = SP :: t).



(** ** The reconnection of the logs socket ([LogsWebSocket])

    The state that matters is the counter [reconnectAttempts].  The
    handler of [onopen] resets it; the handler of [onclose], and the
    failure to create the socket, call [attemptReconnect], which gives
    up when the counter has reached [maxReconnectAttempts] and
    otherwise increments it and schedules a reconnection after
    [min(1000 * 2^reconnectAttempts, 30000)] milliseconds. *)
Definition maxReconnectAttempts : nat := 5.

(** The new counter and the delay of the reconnection that is
    scheduled, if one is. *)
Definition attemptReconnect (reconnectAttempts : nat) : nat * option N :=
  if (maxReconnectAttempts <=? reconnectAttempts)%nat
  then (reconnectAttempts, None)
  else
    let reconnectAttempts := S reconnectAttempts in
    (reconnectAttempts, Some (N.min (1000 * 2 ^ N.of_nat reconnectAttempts) 30000)).

Inductive socket_event : Type :=
| SocketOpened      (* onopen *)
| SocketClosed.     (* onclose, or the socket could not be created *)

Definition on_event (reconnectAttempts : nat) (e : socket_event) : nat * option N :=
  match e with
  | SocketOpened => (O, None)
  | SocketClosed => attemptReconnect reconnectAttempts
  end.

(** The counter after a sequence of events, and the delays of the
    reconnections scheduled on the way. *)
Fixpoint run_events (reconnectAttempts : nat) (es : list socket_event)
  : nat * list N :=
  match es with
  | [] => (reconnectAttempts, [])
  | e :: es' =>
      let '(n, d) := on_event reconnectAttempts e in
      let '(n', ds) := run_events n es' in
      (n', match d with Some x => x :: ds | None => ds end)
  end.

(** * Properties of the matcher *)




Lemma step_if_sound (p : N -> bool) k st res :
  step_if p k st = Some res ->
  exists c t, rest st = c :: t /\ p c = true
              /\ k (MState (Some c) t (caps st)) = Some res.
Proof.
  unfold step_if. destruct (rest st) as [|c t]; [discriminate|].
  destruct (p c) eqn:Hp; [|discriminate]. eauto.
Qed.

Lemma star_loop_sound r body g :
  (forall k st res, body k st = Some res ->
                    exists st', matches r st st' /\ k st' = Some res) ->
  forall n k st res,
    star_loop body g k n st = Some res ->
    exists st', matches (Star g r) st st' /\ k st' = Some res.
Proof.
  intros Hbody n. induction n as [|n IH]; intros k st res H; simpl in H.
  - exists st. split; [constructor | exact H].
  - assert (Hagain : forall res',
      body (fun st' => if (length (rest st') <? length (rest st))%nat
                       then star_loop body g k n st' else None) st = Some res' ->
      exists st', matches (Star g r) st st' /\ k st' = Some res').
    { intros res' Hb. apply Hbody in Hb as (st1 & Hm & Hk).
      destruct (Nat.ltb_spec (length (rest st1)) (length (rest st))) as [Hlt|]; [|discriminate].
      apply IH in Hk as (st2 & Hm2 & Hk2). exists st2. split; [|exact Hk2].
      eapply M_StarS; eauto. }
    destruct g.
    + destruct (body _ st) as [x|] eqn:Hb.
      * inversion H; subst. apply Hagain. reflexivity.
      * exists st. split; [constructor | exact H].
    + destruct (k st) as [x|] eqn:Hk.
      * inversion H; subst. exists st. split; [constructor | exact Hk].
      * apply Hagain. exact H.
Qed.

Lemma m_sound r : forall k st res,
  m r k st = Some res -> exists st', matches r st st' /\ k st' = Some res.
Proof.
  induction r as [ | c | | neg items | r1 IH1 r2 IH2 | r1 IH1 r2 IH2 | g r IH
                 | i r IH | r IH | | | ]; intros k st res H; simpl in H.
  - exists st. split; [constructor | exact H].
  - apply step_if_sound in H as (x & t & Hr & Hc & Hk).
    apply N.eqb_eq in Hc. subst x. destruct st as [p s cs]; simpl in *; subst s.
    eexists. split; [constructor | exact Hk].
  - apply step_if_sound in H as (x & t & Hr & Hc & Hk).
    destruct st as [p s cs]; simpl in *; subst s.
    eexists. split; [constructor | exact Hk].
    now apply negb_true_iff in Hc.
  - apply step_if_sound in H as (x & t & Hr & Hc & Hk).
    destruct st as [p s cs]; simpl in *; subst s.
    eexists. split; [constructor; exact Hc | exact Hk].
  - apply IH1 in H as (st1 & Hm1 & H). apply IH2 in H as (st2 & Hm2 & H).
    exists st2. split; [econstructor; eauto | exact H].
  - destruct (m r1 k st) as [x|] eqn:H1.
    + inversion H; subst. apply IH1 in H1 as (st1 & Hm1 & H1).
      exists st1. split; [apply M_AltL; exact Hm1 | exact H1].
    + apply IH2 in H as (st1 & Hm1 & H).
      exists st1. split; [apply M_AltR; exact Hm1 | exact H].
  - eapply star_loop_sound; [|exact H]. exact IH.
  - apply IH in H as (st1 & Hm1 & H). eexists. split; [|exact H].
    constructor. exact Hm1.
  - destruct (m r Some st) as [st1|] eqn:H1; [|discriminate].
    apply IH in H1 as (st2 & Hm2 & H2). inversion H2; subst st2.
    eexists. split; [|exact H]. constructor. exact Hm2.
  - destruct (at_bol st) eqn:Hb; [|discriminate].
    exists st. split; [constructor; exact Hb | exact H].
  - destruct (prev st) eqn:Hb; [discriminate|].
    exists st. split; [constructor; exact Hb | exact H].
  - destruct (rest st) eqn:Hb; [|discriminate].
    exists st. split; [constructor; exact Hb | exact H].
Qed.

(** A match consumes a prefix of the input. *)
Lemma matches_rest r st st' :
  matches r st st' -> exists w, rest st = w ++ rest st'.
Proof.
  induction 1; simpl;
    try (exists []; reflexivity);
    try (eexists [_]; reflexivity); try assumption.
  - destruct IHmatches1 as [w1 ->]. destruct IHmatches2 as [w2 ->].
    exists (w1 ++ w2). now rewrite <- app_assoc.
  - destruct IHmatches1 as [w1 ->]. destruct IHmatches2 as [w2 ->].
    exists (w1 ++ w2). now rewrite <- app_assoc.
Qed.

Lemma consumed_app w st st' : rest st = w ++ rest st' -> consumed st st' = w.
Proof.
  intros H. unfold consumed. rewrite H, length_app.
  replace (length w + length (rest st') - length (rest st'))%nat with (length w) by lia.
  now rewrite firstn_app, Nat.sub_diag, firstn_all, app_nil_r.
Qed.

(** Captures are never removed during a match. *)
Lemma matches_caps_mono r st st' i :
  matches r st st' -> is_Some (assoc i (caps st)) -> is_Some (assoc i (caps st')).
Proof.
  induction 1; simpl; intros Hi; auto.
  destruct (Nat.eqb i i0); [eexists; reflexivity | auto].
Qed.

Lemma matches_defines r st st' i :
  matches r st st' -> defines i r = true -> is_Some (assoc i (caps st')).
Proof.
  induction 1; simpl; intros Hd; try discriminate.
  - apply orb_true_iff in Hd as [Hd|Hd]; [|auto].
    eapply matches_caps_mono; eauto.
  - apply andb_true_iff in Hd as [Hd _]. auto.
  - apply andb_true_iff in Hd as [_ Hd]. auto.
  - destruct (Nat.eqb i i0); [eexists; reflexivity | auto].
  - auto.
Qed.

(** What [exec_from] returns is a match at some position of the input;
    the state it starts from knows the character before that position. *)
Lemma exec_from_sound r : forall s p before mr,
  p = hd_error before ->
  exec_from r p before s = Some mr ->
  exists pre st',
    m_before mr = rev before ++ pre
    /\ s = pre ++ m_text mr ++ m_after mr
    /\ matches r (MState (hd_error (rev (m_before mr))) (m_text mr ++ m_after mr) []) st'
    /\ rest st' = m_after mr /\ caps st' = m_caps mr.
Proof.
  assert (Hhere : forall s p before st',
             p = hd_error before -> match_here r p s = Some st' ->
             let mr := MatchResult (rev before) (consumed (MState p s []) st')
                                   (rest st') (caps st') in
             s = m_text mr ++ m_after mr
             /\ matches r (MState (hd_error (rev (m_before mr)))
                                  (m_text mr ++ m_after mr) []) st').
  { intros s p before st' Hp Hm. unfold match_here in Hm.
    apply m_sound in Hm as (st1 & Hm & Hk). inversion Hk; subst st1.
    destruct (matches_rest _ _ _ Hm) as [w Hw]. cbn [rest] in Hw.
    cbn [m_before m_text m_after]. rewrite (consumed_app w) by exact Hw.
    rewrite rev_involutive, <- Hw, <- Hp. auto. }
  induction s as [|c t IH]; intros p before mr Hp H; simpl in H.
  - destruct (match_here r p []) as [st'|] eqn:Hm; [|discriminate].
    inversion H; subst mr. destruct (Hhere _ _ _ _ Hp Hm) as [H1 H2].
    exists [], st'. rewrite app_nil_r. repeat split; auto.
  - destruct (match_here r p (c :: t)) as [st'|] eqn:Hm.
    + inversion H; subst mr. destruct (Hhere _ _ _ _ Hp Hm) as [H1 H2].
      exists [], st'. rewrite app_nil_r. repeat split; auto.
    + apply (IH (Some c) (c :: before)) in H as (pre & st' & H1 & H2 & H3 & H4 & H5);
        [|reflexivity].
      exists (c :: pre), st'. cbn [rev] in H1. rewrite <- app_assoc in H1.
      repeat split; auto. simpl. now rewrite <- H2.
Qed.

Lemma regex_match_sound r s mr :
  regex_match r s = Some mr ->
  exists st',
    s = m_before mr ++ m_text mr ++ m_after mr
    /\ matches r (MState (hd_error (rev (m_before mr))) (m_text mr ++ m_after mr) []) st'
    /\ rest st' = m_after mr /\ caps st' = m_caps mr.
Proof.
  intros H. apply exec_from_sound in H as (pre & st' & H1 & H2 & H3 & H4 & H5);
    [|reflexivity].
  exists st'. simpl in H1. subst pre. repeat split; auto.
Qed.

(** A capture group on every path of the pattern is defined in every
    match result: reading it never gives [undefined]. *)
Lemma grp_defined r s mr i :
  regex_match r s = Some mr -> defines i r = true -> exists v, grp i mr = Ok v.
Proof.
  intros H Hd. apply regex_match_sound in H as (st' & _ & Hm & _ & Hc).
  destruct (matches_defines _ _ _ i Hm Hd) as [v Hv].
  exists v. unfold grp. now rewrite <- Hc, Hv.
Qed.

(** ** The parser reads only captures that are defined *)

Lemma field_total r post block :
  defines 1 r = true -> exists o, field r post block = Ok o.
Proof.
  intros Hd. unfold field. destruct (regex_match r block) as [mr|] eqn:Hm; [|eauto].
  destruct (grp_defined _ _ _ 1 Hm Hd) as [v ->]. simpl. eauto.
Qed.

Lemma bool_field_total r block :
  defines 1 r = true -> exists o, bool_field r block = Ok o.
Proof.
  intros Hd. unfold bool_field. destruct (regex_match r block) as [mr|] eqn:Hm; [|eauto].
  destruct (grp_defined _ _ _ 1 Hm Hd) as [v ->]. simpl. eauto.
Qed.

Lemma parse_sql_total block : exists o, parse_sql block = Ok o.
Proof.
  unfold parse_sql. destruct (regex_match re_sql_pipe block) as [mr|] eqn:Hm.
  - destruct (grp_defined _ _ _ 1 Hm eq_refl) as [v ->]. simpl. eauto.
  - now apply field_total.
Qed.

Lemma parse_option_lines_total ls : forall o, exists o', parse_option_lines ls o = Ok o'.
Proof.
  induction ls as [|line ls IH]; intros o; simpl; [eauto|].
  destruct (regex_match re_option_line line) as [mr|] eqn:Hm; [|apply IH].
  destruct (grp_defined _ _ _ 1 Hm eq_refl) as [k ->].
  destruct (grp_defined _ _ _ 2 Hm eq_refl) as [v ->]. simpl. apply IH.
Qed.

Lemma parse_dep_lines_total ls : forall deps, exists deps', parse_dep_lines ls deps = Ok deps'.
Proof.
  induction ls as [|line ls IH]; intros deps; simpl; [eauto|].
  destruct (regex_match re_dep_line line) as [mr|] eqn:Hm; [|apply IH].
  destruct (grp_defined _ _ _ 1 Hm eq_refl) as [d ->]. simpl. apply IH.
Qed.

Lemma parse_options_total block : exists o, parse_options block = Ok o.
Proof.
  unfold parse_options. destruct (regex_match re_options block) as [mr|] eqn:Hm; [|eauto].
  destruct (grp_defined _ _ _ 1 Hm eq_refl) as [v ->]. simpl.
  destruct (parse_option_lines_total (split_chr NL (trim v)) []) as [o ->]. simpl. eauto.
Qed.

Lemma parse_dependsOn_total block : exists o, parse_dependsOn block = Ok o.
Proof.
  unfold parse_dependsOn. destruct (regex_match re_dependsOn block) as [mr|] eqn:Hm; [|eauto].
  destruct (grp_defined _ _ _ 1 Hm eq_refl) as [v ->]. simpl.
  destruct (parse_dep_lines_total (split_chr NL (trim v)) []) as [o ->]. simpl. eauto.
Qed.

Lemma parseStepBlock_total block : exists o, parseStepBlock block = Ok o.
Proof.
  unfold parseStepBlock.
  destruct (regex_match re_id block) as [idMatch|] eqn:Hid; [|eauto].
  destruct (regex_match re_kind block) as [kindMatch|] eqn:Hkind; [|eauto].
  destruct (grp_defined _ _ _ 1 Hid eq_refl) as [v1 ->].
  destruct (grp_defined _ _ _ 1 Hkind eq_refl) as [v2 ->].
  destruct (field_total re_shortDesc trim block eq_refl) as [? ->].
  destruct (field_total re_desc trim block eq_refl) as [? ->].
  destruct (field_total re_format (fun v => v) block eq_refl) as [? ->].
  destruct (field_total re_source (fun v => v) block eq_refl) as [? ->].
  destruct (field_total re_path trim block eq_refl) as [? ->].
  destruct (field_total re_schema trim block eq_refl) as [? ->].
  destruct (bool_field_total re_cache block eq_refl) as [? ->].
  destruct (bool_field_total re_show block eq_refl) as [? ->].
  destruct (parse_sql_total block) as [? ->].
  destruct (parse_options_total block) as [? ->].
  destruct (parse_dependsOn_total block) as [? ->].
  simpl. eauto.
Qed.

Lemma parse_blocks_total bs : exists steps, parse_blocks bs = Ok steps.
Proof.
  induction bs as [|b bs [steps IH]]; simpl; [eauto|].
  destruct (parseStepBlock_total b) as [o ->]. rewrite IH. simpl. eauto.
Qed.

(** [parseYamlSteps] returns a step list on every input. *)
Lemma parseYamlSteps_total yaml : exists steps, parseYamlSteps yaml = Ok steps.
Proof.
  unfold parseYamlSteps. destruct (regex_match re_steps yaml) as [mr|] eqn:Hm; [|eauto].
  destruct (grp_defined _ _ _ 1 Hm eq_refl) as [v ->]. simpl. apply parse_blocks_total.
Qed.

Lemma validateYaml_total yaml :
  exists steps, parseYamlSteps yaml = Ok steps
    /\ validateYaml yaml =
       Ok (mkValidation
             (match validate_steps (header_errors yaml) steps with
              | [] => true | _ :: _ => false end)
             (validate_steps (header_errors yaml) steps)).
Proof.
  destruct (parseYamlSteps_total yaml) as [steps H]. exists steps. split; [exact H|].
  unfold validateYaml. rewrite H. reflexivity.
Qed.

(** * Properties of the validator *)

Lemma str_eqb_eq a : forall b, str_eqb a b = true <-> a = b.
Proof.
  induction a as [|x a IH]; intros [|y b]; simpl; split; intros H;
    try reflexivity; try discriminate.
  - apply andb_true_iff in H as [H1 H2]. apply N.eqb_eq in H1. apply IH in H2.
    now subst.
  - inversion H; subst. now rewrite N.eqb_refl, (proj2 (IH b)).
Qed.

Lemma str_eqb_refl a : str_eqb a a = true.
Proof. now apply str_eqb_eq. Qed.

Lemma str_eqb_neq a b : str_eqb a b = false <-> a <> b.
Proof.
  destruct (str_eqb a b) eqn:E.
  - apply str_eqb_eq in E. split; [discriminate | intros H; contradiction].
  - split; [|reflexivity]. intros _ H. apply str_eqb_eq in H. congruence.
Qed.

Lemma validate_step_fold steps : forall l stepIds errors,
  fold_left (validate_step steps) l (stepIds, errors)
  = (list_to_set (map id l) ∪ stepIds, errors ++ loop_errors steps stepIds l).
Proof.
  induction l as [|s l IH]; intros stepIds errs; simpl.
  - rewrite app_nil_r. f_equal. apply set_eq. set_unfold. tauto.
  - rewrite IH. unfold iter_errors. rewrite <- !app_assoc. f_equal.
    apply set_eq. set_unfold. tauto.
Qed.

Lemma validate_steps_eq errs steps :
  validate_steps errs steps
  = errs ++ match steps with [] => [err_empty] | _ :: _ => [] end
    ++ loop_errors steps ∅ steps.
Proof.
  unfold validate_steps. rewrite validate_step_fold. simpl. now rewrite <- app_assoc.
Qed.

Lemma loop_errors_app steps : forall l1 l2 stepIds,
  loop_errors steps stepIds (l1 ++ l2)
  = loop_errors steps stepIds l1
    ++ loop_errors steps (list_to_set (map id l1) ∪ stepIds) l2.
Proof.
  induction l1 as [|s l1 IH]; intros l2 stepIds; simpl.
  - f_equal. apply set_eq. set_unfold. tauto.
  - rewrite IH, <- app_assoc. do 3 f_equal. apply set_eq. set_unfold. tauto.
Qed.

Lemma In_iter_errors steps stepIds step e :
  In e (iter_errors steps stepIds step) ->
  (e = err_duplicate (id step) /\ id step ∈ stepIds)
  \/ (e = err_kind (kind step) (id step)
      /\ existsb (str_eqb (kind step)) validKinds = false)
  \/ (e = err_format (id step) (kind step))
  \/ (exists src, e = err_source (id step) src /\ source step = Some src
                  /\ src <> [] /\ forall s', In s' steps -> id s' <> src).
Proof.
  unfold iter_errors. rewrite !in_app_iff.
  intros [H|[H|[H|H]]].
  - left. unfold check_duplicate in H. destruct (decide _); [|destruct H].
    destruct H as [<-|[]]. auto.
  - right; left. unfold check_kind in H.
    destruct (existsb _ _) eqn:Hk; [destruct H|]. destruct H as [<-|[]]. auto.
  - right; right; left. unfold check_format in H.
    destruct (_ && _); [|destruct H]. destruct H as [<-|[]]. auto.
  - right; right; right. unfold check_source in H.
    destruct (source step) as [[|c src]|] eqn:Hs; try destruct H.
    destruct (_ && _); [|destruct H].
    destruct (existsb _ _) eqn:He; [destruct H|]. destruct H as [<-|[]].
    exists (c :: src). split; [reflexivity|]. split; [reflexivity|].
    split; [discriminate|].
    intros s' Hin Heq.
    assert (existsb (has_id (c :: src)) steps = true); [|congruence].
    apply existsb_exists. exists s'. split; [exact Hin|].
    unfold has_id. now apply str_eqb_eq.
Qed.

Lemma In_loop_errors steps e : forall l stepIds,
  In e (loop_errors steps stepIds l) ->
  exists pre step post,
    l = pre ++ step :: post
    /\ In e (iter_errors steps (list_to_set (map id pre) ∪ stepIds) step).
Proof.
  induction l as [|s l IH]; intros stepIds H; simpl in H; [destruct H|].
  apply in_app_iff in H as [H|H].
  - exists [], s, l. split; [reflexivity|]. simpl.
    replace (∅ ∪ stepIds) with stepIds by (apply set_eq; set_unfold; tauto). exact H.
  - apply IH in H as (pre & step & post & -> & H).
    exists (s :: pre), step, post. split; [reflexivity|]. simpl.
    replace ({[id s]} ∪ list_to_set (map id pre) ∪ stepIds)
      with (list_to_set (map id pre) ∪ ({[id s]} ∪ stepIds))
      by (apply set_eq; set_unfold; tauto).
    exact H.
Qed.

Lemma first_chr_loop_error steps stepIds l e :
  In e (loop_errors steps stepIds l) ->
  first_chr e = 68 \/ first_chr e = 73 \/ first_chr e = 83.
Proof.
  intros H. apply In_loop_errors in H as (pre & step & post & _ & H).
  apply In_iter_errors in H as [[-> _]|[[-> _]|[->|(src & -> & _)]]]; cbv; auto.
Qed.

Lemma occurrences_app e l1 l2 :
  occurrences e (l1 ++ l2) = (occurrences e l1 + occurrences e l2)%nat.
Proof. unfold occurrences. now rewrite List.filter_app, length_app. Qed.

Lemma occurrences_first_chr e l :
  (forall x, In x l -> first_chr x <> first_chr e) -> occurrences e l = 0%nat.
Proof.
  unfold occurrences. induction l as [|x l IH]; intros H; simpl; [reflexivity|].
  destruct (str_eqb e x) eqn:E.
  - apply str_eqb_eq in E. subst x. exfalso. apply (H e); [now left | reflexivity].
  - apply IH. intros y Hy. apply H. now right.
Qed.

Lemma err_duplicate_inj a b : err_duplicate a = err_duplicate b -> a = b.
Proof.
  unfold err_duplicate. intros H. apply app_inv_head in H.
  now apply app_inv_tail in H.
Qed.

Lemma first_chr_other_checks steps stepIds step x :
  In x (check_kind step ++ check_format step ++ check_source steps stepIds step) ->
  first_chr x = 73 \/ first_chr x = 83.
Proof.
  rewrite !in_app_iff. intros [H|[H|H]].
  - unfold check_kind in H. destruct (existsb _ _); [destruct H|].
    destruct H as [<-|[]]. now left.
  - unfold check_format in H. destruct (_ && _); [|destruct H].
    destruct H as [<-|[]]. now right.
  - unfold check_source in H. destruct (source step) as [[|c src]|]; try destruct H.
    destruct (_ && _); [|destruct H]. destruct (existsb _ _); [destruct H|].
    destruct H as [<-|[]]. now right.
Qed.

Lemma occurrences_duplicate_iter steps stepIds step i :
  occurrences (err_duplicate i) (iter_errors steps stepIds step)
  = if has_id i step && bool_decide (id step ∈ stepIds) then 1%nat else 0%nat.
Proof.
  unfold iter_errors. rewrite occurrences_app.
  rewrite (occurrences_first_chr _ (_ ++ _)).
  - rewrite Nat.add_0_r. unfold check_duplicate, has_id.
    destruct (decide (id step ∈ stepIds)) as [Hin|Hin].
    + rewrite (bool_decide_eq_true_2 _ Hin), andb_true_r.
      unfold occurrences. cbn [List.filter].
      destruct (str_eqb (id step) i) eqn:E.
      * apply str_eqb_eq in E. subst i. now rewrite str_eqb_refl.
      * destruct (str_eqb (err_duplicate i) (err_duplicate (id step))) eqn:E';
          [|reflexivity].
        apply str_eqb_eq, err_duplicate_inj in E'. subst i.
        now rewrite str_eqb_refl in E.
    + rewrite (bool_decide_eq_false_2 _ Hin), andb_false_r. reflexivity.
  - intros x Hx. apply first_chr_other_checks in Hx as [-> | ->]; discriminate.
Qed.

Lemma occurrences_duplicate_loop steps i : forall l stepIds,
  occurrences (err_duplicate i) (loop_errors steps stepIds l)
  = if bool_decide (i ∈ stepIds) then steps_with_id i l
    else Nat.pred (steps_with_id i l).
Proof.
  unfold steps_with_id.
  induction l as [|s l IH]; intros stepIds; simpl.
  - now destruct (bool_decide _).
  - rewrite occurrences_app, occurrences_duplicate_iter, IH.
    change (has_id i s) with (str_eqb (id s) i).
    destruct (str_eqb (id s) i) eqn:E; cbn [andb length].
    + apply str_eqb_eq in E. subst i.
      rewrite (bool_decide_eq_true_2 (id s ∈ {[id s]} ∪ stepIds))
        by (apply elem_of_union; left; now apply elem_of_singleton).
      now destruct (bool_decide (id s ∈ stepIds)).
    + apply str_eqb_neq in E.
      destruct (bool_decide_reflect (i ∈ stepIds)) as [Hin|Hin].
      * rewrite bool_decide_eq_true_2; [reflexivity|].
        apply elem_of_union; now right.
      * rewrite bool_decide_eq_false_2; [reflexivity|].
        intros [H|H]%elem_of_union; [|contradiction].
        apply elem_of_singleton in H. congruence.
Qed.

Lemma occurrences_duplicate_header yaml i :
  occurrences (err_duplicate i) (header_errors yaml) = 0%nat.
Proof.
  apply occurrences_first_chr. intros x Hx. unfold header_errors in Hx.
  apply in_app_iff in Hx as [Hx|Hx].
  - destruct (regex_match _ _); [destruct Hx|]. destruct Hx as [<-|[]]. discriminate.
  - destruct (includes _ _); [destruct Hx|]. destruct Hx as [<-|[]]. discriminate.
Qed.

Lemma occurrences_duplicate_validate yaml steps i :
  occurrences (err_duplicate i) (validate_steps (header_errors yaml) steps)
  = Nat.pred (steps_with_id i steps).
Proof.
  rewrite validate_steps_eq, !occurrences_app, occurrences_duplicate_header,
    occurrences_duplicate_loop.
  rewrite bool_decide_eq_false_2 by apply not_elem_of_empty.
  destruct steps; reflexivity.
Qed.

(** * What the parser returns *)

Lemma matches_star_cls g neg items st st' :
  matches (Star g (Cls neg items)) st st' ->
  exists w, rest st = w ++ rest st'
            /\ Forall (fun c => cls_has neg items c = true) w.
Proof.
  intros H. remember (Star g (Cls neg items)) as r eqn:Hr.
  induction H; try discriminate.
  - exists []. split; [reflexivity | constructor].
  - inversion Hr; subst. destruct (IHmatches2 eq_refl) as (w & Hw & Hall).
    inversion H; subst. simpl in *. exists (c :: w). split.
    + now rewrite Hw.
    + constructor; assumption.
Qed.

Lemma matches_plus_cls g neg items st st' :
  matches (Plus g (Cls neg items)) st st' ->
  exists c w, rest st = (c :: w) ++ rest st'
              /\ Forall (fun c => cls_has neg items c = true) (c :: w).
Proof.
  intros H. inversion H; subst.
  match goal with H1 : matches (Cls _ _) _ _ |- _ => inversion H1; subst end.
  match goal with H1 : matches (Star _ _) _ _ |- _ =>
    apply matches_star_cls in H1 as (w & Hw & Hall) end.
  simpl in *. exists c, w. split; [now rewrite Hw | now constructor].
Qed.









(** ** Telling the messages apart *)





Lemma header_errors_first_chr yaml e :
  In e (header_errors yaml ++ [err_empty]) -> first_chr e = 80.
Proof.
  unfold header_errors. rewrite !in_app_iff. intros [[H|H]|H].
  - destruct (regex_match _ _); [destruct H|]. now destruct H as [<-|[]].
  - destruct (includes _ _); [destruct H|]. now destruct H as [<-|[]].
  - now destruct H as [<-|[]].
Qed.

Lemma In_validate_steps yaml steps e :
  In e (validate_steps (header_errors yaml) steps) ->
  In e (header_errors yaml ++ [err_empty]) \/ In e (loop_errors steps ∅ steps).
Proof.
  rewrite validate_steps_eq, !in_app_iff. intros [H|[H|H]]; auto.
  destruct steps; [|destruct H]. auto.
Qed.



(** ** The validator: accumulation, duplicates, unknown sources *)

Lemma err_empty_only_when_empty yaml steps :
  In err_empty (validate_steps (header_errors yaml) steps) -> steps = [].
Proof.
  rewrite validate_steps_eq, !in_app_iff. intros [H|[H|H]].
  - exfalso. unfold header_errors in H. apply in_app_iff in H as [H|H].
    + destruct (regex_match _ _); [destruct H|]. now destruct H as [H|[]].
    + destruct (includes _ _); [destruct H|]. now destruct H as [H|[]].
  - destruct steps; [reflexivity | destruct H].
  - apply first_chr_loop_error in H. now destruct H as [H|[H|H]].
Qed.

Lemma err_kind_only_from_loop yaml steps k i :
  In (err_kind k i) (validate_steps (header_errors yaml) steps) -> steps <> [].
Proof.
  intros H ->. apply In_validate_steps in H as [H|[]].
  apply header_errors_first_chr in H. discriminate.
Qed.

Lemma In_loop_errors_iter steps step e :
  In step steps ->
  (forall stepIds, In e (iter_errors steps stepIds step)) ->
  In e (loop_errors steps ∅ steps).
Proof.
  intros Hin H. destruct (in_split _ _ Hin) as (pre & post & Hsteps).
  rewrite Hsteps at 2. rewrite loop_errors_app. apply in_app_iff. right.
  simpl. apply in_app_iff. left. apply H.
Qed.

(** C5 (as amended): [validateYaml] accumulates its errors instead of
    stopping at the first.  On every document it reports the missing id
    when there is no top-level id line, the missing section when the
    text has no [steps:], the at-least-one-step error when no step is
    parsed, and an invalid-kind error for every parsed step whose kind
    is not a known kind, each whatever the other checks find.  An
    invalid kind is reported for parsed steps only, so it never comes
    together with the at-least-one-step error. *)
Theorem validation_accumulates yaml :
  exists steps v,
    parseYamlSteps yaml = Ok steps /\ validateYaml yaml = Ok v
    /\ (regex_match re_has_id yaml = None -> In err_no_id (errors v))
    /\ (includes yaml (str "steps:") = false -> In err_no_steps (errors v))
    /\ (steps = [] -> In err_empty (errors v))
    /\ (forall s, In s steps ->
                  existsb (str_eqb (kind s)) validKinds = false ->
                  In (err_kind (kind s) (id s)) (errors v))
    /\ (In err_empty (errors v) -> forall k i, ~ In (err_kind k i) (errors v))
    /\ (valid v = true <-> errors v = []).
Proof.
  destruct (validateYaml_total yaml) as (steps & Hp & Hv).
  eexists steps, _. split; [exact Hp|]. split; [exact Hv|]. cbn [errors valid].
  repeat split.
  - intros H. rewrite validate_steps_eq. apply in_app_iff. left.
    unfold header_errors. rewrite H. now left.
  - intros H. rewrite validate_steps_eq. apply in_app_iff. left.
    unfold header_errors. rewrite H. apply in_app_iff. right. now left.
  - intros ->. rewrite validate_steps_eq, !in_app_iff. right; left. now left.
  - intros s Hin Hk. rewrite validate_steps_eq, !in_app_iff. right; right.
    apply (In_loop_errors_iter _ s); [exact Hin|]. intros stepIds.
    unfold iter_errors. rewrite !in_app_iff. right; left.
    unfold check_kind. rewrite Hk. now left.
  - intros He k i Hk. apply err_empty_only_when_empty in He.
    now apply err_kind_only_from_loop in Hk.
  - now destruct (validate_steps _ _).
  - now intros ->.
Qed.

(** On a document without id whose only step has an unknown kind, both
    errors are returned. *)
Lemma validation_accumulates_witness :
  exists v, validateYaml doc_no_id_bad_kind = Ok v
    /\ In err_no_id (errors v)
    /\ In (err_kind (str "bogus") (str "s")) (errors v).
Proof.
  destruct (validation_accumulates doc_no_id_bad_kind)
    as (steps & v & Hp & Hv & Hid & _ & _ & Hkind & _).
  exists v. split; [exact Hv|]. split; [apply Hid; vm_compute; reflexivity|].
  vm_compute in Hp. inversion Hp as [Hsteps]. clear Hp.
  match type of Hsteps with [?s] = _ =>
    apply (Hkind s); [rewrite <- Hsteps; left; reflexivity | vm_compute; reflexivity]
  end.
Defined.

(** The document has no id, a chunk with an unknown kind and no parsed
    step, and yet the three errors are not returned together: the chunk
    is dropped by the parser and its kind is never checked. *)
Lemma all_three_errors_counterexample :
  regex_match re_has_id doc_no_id_unparsed_chunk = None
  /\ parseYamlSteps doc_no_id_unparsed_chunk = Ok []
  /\ includes doc_no_id_unparsed_chunk (str "kind: bogus") = true
  /\ validateYaml doc_no_id_unparsed_chunk
     = Ok (mkValidation false [err_no_id; err_empty])
  /\ ~ returns_all_three doc_no_id_unparsed_chunk.
Proof.
  split; [vm_compute; reflexivity|]. split; [vm_compute; reflexivity|].
  split; [vm_compute; reflexivity|].
  assert (Hv : validateYaml doc_no_id_unparsed_chunk
               = Ok (mkValidation false [err_no_id; err_empty]))
    by (vm_compute; reflexivity).
  split; [exact Hv|].
  intros (v & Hv' & _ & _ & k & i & Hk). rewrite Hv in Hv'.
  inversion Hv'; subst v. cbn [errors] in Hk.
  destruct Hk as [Hk|[Hk|[]]]; discriminate.
Qed.

(** C6: for every document and every id, the errors contain one
    [Duplicate step ID] message per repeated occurrence of the id among
    the parsed steps (one less than the number of steps with that id).
    For the document with two steps called [duplicate] there is exactly
    one such entry. *)
Theorem duplicate_error_per_repetition :
  (forall yaml i, exists steps v,
      parseYamlSteps yaml = Ok steps /\ validateYaml yaml = Ok v
      /\ occurrences (err_duplicate i) (errors v)
         = Nat.pred (steps_with_id i steps))
  /\ (exists v, validateYaml doc_two_duplicates = Ok v
        /\ occurrences (str "Duplicate step ID: 'duplicate'") (errors v) = 1%nat
        /\ length (List.filter
                     (fun e => includes e (str "Duplicate step ID: 'duplicate'"))
                     (errors v)) = 1%nat).
Proof.
  split.
  - intros yaml i. destruct (validateYaml_total yaml) as (steps & Hp & Hv).
    eexists steps, _. split; [exact Hp|]. split; [exact Hv|]. cbn [errors].
    apply occurrences_duplicate_validate.
  - eexists. split; [vm_compute; reflexivity|]. split; vm_compute; reflexivity.
Qed.



(** * Properties of the serializer *)

Lemma entryKey_nested s : entryKey (str "      " ++ s) = None.
Proof. reflexivity. Qed.














(** ** Strings: prefixes, substrings, trimming, joining *)

Lemma starts_with_spec p : forall s,
  starts_with p s = true <-> exists b, s = p ++ b.
Proof.
  induction p as [|x p IH]; intros s; simpl.
  - split; [intros _; now exists s | reflexivity].
  - destruct s as [|y s].
    + split; [discriminate | intros [b Hb]; discriminate].
    + rewrite andb_true_iff, N.eqb_eq, IH. split.
      * intros [-> [b ->]]. now exists b.
      * intros [b Hb]. inversion Hb; subst. eauto.
Qed.

Lemma includes_spec p : forall s,
  includes s p = true <-> exists a b, s = a ++ p ++ b.
Proof.
  induction s as [|c s IH].
  - simpl. rewrite orb_false_r, starts_with_spec. split.
    + intros [b Hb]. now exists [], b.
    + intros (a & b & H). destruct a; [now exists b | discriminate].
  - cbn [includes]. rewrite orb_true_iff, starts_with_spec, IH. split.
    + intros [[b Hb]|(a & b & Hb)].
      * now exists [], b.
      * exists (c :: a), b. now rewrite Hb.
    + intros (a & b & H). destruct a as [|x a].
      * left. now exists b.
      * right. inversion H; subst. now exists a, b.
Qed.

Lemma includes_false_app p a b :
  includes (a ++ p ++ b) p = true.
Proof. apply includes_spec. now exists a, b. Qed.

Lemma trimStart_nonspace c s : is_space c = false -> trimStart (c :: s) = c :: s.
Proof. intros H. simpl. now rewrite H. Qed.

Lemma trimStart_app_nonspace u c v :
  is_space c = false -> trimStart (u ++ c :: v) = trimStart u ++ c :: v.
Proof.
  intros Hc. induction u as [|x u IH]; simpl.
  - now rewrite Hc.
  - destruct (is_space x); [exact IH | reflexivity].
Qed.

(** Trimming the end never goes past a character that is not a space. *)
Lemma trimEnd_app_nonspace a c t :
  is_space c = false -> trimEnd (a ++ c :: t) = a ++ c :: trimEnd t.
Proof.
  intros Hc. unfold trimEnd.
  rewrite rev_app_distr. cbn [rev]. rewrite <- app_assoc. cbn [app].
  rewrite trimStart_app_nonspace by exact Hc.
  rewrite rev_app_distr. cbn [rev]. rewrite rev_involutive, <- app_assoc.
  reflexivity.
Qed.

Lemma join_cons sep x l :
  join sep (x :: l) = x ++ flat_map (fun y => sep ++ y) l.
Proof.
  revert x. induction l as [|y l IH]; intros x.
  - cbn [join flat_map]. now rewrite app_nil_r.
  - change (join sep (x :: y :: l)) with (x ++ sep ++ join sep (y :: l)).
    rewrite IH. cbn [flat_map]. now rewrite <- app_assoc.
Qed.

(** The text of a joined array around one of its elements. *)
Lemma join_app_cons sep l1 x l2 :
  join sep (l1 ++ x :: l2)
  = flat_map (fun y => y ++ sep) l1 ++ x ++ flat_map (fun y => sep ++ y) l2.
Proof.
  induction l1 as [|y l1 IH].
  - apply join_cons.
  - assert (H : join sep ((y :: l1) ++ x :: l2)
                = y ++ sep ++ join sep (l1 ++ x :: l2)) by (now destruct l1).
    rewrite H, IH. cbn [flat_map]. now rewrite <- !app_assoc.
Qed.

(** ** The shape of the serialized text *)

Lemma yamlLines_head steps pid pdesc :
  exists l, yamlLines steps pid pdesc
            = (str "id: " ++ or_default pid (str "my-pipeline")) :: l.
Proof. unfold yamlLines, headerLines. cbn [app]. eauto. Qed.

(** The text starts with [id:], so only its end is trimmed. *)
Lemma stepsToYaml_trimEnd steps pid pdesc :
  stepsToYaml steps pid pdesc = trimEnd (join [NL] (yamlLines steps pid pdesc)).
Proof.
  unfold stepsToYaml, trim. f_equal.
  destruct (yamlLines_head steps pid pdesc) as [l ->].
  rewrite join_cons. change (str "id: ") with (105 :: str "d: ").
  cbn [app]. now apply trimStart_nonspace.
Qed.

Lemma headerLines_last pid pdesc :
  exists l, headerLines pid pdesc = l ++ [str "steps"%string ++ [COLON]].
Proof.
  unfold headerLines.
  eexists (_ :: _ ++ [[]]). cbn [app]. rewrite <- app_assoc. reflexivity.
Qed.

(** The header, up to [steps:], is the beginning of the serialized text. *)
Lemma stepsToYaml_header steps pid pdesc :
  exists tail,
    stepsToYaml steps pid pdesc = join [NL] (headerLines pid pdesc) ++ tail.
Proof.
  rewrite stepsToYaml_trimEnd. unfold yamlLines.
  destruct (headerLines_last pid pdesc) as [l ->].
  rewrite <- app_assoc. cbn [app]. rewrite !join_app_cons. cbn [flat_map].
  rewrite app_nil_r, <- !app_assoc. cbn [app].
  rewrite (app_assoc _ (str "steps")), trimEnd_app_nonspace by reflexivity.
  rewrite <- app_assoc. cbn [app]. eexists.
  rewrite <- !app_assoc. cbn [app]. reflexivity.
Qed.


(** * Metadata extraction and merge *)

Lemma matches_LitL l : forall st st',
  matches (LitL l) st st' -> rest st = l ++ rest st'.
Proof.
  induction l as [|c l IH]; intros st st' H.
  - inversion H; subst. reflexivity.
  - destruct l as [|c' l].
    + inversion H; subst. reflexivity.
    + change (LitL (c :: c' :: l)) with (Seq (Chr c) (LitL (c' :: l))) in H.
      inversion H as [| | | | ? ? ? st1 ? H1 H2 | | | | | | | | | ]; subst.
      inversion H1; subst. apply IH in H2. cbn [rest app] in *. now rewrite H2.
Qed.

Lemma cls_ws_space c : cls_has false [CSpace] c = true -> is_space c = true.
Proof. unfold cls_has. simpl. now rewrite orb_false_r. Qed.

Lemma cls_not_nl c : cls_has true [CChr 10] c = true -> c <> NL.
Proof.
  unfold cls_has. simpl. rewrite orb_false_r. intros H ->. discriminate.
Qed.

(** A value extracted by [/^key:\s*([^\n]+)/m] comes from a line of the
    text that starts with the key. *)
Lemma opt_capture_sound (key : string) yaml v :
  opt_capture (Bol · Lit key · Star true ws · Group 1 (Plus true not_nl))%re yaml
  = Some v ->
  top_level_value (str key) yaml v.
Proof.
  unfold opt_capture.
  destruct (regex_match _ yaml) as [mr|] eqn:Hm; [|discriminate].
  apply regex_match_sound in Hm as (st' & Hs & Hm & Hrest & Hcaps).
  inversion Hm as [| | | | ? ? ? st1 ? Hm1 Hgroup | | | | | | | | | ]; subst.
  inversion Hm1 as [| | | | ? ? ? st2 ? Hm2 Hstar | | | | | | | | | ]; subst.
  inversion Hm2 as [| | | | ? ? ? st3 ? Hbol Hlit | | | | | | | | | ]; subst.
  inversion Hbol; subst. apply matches_LitL in Hlit.
  apply matches_star_cls in Hstar as (w & Hw & Hws).
  inversion Hgroup as [| | | | | | | | | ? ? ? st4 Hplus | | | | ]; subst.
  apply matches_plus_cls in Hplus as (c & x & Hx & Hall).
  cbn [caps rest] in *. rewrite <- Hcaps. cbn [assoc Nat.eqb fmap option_fmap option_map].
  rewrite (consumed_app _ _ _ Hx). intros Hv. inversion Hv; subst v. clear Hv.
  exists (m_before mr), w, (c :: x), (m_after mr).
  split; [|split; [|split; [|split; [|split]]]].
  - f_equal. rewrite Hlit, Hw, Hx, Hrest. reflexivity.
  - unfold at_line_start.
    match goal with Hb : at_bol _ = true |- _ =>
      unfold at_bol in Hb; cbn [prev] in Hb;
      destruct (hd_error (rev (m_before mr))); [exact Hb | exact I]
    end.
  - eapply Forall_impl; [exact Hws|]. intros; now apply cls_ws_space.
  - discriminate.
  - intros Hin. rewrite Forall_forall in Hall.
    apply list_elem_of_In, Hall, cls_not_nl in Hin. now apply Hin.
  - reflexivity.
Qed.



(** * The parser is tolerant *)

Lemma matches_leads l r st st' :
  leads_with l r -> matches r st st' -> exists b, rest st = l ++ b.
Proof.
  intros Hl. revert st st'. induction Hl as [|r1 r2 Hl IH]; intros st st' H.
  - apply matches_LitL in H. eauto.
  - inversion H; subst. eapply IH. eassumption.
Qed.

(** A pattern that begins with a literal matches only in a text that
    contains the literal. *)
Lemma no_literal_no_match l r s :
  leads_with l r -> includes s l = false -> regex_match r s = None.
Proof.
  intros Hl Hinc. destruct (regex_match r s) as [mr|] eqn:Hm; [|reflexivity].
  apply regex_match_sound in Hm as (st' & Hs & Hm & _).
  destruct (matches_leads _ _ _ _ Hl Hm) as [b Hb]. cbn [rest] in Hb.
  rewrite Hs, Hb, includes_false_app in Hinc. discriminate.
Qed.

Lemma leads_re_steps : leads_with (str "steps:") re_steps.
Proof. unfold re_steps. do 4 apply LW_seq. apply LW_lit. Qed.







(** C2: the step with the three-line SQL is serialized with a literal
    block after [sql: |], one SQL line per indented line; parsing that
    text gives back only the first line, [SELECT *]. *)
Theorem multiline_sql_keeps_first_line_only :
  stepsToYaml [step_query sql_three_lines] None None
  = text ["id: my-pipeline"; ""; "steps:"; "  - id: query"; "    kind: sql";
          "    sql: |"; "      SELECT *"; "      FROM t"; "      WHERE x = 1"]%string
  /\ parseYamlSteps (stepsToYaml [step_query sql_three_lines] None None)
     = Ok [step_query (str "SELECT *")]
  /\ str "SELECT *" <> sql_three_lines.
Proof.
  split; [vm_compute; reflexivity|]. split; [vm_compute; reflexivity|].
  vm_compute. discriminate.
Qed.

(** * Following the matcher on a known text *)

Lemma lastp_app p w1 w2 : lastp p (w1 ++ w2) = lastp (lastp p w1) w2.
Proof. revert p. induction w1 as [|c w1 IH]; intros p; simpl; auto. Qed.

Lemma m_Seq r1 r2 k st : m (Seq r1 r2) k st = m r1 (m r2 k) st.
Proof. reflexivity. Qed.

Lemma m_Plus g r k st : m (Plus g r) k st = m r (m (Star g r) k) st.
Proof. reflexivity. Qed.

Lemma m_Group i r k st :
  m (Group i r) k st
  = m r (fun st' => k (MState (prev st') (rest st')
                              ((i, consumed st st') :: caps st'))) st.
Proof. reflexivity. Qed.

Lemma m_Chr c k p s cs :
  m (Chr c) k (MState p (c :: s) cs) = k (MState (Some c) s cs).
Proof. simpl. unfold step_if. simpl. now rewrite N.eqb_refl. Qed.

Lemma m_Cls_in neg items c k p s cs :
  cls_has neg items c = true ->
  m (Cls neg items) k (MState p (c :: s) cs) = k (MState (Some c) s cs).
Proof. intros H. simpl. unfold step_if. simpl. now rewrite H. Qed.

Lemma m_Cls_stop neg items k p s cs :
  stops (cls_has neg items) s -> m (Cls neg items) k (MState p s cs) = None.
Proof.
  intros H. simpl. unfold step_if. simpl. destruct s as [|c s]; [reflexivity|].
  simpl in H. now rewrite H.
Qed.

Lemma m_LitL L : forall k p s cs,
  m (LitL L) k (MState p (L ++ s) cs) = k (MState (lastp p L) s cs).
Proof.
  induction L as [|c L IH]; intros k p s cs.
  - reflexivity.
  - destruct L as [|c' L].
    + apply m_Chr.
    + change (m (LitL (c :: c' :: L)) k (MState p ((c :: c' :: L) ++ s) cs))
        with (m (Chr c) (m (LitL (c' :: L)) k) (MState p (c :: (c' :: L) ++ s) cs)).
      rewrite m_Chr, IH. reflexivity.
Qed.

Lemma m_LitL_none L k st :
  starts_with L (rest st) = false -> m (LitL L) k st = None.
Proof.
  intros H. destruct (m (LitL L) k st) as [res|] eqn:Hm; [|reflexivity].
  apply m_sound in Hm as (st' & Hm & _). apply matches_LitL in Hm.
  assert (starts_with L (rest st) = true) by (apply starts_with_spec; eauto).
  congruence.
Qed.

(** A greedy quantifier over single characters accepted by [q], on a run
    [w] of such characters that ends where [s] begins. *)
Lemma star_step_greedy q k w : forall n p s cs,
  (length w <= n)%nat ->
  Forall (fun c => q c = true) w ->
  stops q s ->
  star_loop (step_if q) true k n (MState p (w ++ s) cs)
  = greedy_run k w p s cs.
Proof.
  induction w as [|c w IH]; intros n p s cs Hn Hw Hs.
  - destruct n as [|n]; [reflexivity|].
    cbn [star_loop app greedy_run]. unfold step_if at 1. cbn [rest].
    destruct s as [|x s]; [reflexivity|]. simpl in Hs. now rewrite Hs.
  - destruct n as [|n]; [simpl in Hn; lia|].
    inversion Hw as [|? ? Hc Hw']; subst.
    cbn [star_loop app greedy_run]. unfold step_if at 1. cbn [rest caps].
    rewrite Hc, (proj2 (Nat.ltb_lt _ _)) by (simpl; lia).
    rewrite IH; auto. simpl in Hn. lia.
Qed.

Lemma star_cls_greedy neg items k w : forall n p s cs,
  (length w <= n)%nat ->
  Forall (fun c => cls_has neg items c = true) w ->
  stops (cls_has neg items) s ->
  star_loop (m (Cls neg items)) true k n (MState p (w ++ s) cs)
  = greedy_run k w p s cs.
Proof. exact (star_step_greedy (cls_has neg items) k w). Qed.

Lemma m_star_dot_max k w p s cs res :
  Forall (fun c => not_terminator c = true) w ->
  stops not_terminator s ->
  k (MState (lastp p w) s cs) = Some res ->
  m (Star true Dot) k (MState p (w ++ s) cs) = Some res.
Proof.
  intros Hw Hs Hk. cbn [m rest].
  change (m Dot) with (step_if not_terminator).
  rewrite star_step_greedy; auto; [|rewrite length_app; lia].
  revert p Hk. clear Hw. induction w as [|c w IH]; intros p Hk; simpl in *.
  - exact Hk.
  - now rewrite (IH _ Hk).
Qed.

Lemma m_plus_dot_max k c w p s cs res :
  Forall (fun c => not_terminator c = true) (c :: w) ->
  stops not_terminator s ->
  k (MState (lastp p (c :: w)) s cs) = Some res ->
  m (Plus true Dot) k (MState p ((c :: w) ++ s) cs) = Some res.
Proof.
  intros Hw Hs Hk. inversion Hw as [|? ? Hc Hw']; subst.
  rewrite m_Plus. cbn [app].
  change (m Dot (m (Star true Dot) k) (MState p (c :: w ++ s) cs))
    with (step_if not_terminator (m (Star true Dot) k) (MState p (c :: w ++ s) cs)).
  unfold step_if at 1. cbn [rest caps]. rewrite Hc.
  now apply m_star_dot_max.
Qed.

Lemma m_star_cls_greedy neg items k w p s cs :
  Forall (fun c => cls_has neg items c = true) w ->
  stops (cls_has neg items) s ->
  m (Star true (Cls neg items)) k (MState p (w ++ s) cs) = greedy_run k w p s cs.
Proof.
  intros Hw Hs. cbn [m rest]. apply star_cls_greedy; auto.
  rewrite length_app. lia.
Qed.

(** If the continuation succeeds after the whole run, that is the result. *)
Lemma greedy_run_max k w : forall p s cs res,
  k (MState (lastp p w) s cs) = Some res -> greedy_run k w p s cs = Some res.
Proof.
  induction w as [|c w IH]; intros p s cs res H; simpl in *.
  - exact H.
  - now rewrite (IH _ _ _ _ H).
Qed.

(** If the continuation fails after every non-empty prefix of the run,
    the run is given up entirely. *)
Lemma greedy_run_back k w : forall p s cs,
  (forall w1 c w2, w = w1 ++ c :: w2 -> k (MState (Some c) (w2 ++ s) cs) = None) ->
  greedy_run k w p s cs = k (MState p (w ++ s) cs).
Proof.
  induction w as [|c w IH]; intros p s cs H; simpl.
  - reflexivity.
  - rewrite IH.
    + now rewrite (H [] c w eq_refl).
    + intros w1 c' w2 Hw. apply (H (c :: w1) c' w2). now rewrite Hw.
Qed.

Lemma m_plus_cls_max neg items k c w p s cs res :
  Forall (fun c => cls_has neg items c = true) (c :: w) ->
  stops (cls_has neg items) s ->
  k (MState (lastp p (c :: w)) s cs) = Some res ->
  m (Plus true (Cls neg items)) k (MState p ((c :: w) ++ s) cs) = Some res.
Proof.
  intros Hw Hs Hk. inversion Hw as [|? ? Hc Hw']; subst.
  rewrite m_Plus. cbn [app]. rewrite m_Cls_in by exact Hc.
  rewrite m_star_cls_greedy by assumption. now apply greedy_run_max.
Qed.

Lemma m_star_cls_max neg items k w p s cs res :
  Forall (fun c => cls_has neg items c = true) w ->
  stops (cls_has neg items) s ->
  k (MState (lastp p w) s cs) = Some res ->
  m (Star true (Cls neg items)) k (MState p (w ++ s) cs) = Some res.
Proof.
  intros Hw Hs Hk. rewrite m_star_cls_greedy by assumption.
  now apply greedy_run_max.
Qed.

(** A lazy [[\s\S]*?] whose continuation fails as long as input is left
    runs to the end of the input. *)
Lemma star_any_lazy k w : forall n p cs,
  (length w <= n)%nat ->
  (forall w1 c w2, w = w1 ++ c :: w2 ->
                   k (MState (lastp p w1) (c :: w2) cs) = None) ->
  star_loop (m any) false k n (MState p w cs) = k (MState (lastp p w) [] cs).
Proof.
  induction w as [|c w IH]; intros n p cs Hn H.
  - destruct n as [|n]; [reflexivity|]. cbn [star_loop lastp].
    destruct (k (MState p [] cs)); reflexivity.
  - destruct n as [|n]; [simpl in Hn; lia|].
    pose proof (H [] c w eq_refl) as H0. cbn [lastp] in H0.
    cbn [star_loop lastp]. rewrite H0.
    unfold any. rewrite m_Cls_in.
    + cbn [rest]. rewrite (proj2 (Nat.ltb_lt _ _)) by (simpl; lia).
      apply IH; [simpl in Hn; lia|].
      intros w1 c' w2 Hw. apply (H (c :: w1) c' w2). now rewrite Hw.
    + unfold cls_has. simpl. now destruct (is_space c).
Qed.

(** ** Where a literal can occur *)

Lemma includes_nil L : L <> [] -> includes [] L = false.
Proof. destruct L; [contradiction | reflexivity]. Qed.

(** A literal without the character [c] lies on one side of [c]. *)
Lemma includes_sep c L A B :
  ~ In c L -> L <> [] ->
  includes (A ++ c :: B) L = includes A L || includes B L.
Proof.
  intros Hc HL. apply eq_true_iff_eq.
  rewrite orb_true_iff, !includes_spec. split.
  - intros (X & Y & H). apply app_eq_app in H as [l [[HA HB]|[HX HB]]].
    + left. exists X. apply app_eq_app in HB as [l2 [[H1 H2]|[H1 H2]]].
      * destruct l2 as [|d l2].
        -- rewrite app_nil_r in H1. exists []. now rewrite app_nil_r, HA, H1.
        -- inversion H2; subst. exfalso. apply Hc. apply in_or_app. right. now left.
      * exists l2. now rewrite HA, H1.
    + destruct l as [|d l].
      * simpl in HB. destruct L as [|d L]; [contradiction|].
        inversion HB; subst. exfalso. apply Hc. now left.
      * inversion HB; subst. right. now exists l, Y.
  - intros [(X & Y & ->)|(X & Y & ->)].
    + exists X, (Y ++ c :: B). now rewrite <- !app_assoc.
    + exists (A ++ c :: X), Y. now rewrite <- !app_assoc.
Qed.

Lemma includes_cons_sep c L B :
  ~ In c L -> L <> [] -> includes (c :: B) L = includes B L.
Proof.
  intros Hc HL. change (c :: B) with ([] ++ c :: B).
  now rewrite includes_sep, includes_nil by assumption.
Qed.

Lemma includes_app_false A B L :
  includes (A ++ B) L = false -> includes A L = false /\ includes B L = false.
Proof.
  intros H. split.
  - destruct (includes A L) eqn:E; [|reflexivity].
    apply includes_spec in E as (X & Y & ->).
    rewrite <- !app_assoc, includes_false_app in H. discriminate.
  - destruct (includes B L) eqn:E; [|reflexivity].
    apply includes_spec in E as (X & Y & ->).
    rewrite app_assoc, includes_false_app in H. discriminate.
Qed.

Lemma includes_lines_text_cons L ln lines :
  ~ In NL L -> L <> [] ->
  includes (lines_text (ln :: lines)) L
  = includes ln L || includes (lines_text lines) L.
Proof.
  intros Hc HL.
  change (lines_text (ln :: lines)) with (NL :: ln ++ lines_text lines).
  rewrite includes_cons_sep by assumption.
  destruct lines as [|ln' lines].
  - cbn [lines_text flat_map]. now rewrite app_nil_r, includes_nil, orb_false_r.
  - change (lines_text (ln' :: lines)) with (NL :: ln' ++ lines_text lines).
    now rewrite includes_sep, (includes_cons_sep NL) by assumption.
Qed.

Lemma includes_lines_text L lines :
  ~ In NL L -> L <> [] ->
  Forall (fun ln => includes ln L = false) lines ->
  includes (lines_text lines) L = false.
Proof.
  intros Hc HL H. induction H as [|ln lines Hln _ IH]; [now apply includes_nil|].
  now rewrite includes_lines_text_cons, Hln, IH by assumption.
Qed.

(** Lines after a text that does not end a line: the literal is in the
    text or in one of the lines. *)
Lemma includes_text_lines L P lines :
  ~ In NL L -> L <> [] ->
  includes (P ++ lines_text lines) L = includes P L || includes (lines_text lines) L.
Proof.
  intros Hc HL. destruct lines as [|ln lines].
  - cbn [lines_text flat_map]. now rewrite app_nil_r, includes_nil, orb_false_r.
  - change (lines_text (ln :: lines)) with (NL :: ln ++ lines_text lines).
    now rewrite includes_sep, (includes_cons_sep NL) by assumption.
Qed.

Lemma starts_with_sep L : forall Z c B,
  ~ In c L -> starts_with L (Z ++ c :: B) = true -> starts_with L Z = true.
Proof.
  induction L as [|x L IH]; intros Z c B Hc H; [reflexivity|].
  destruct Z as [|z Z]; simpl in *.
  - apply andb_true_iff in H as [H _]. apply N.eqb_eq in H. subst.
    exfalso. apply Hc. now left.
  - apply andb_true_iff in H as [H1 H2]. rewrite H1. simpl.
    apply (IH Z c B); [|exact H2]. intros Hin. apply Hc. now right.
Qed.

(** ** The leftmost match *)

Lemma match_here_leads r L p s st :
  leads_with L r -> match_here r p s = Some st -> starts_with L s = true.
Proof.
  intros Hl H. unfold match_here in H. apply m_sound in H as (st' & Hm & _).
  destruct (matches_leads _ _ _ _ Hl Hm) as [b Hb]. cbn [rest] in Hb.
  apply starts_with_spec. eauto.
Qed.

(** The search passes over a stretch [A] at no position of which the
    leading literal of the pattern begins. *)
Lemma exec_from_skip r L B : leads_with L r -> forall A p before,
  (forall A1 c A2, A = A1 ++ c :: A2 -> starts_with L (c :: A2 ++ B) = false) ->
  exec_from r p before (A ++ B) = exec_from r (lastp p A) (rev A ++ before) B.
Proof.
  intros Hl. induction A as [|c A IH]; intros p before H.
  - reflexivity.
  - cbn [app exec_from].
    destruct (match_here r p (c :: A ++ B)) as [st|] eqn:Hm.
    + apply (match_here_leads _ _ _ _ _ Hl) in Hm.
      now rewrite (H [] c A eq_refl) in Hm.
    + rewrite IH.
      * cbn [lastp rev]. now rewrite <- app_assoc.
      * intros A1 c' A2 HA. apply (H (c :: A1) c' A2). now rewrite HA.
Qed.

Lemma no_start_before L A0 c B :
  ~ In c L -> includes A0 L = false ->
  forall A1 c' A2, A0 ++ [c] = A1 ++ c' :: A2 ->
                   starts_with L (c' :: A2 ++ B) = false.
Proof.
  intros Hc Hinc A1 c' A2 HA.
  destruct (starts_with L (c' :: A2 ++ B)) eqn:E; [|reflexivity]. exfalso.
  destruct (exists_last (l := c' :: A2)) as (Z & z & HZ); [discriminate|].
  rewrite HZ, app_assoc in HA. apply app_inj_tail in HA as [HA0 Hz]. subst z.
  change (c' :: A2 ++ B) with ((c' :: A2) ++ B) in E.
  rewrite HZ, <- app_assoc in E. cbn [app] in E.
  apply starts_with_sep in E; [|exact Hc].
  apply starts_with_spec in E as [b Hb].
  rewrite HA0, Hb, includes_false_app in Hinc. discriminate.
Qed.

(** The first match of a pattern that begins with the literal [L], in a
    text where [L] does not occur before the position after [A0 c]. *)
Lemma regex_match_at r L A0 c B st' :
  leads_with L r -> ~ In c L -> includes A0 L = false ->
  match_here r (Some c) B = Some st' ->
  exists mr, regex_match r (A0 ++ c :: B) = Some mr /\ m_caps mr = caps st'
             /\ m_after mr = rest st'.
Proof.
  intros Hl Hc Hinc Hm. unfold regex_match.
  change (A0 ++ c :: B) with (A0 ++ [c] ++ B). rewrite app_assoc.
  rewrite (exec_from_skip r L B Hl) by (now apply no_start_before).
  rewrite lastp_app. cbn [lastp].
  destruct B as [|b B]; cbn [exec_from]; rewrite Hm; eexists; repeat split.
Qed.

Lemma regex_match_start r B st' :
  match_here r None B = Some st' ->
  exists mr, regex_match r B = Some mr /\ m_caps mr = caps st'
             /\ m_after mr = rest st'.
Proof.
  intros Hm. unfold regex_match.
  destruct B as [|b B]; cbn [exec_from]; rewrite Hm; eexists; repeat split.
Qed.

(** ** Scalar attributes in the text of a step *)

Lemma leads_re_attr key cls : leads_with (str key) (re_attr key cls).
Proof. unfold re_attr. do 2 apply LW_seq. apply LW_lit. Qed.

Lemma lines_text_app l1 l2 : lines_text (l1 ++ l2) = lines_text l1 ++ lines_text l2.
Proof. unfold lines_text. apply flat_map_app. Qed.

Lemma stops_lines_text neg items lines :
  cls_has neg items NL = false -> stops (cls_has neg items) (lines_text lines).
Proof. intros H. destruct lines as [|ln lines]; [exact I | exact H]. Qed.

Lemma includes_blanks L n :
  ~ In SP L -> L <> [] -> includes (repeat SP n) L = false.
Proof.
  intros Hc HL. induction n as [|n IH]; cbn [repeat].
  - now apply includes_nil.
  - now rewrite includes_cons_sep.
Qed.

(** The text of a step up to the key of one of its lines. *)
Lemma block_split P before L v after :
  P ++ lines_text (before ++ (str "    " ++ L ++ SP :: v) :: after)
  = (P ++ lines_text (before ++ [repeat SP 3])) ++ SP :: (L ++ SP :: v ++ lines_text after).
Proof.
  rewrite !lines_text_app. cbn [lines_text flat_map repeat]. rewrite app_nil_r.
  change (str "    ") with [SP; SP; SP; SP].
  rewrite <- !app_assoc. cbn [app]. rewrite <- !app_assoc. reflexivity.
Qed.

Lemma includes_before P before L :
  ~ In NL L -> ~ In SP L -> L <> [] ->
  includes P L = false ->
  Forall (fun ln => includes ln L = false) before ->
  includes (P ++ lines_text (before ++ [repeat SP 3])) L = false.
Proof.
  intros HNL HSP HL HP Hb.
  rewrite includes_text_lines, HP by assumption. cbn [orb].
  apply includes_lines_text; try assumption.
  apply Forall_app. split; [exact Hb|].
  constructor; [|constructor]. now apply includes_blanks.
Qed.

(** What the pattern of a scalar attribute finds at its key. *)
Lemma match_here_attr key neg items p c w T :
  is_space c = false ->
  Forall (fun x => cls_has neg items x = true) (c :: w) ->
  stops (cls_has neg items) T ->
  exists st', match_here (re_attr key (Cls neg items)) p
                         (str key ++ SP :: (c :: w) ++ T) = Some st'
              /\ caps st' = [(1%nat, c :: w)] /\ rest st' = T.
Proof.
  intros Hc Hv HT. unfold match_here, re_attr, Lit.
  rewrite !m_Seq, m_LitL.
  change (SP :: (c :: w) ++ T) with ([SP] ++ (c :: w) ++ T).
  exists (MState (lastp (Some SP) (c :: w)) T [(1%nat, c :: w)]).
  split; [|split; reflexivity].
  apply m_star_cls_max.
  - constructor; [reflexivity | constructor].
  - cbn [stops app]. unfold cls_has. simpl. now rewrite Hc.
  - rewrite m_Group. apply m_plus_cls_max; [exact Hv | exact HT |].
    cbn [prev rest caps lastp]. do 3 f_equal. unfold consumed. cbn [rest].
    rewrite length_app.
    replace (length (c :: w) + length T - length T)%nat with (length (c :: w)) by lia.
    now rewrite firstn_app, Nat.sub_diag, firstn_all, app_nil_r.
Qed.

Lemma field_present key neg items post P before c w after :
  let L := str key in
  ~ In NL L -> ~ In SP L -> L <> [] ->
  includes P L = false ->
  Forall (fun ln => includes ln L = false) before ->
  is_space c = false ->
  Forall (fun x => cls_has neg items x = true) (c :: w) ->
  cls_has neg items NL = false ->
  field (re_attr key (Cls neg items)) post
        (P ++ lines_text (before ++ (str "    " ++ L ++ SP :: c :: w) :: after))
  = Ok (Some (post (c :: w))).
Proof.
  intros L HNL HSP HL HP Hb Hc Hv Hstop. subst L. rewrite block_split.
  destruct (match_here_attr key neg items (Some SP) c w (lines_text after) Hc Hv)
    as (st' & Hm & Hcaps & _); [now apply stops_lines_text|].
  destruct (regex_match_at _ (str key) _ SP _ st' (leads_re_attr key _) HSP
              (includes_before _ _ _ HNL HSP HL HP Hb) Hm) as (mr & Hr & Hc' & _).
  unfold field. rewrite Hr. unfold grp. rewrite Hc', Hcaps. reflexivity.
Qed.

Lemma field_absent key cls post block :
  includes block (str key) = false -> field (re_attr key cls) post block = Ok None.
Proof.
  intros H. unfold field.
  now rewrite (no_literal_no_match _ _ _ (leads_re_attr key cls) H).
Qed.

Lemma m_Alt r1 r2 k st :
  m (Alt r1 r2) k st
  = match m r1 k st with Some x => Some x | None => m r2 k st end.
Proof. reflexivity. Qed.

Lemma leads_re_bool key : leads_with (str key) (re_bool key).
Proof. unfold re_bool. do 2 apply LW_seq. apply LW_lit. Qed.

Lemma consumed_prefix p w T cs p' cs' :
  consumed (MState p (w ++ T) cs) (MState p' T cs') = w.
Proof. now apply consumed_app. Qed.

Lemma match_here_bool key p b T :
  exists st', match_here (re_bool key) p (str key ++ SP :: bool_str b ++ T) = Some st'
              /\ caps st' = [(1%nat, bool_str b)] /\ rest st' = T.
Proof.
  unfold match_here, re_bool, Lit. rewrite !m_Seq, m_LitL.
  change (SP :: bool_str b ++ T) with ([SP] ++ bool_str b ++ T).
  exists (MState (lastp (Some SP) (bool_str b)) T [(1%nat, bool_str b)]).
  split; [|split; reflexivity].
  apply m_star_cls_max.
  - constructor; [reflexivity | constructor].
  - destruct b; reflexivity.
  - rewrite m_Group, m_Alt. destruct b.
    + unfold bool_str. rewrite m_LitL. cbn [prev rest caps].
      now rewrite consumed_prefix.
    + rewrite m_LitL_none by reflexivity.
      unfold bool_str. rewrite m_LitL. cbn [prev rest caps].
      now rewrite consumed_prefix.
Qed.

Lemma bool_field_present key P before b after :
  let L := str key in
  ~ In NL L -> ~ In SP L -> L <> [] ->
  includes P L = false ->
  Forall (free L) before ->
  bool_field (re_bool key)
             (P ++ lines_text (before ++ (str "    " ++ L ++ SP :: bool_str b) :: after))
  = Ok (Some b).
Proof.
  intros L HNL HSP HL HP Hb. subst L. rewrite block_split.
  destruct (match_here_bool key (Some SP) b (lines_text after)) as (st' & Hm & Hcaps & _).
  destruct (regex_match_at _ (str key) _ SP _ st' (leads_re_bool key) HSP
              (includes_before _ _ _ HNL HSP HL HP Hb) Hm) as (mr & Hr & Hc' & _).
  unfold bool_field. rewrite Hr. unfold grp. rewrite Hc', Hcaps.
  now destruct b.
Qed.

Lemma bool_field_absent key block :
  includes block (str key) = false -> bool_field (re_bool key) block = Ok None.
Proof.
  intros H. unfold bool_field.
  now rewrite (no_literal_no_match _ _ _ (leads_re_bool key) H).
Qed.

(** ** No match at all *)

Lemma starts_with_includes L s : starts_with L s = true -> includes s L = true.
Proof. intros H. destruct s; simpl; now rewrite H. Qed.

Lemma exec_from_none r L : leads_with L r -> forall s p before,
  includes s L = false -> exec_from r p before s = None.
Proof.
  intros Hl. induction s as [|c s IH]; intros p before H; cbn [exec_from].
  - destruct (match_here r p []) as [st|] eqn:Hm; [|reflexivity].
    apply (match_here_leads _ _ _ _ _ Hl), starts_with_includes in Hm. congruence.
  - destruct (match_here r p (c :: s)) as [st|] eqn:Hm.
    + apply (match_here_leads _ _ _ _ _ Hl), starts_with_includes in Hm. congruence.
    + apply IH. cbn [includes] in H. now apply orb_false_iff in H as [_ H].
Qed.

(** The literal occurs once, and the pattern does not match there. *)
Lemma regex_match_none_at r L A0 c B :
  leads_with L r -> ~ In c L -> includes A0 L = false ->
  match_here r (Some c) B = None ->
  includes (tl B) L = false ->
  regex_match r (A0 ++ c :: B) = None.
Proof.
  intros Hl Hc Hinc Hm HB. unfold regex_match.
  change (A0 ++ c :: B) with (A0 ++ [c] ++ B). rewrite app_assoc.
  rewrite (exec_from_skip r L B Hl) by (now apply no_start_before).
  rewrite lastp_app. cbn [lastp].
  destruct B as [|b B]; cbn [exec_from]; rewrite Hm; [reflexivity|].
  now apply (exec_from_none r L Hl).
Qed.

Lemma trim_trimmed v : trimmed v = true -> trim v = v.
Proof.
  unfold trimmed. destruct v as [|c v]; [discriminate|].
  intros H. apply andb_true_iff in H as [H1 H2].
  apply negb_true_iff in H1, H2. unfold trim.
  rewrite trimStart_nonspace by exact H1.
  rewrite (app_removelast_last (l := c :: v) 0) at 1 by discriminate.
  rewrite trimEnd_app_nonspace by exact H2.
  change (trimEnd []) with (@nil N).
  symmetry. now apply app_removelast_last.
Qed.

(** ** The [sql] attribute *)

Lemma ws_run_bound run c x t t' :
  Forall (fun y => cls_has false [CSpace] y = true) run ->
  is_space c = false ->
  SP :: c :: t = run ++ x :: t' ->
  (run = [] /\ x = SP) \/ (run = [SP] /\ x = c).
Proof.
  intros Hrun Hc H. destruct run as [|y run]; simpl in H.
  - inversion H. auto.
  - inversion H as [[Hy H']]. subst y. destruct run as [|z run]; simpl in H'.
    + inversion H'. auto.
    + inversion H'; subst. inversion Hrun as [|? ? _ Hrun']; subst.
      inversion Hrun' as [|? ? Hz _]; subst. apply cls_ws_space in Hz. congruence.
Qed.

Lemma match_here_sql_pipe_none p c w T :
  is_space c = false -> c <> 124 ->
  match_here re_sql_pipe p (str "sql:" ++ SP :: c :: w ++ T) = None.
Proof.
  intros Hc Hne. destruct (match_here _ _ _) as [st'|] eqn:Hm; [|reflexivity].
  exfalso. unfold match_here in Hm. apply m_sound in Hm as (st1 & Hm & _).
  unfold re_sql_pipe in Hm.
  inversion Hm as [| | | | ? ? ? s6 ? Hm6 _ | | | | | | | | | ]; subst.
  inversion Hm6 as [| | | | ? ? ? s5 ? Hm5 _ | | | | | | | | | ]; subst.
  inversion Hm5 as [| | | | ? ? ? s4 ? Hm4 _ | | | | | | | | | ]; subst.
  inversion Hm4 as [| | | | ? ? ? s3 ? Hm3 _ | | | | | | | | | ]; subst.
  inversion Hm3 as [| | | | ? ? ? s2 ? Hm2 Hbar | | | | | | | | | ]; subst.
  inversion Hm2 as [| | | | ? ? ? s1 ? Hlit Hstar | | | | | | | | | ]; subst.
  apply matches_LitL in Hlit. cbn [rest] in Hlit. apply app_inv_head in Hlit.
  apply matches_star_cls in Hstar as (run & Hrun & Hws).
  inversion Hbar; subst. cbn [rest] in Hrun. rewrite <- Hlit in Hrun.
  destruct (ws_run_bound _ _ _ _ _ Hws Hc Hrun) as [[_ H]|[_ H]];
    [discriminate | congruence].
Qed.

Lemma leads_re_sql_pipe : leads_with (str "sql:") re_sql_pipe.
Proof. unfold re_sql_pipe. do 6 apply LW_seq. apply LW_lit. Qed.

Lemma parse_sql_present P before c w after :
  let L := str "sql:" in
  includes P L = false ->
  Forall (free L) before -> Forall (free L) after ->
  plain_sql (c :: w) = true ->
  parse_sql (P ++ lines_text (before ++ (str "    " ++ L ++ SP :: c :: w) :: after))
  = Ok (Some (c :: w)).
Proof.
  intros L HP Hb Ha Hv. subst L.
  assert (HNL : ~ In NL (str "sql:")) by (vm_compute; intuition discriminate).
  assert (HSP : ~ In SP (str "sql:")) by (vm_compute; intuition discriminate).
  assert (HL : str "sql:" <> []) by discriminate.
  unfold plain_sql, plain_text in Hv.
  apply andb_true_iff in Hv as [Hv Hbar].
  apply andb_true_iff in Hv as [Hv Hclean].
  apply andb_true_iff in Hv as [Htrim Hnl].
  assert (Hc : is_space c = false).
  { unfold trimmed in Htrim. apply andb_true_iff in Htrim as [H _].
    now apply negb_true_iff in H. }
  assert (Hne : c <> 124).
  { intros ->. discriminate. }
  assert (Hfree : includes (c :: w) (str "sql:") = false).
  { unfold clean in Hclean. rewrite forallb_forall in Hclean.
    apply negb_true_iff, Hclean. unfold attr_literals. simpl. tauto. }
  unfold parse_sql.
  assert (Hnone : regex_match re_sql_pipe
            (P ++ lines_text (before ++ (str "    " ++ str "sql:" ++ SP :: c :: w) :: after))
          = None).
  { rewrite block_split.
    apply (regex_match_none_at _ (str "sql:")); auto using leads_re_sql_pipe.
    - now apply includes_before.
    - change ((c :: w) ++ lines_text after) with (c :: w ++ lines_text after).
      now apply match_here_sql_pipe_none.
    - change (tl (str "sql:" ++ SP :: (c :: w) ++ lines_text after))
        with (str "ql:" ++ SP :: (c :: w) ++ lines_text after).
      rewrite includes_sep, includes_text_lines, Hfree by assumption.
      rewrite includes_lines_text by assumption. reflexivity. }
  rewrite Hnone.
  change re_sql with (re_attr "sql:" (Cls true [CChr 10])).
  rewrite field_present; auto.
  - now rewrite trim_trimmed.
  - rewrite Forall_forall. rewrite forallb_forall in Hnl. intros x Hx.
    apply list_elem_of_In, Hnl in Hx. unfold cls_has. simpl.
    rewrite orb_false_r. exact Hx.
Qed.

Lemma parse_sql_absent block :
  includes block (str "sql:") = false -> parse_sql block = Ok None.
Proof.
  intros H. unfold parse_sql.
  rewrite (no_literal_no_match _ _ _ leads_re_sql_pipe H).
  change re_sql with (re_attr "sql:" (Cls true [CChr 10])).
  now apply field_absent.
Qed.

(** ** Composing matches without tracking the previous character *)

Lemma ends_Some s cs : ends_at Some s cs s cs.
Proof. intros p. eexists. repeat split. Qed.

Lemma ends_LitL L k s cs R C :
  ends_at k s cs R C -> ends_at (m (LitL L) k) (L ++ s) cs R C.
Proof. intros H p. unfold ends. rewrite m_LitL. apply H. Qed.

Lemma ends_Chr c k s cs R C :
  ends_at k s cs R C -> ends_at (m (Chr c) k) (c :: s) cs R C.
Proof. intros H p. unfold ends. rewrite m_Chr. apply H. Qed.

Lemma ends_Seq r1 r2 k s cs R C :
  ends_at (m r1 (m r2 k)) s cs R C -> ends_at (m (Seq r1 r2) k) s cs R C.
Proof. exact (fun H => H). Qed.

Lemma ends_star_cls neg items k w s cs R C :
  Forall (fun c => cls_has neg items c = true) w ->
  stops (cls_has neg items) s ->
  ends_at k s cs R C ->
  ends_at (m (Star true (Cls neg items)) k) (w ++ s) cs R C.
Proof.
  intros Hw Hs H p. destruct (H (lastp p w)) as (res & Hk & HR & HC).
  exists res. split; [|split; assumption]. now apply m_star_cls_max.
Qed.

Lemma ends_plus_cls neg items k c w s cs R C :
  Forall (fun c => cls_has neg items c = true) (c :: w) ->
  stops (cls_has neg items) s ->
  ends_at k s cs R C ->
  ends_at (m (Plus true (Cls neg items)) k) ((c :: w) ++ s) cs R C.
Proof.
  intros Hw Hs H p. destruct (H (lastp p (c :: w))) as (res & Hk & HR & HC).
  exists res. split; [|split; assumption]. now apply m_plus_cls_max.
Qed.

Lemma ends_plus_dot k c w s cs R C :
  Forall (fun c => not_terminator c = true) (c :: w) ->
  stops not_terminator s ->
  ends_at k s cs R C ->
  ends_at (m (Plus true Dot) k) ((c :: w) ++ s) cs R C.
Proof.
  intros Hw Hs H p. destruct (H (lastp p (c :: w))) as (res & Hk & HR & HC).
  exists res. split; [|split; assumption]. now apply m_plus_dot_max.
Qed.

(** A greedy run that has to be given back entirely. *)
Lemma ends_star_cls_back neg items k w s cs R C :
  Forall (fun c => cls_has neg items c = true) w ->
  stops (cls_has neg items) s ->
  (forall w1 c w2, w = w1 ++ c :: w2 -> fails_at k (w2 ++ s) cs) ->
  ends_at k (w ++ s) cs R C ->
  ends_at (m (Star true (Cls neg items)) k) (w ++ s) cs R C.
Proof.
  intros Hw Hs Hfail H p. unfold ends.
  rewrite m_star_cls_greedy by assumption.
  rewrite greedy_run_back; [apply H|].
  intros w1 c w2 Hw'. now apply (Hfail w1 c w2).
Qed.

Lemma ends_Group i r k s cs R C :
  ends_at (m r (fun st' => k (MState (prev st') (rest st')
                                     ((i, firstn (length s - length (rest st')) s)
                                        :: caps st')))) s cs R C ->
  ends_at (m (Group i r) k) s cs R C.
Proof. intros H p. apply H. Qed.

Lemma ends_Opt_nl k s cs R C :
  ends_at k s cs R C -> ends_at (m (Opt (Chr 10)) k) (NL :: s) cs R C.
Proof.
  intros H p. destruct (H (Some NL)) as (res & Hk & HR & HC).
  exists res. split; [|split; assumption].
  unfold Opt. rewrite m_Alt.
  replace (m (Chr 10) k (MState p (NL :: s) cs)) with (k (MState (Some NL) s cs))
    by (symmetry; apply (m_Chr NL)).
  now rewrite Hk.
Qed.

Lemma ends_Opt_end k cs R C :
  ends_at k [] cs R C -> ends_at (m (Opt (Chr 10)) k) [] cs R C.
Proof. intros H p. apply H. Qed.

Lemma fails_Chr c k s cs :
  stops (N.eqb c) s -> fails_at (m (Chr c) k) s cs.
Proof.
  intros H p. simpl. unfold step_if. simpl. destruct s as [|x s]; [reflexivity|].
  simpl in H. now rewrite H.
Qed.

(** ** A repeated item over several lines *)

Section Items.
Variable it : regex.
Variable good : jsstring -> Prop.

Hypothesis good_nonempty : forall l, good l -> l <> [].
Hypothesis it_line : forall l cont T cs R C,
    good l -> (T = [] \/ exists T', T = NL :: T') ->
    ends_at (m (Opt (Chr 10)) cont) T cs R C ->
    ends_at (m it cont) (l ++ T) cs R C.

Lemma star_items k cs R C tail :
  (forall cont, fails_at (m it cont) (items_text [] tail) cs) ->
  ends_at k (items_text [] tail) cs R C ->
  forall lines, Forall good lines ->
  forall n, (length (items_text lines tail) <= n)%nat ->
  ends_at (star_loop (m it) true k n) (items_text lines tail) cs R C.
Proof.
  intros Hfail Hk lines Hgood.
  induction Hgood as [|l ls Hl _ IH]; intros n Hn p.
  - destruct n as [|n]; [apply Hk|]. unfold ends. cbn [star_loop].
    rewrite Hfail. apply Hk.
  - assert (Hne := good_nonempty l Hl).
    destruct n as [|n].
    { cbn [items_text] in Hn. rewrite length_app in Hn.
      destruct l; [contradiction | simpl in Hn; lia]. }
    set (T := match ls, tail with
              | [], None => []
              | _, _ => NL :: items_text ls tail
              end).
    assert (Htext : items_text (l :: ls) tail = l ++ T) by reflexivity.
    rewrite Htext in *. unfold ends. cbn [star_loop rest].
    match goal with
    | |- exists res, match m it ?cont ?st with _ => _ end = _ /\ _ =>
        assert (Hit : ends (m it cont) st R C)
    end.
    { apply it_line; [exact Hl | |].
      - subst T. destruct ls as [|l' ls]; [destruct tail|]; eauto.
      - assert (Hlen : forall s, (length s < length (l ++ s))%nat).
        { intros s. rewrite length_app. destruct l; [contradiction | simpl; lia]. }
        subst T. destruct ls as [|l' ls]; [destruct tail as [ts|]|].
        + apply ends_Opt_nl. intros q. unfold ends. cbn [rest].
          rewrite (proj2 (Nat.ltb_lt _ _)).
          * apply IH. rewrite length_app in Hn. simpl in Hn |- *. lia.
          * specialize (Hlen (NL :: items_text [] (Some ts))).
            simpl in Hlen |- *. lia.
        + apply ends_Opt_end. intros q. unfold ends. cbn [rest].
          rewrite (proj2 (Nat.ltb_lt _ _)) by apply Hlen.
          apply IH. simpl. lia.
        + apply ends_Opt_nl. intros q. unfold ends. cbn [rest].
          rewrite (proj2 (Nat.ltb_lt _ _)).
          * apply IH. rewrite length_app in Hn. simpl in Hn |- *. lia.
          * specialize (Hlen (NL :: items_text (l' :: ls) tail)).
            simpl in Hlen |- *. lia. }
    destruct Hit as (res & Hres & HR & HC). rewrite Hres. eauto.
Qed.

Lemma plus_items k cs R C tail l ls :
  (forall cont, fails_at (m it cont) (items_text [] tail) cs) ->
  ends_at k (items_text [] tail) cs R C ->
  Forall good (l :: ls) ->
  ends_at (m (Plus true it) k) (items_text (l :: ls) tail) cs R C.
Proof.
  intros Hfail Hk Hgood. inversion Hgood as [|? ? Hl Hls]; subst.
  intros p. unfold ends. rewrite m_Plus.
  apply it_line; [exact Hl | |].
  - destruct ls as [|l' ls]; [destruct tail|]; eauto.
  - destruct ls as [|l' ls]; [destruct tail as [ts|]|].
    + apply ends_Opt_nl. intros q.
      apply (star_items k cs R C (Some ts) Hfail Hk [] Hls). reflexivity.
    + apply ends_Opt_end. intros q.
      apply (star_items k cs R C None Hfail Hk [] Hls). reflexivity.
    + apply ends_Opt_nl. intros q.
      apply (star_items k cs R C tail Hfail Hk (l' :: ls) Hls). reflexivity.
Qed.
End Items.

(** ** The items of [options:] and [dependsOn:] *)

Lemma Forall_ws w :
  all_space w -> Forall (fun c => cls_has false [CSpace] c = true) w.
Proof.
  intros H. eapply Forall_impl; [exact H|]. intros c Hc. unfold cls_has. simpl.
  now rewrite Hc.
Qed.

Lemma Forall_not_nl v :
  no_newline v -> Forall (fun c => cls_has true [CChr 10] c = true) v.
Proof.
  intros H. eapply Forall_impl; [exact H|]. intros c Hc. unfold cls_has. simpl.
  rewrite orb_false_r. apply negb_true_iff. now apply N.eqb_neq.
Qed.

Lemma stops_ws_nonspace v T :
  starts_nonspace v -> stops (cls_has false [CSpace]) (v ++ T).
Proof.
  destruct v as [|c v]; [contradiction|]. intros H. cbn [app stops].
  unfold cls_has. simpl. now rewrite H.
Qed.

Lemma stops_not_nl_tail T :
  T = [] \/ (exists T', T = NL :: T') -> stops (cls_has true [CChr 10]) T.
Proof. intros [->|[T' ->]]; [exact I | reflexivity]. Qed.

Lemma alpha_not_space c : in_alpha_ c = true -> is_space c = false.
Proof.
  unfold in_alpha_, cls_has, is_space, isWhiteSpace, isLineTerminator.
  cbn [existsb citem_has xorb]. intros H.
  assert (Hc : (65 <= c <= 90) \/ (97 <= c <= 122) \/ c = 95).
  { destruct (N.leb_spec 97 c), (N.leb_spec c 122), (N.leb_spec 65 c),
      (N.leb_spec c 90), (N.eqb_spec c 95); simpl in H; try discriminate; lia. }
  clear H.
  repeat match goal with
         | |- context [N.eqb c ?x] => destruct (N.eqb_spec c x); [lia|]
         | |- context [N.leb ?x c] => destruct (N.leb_spec x c); [lia|]
         end.
  reflexivity.
Qed.

Lemma option_it_line l cont T cs R C :
  option_item_line l -> (T = [] \/ exists T', T = NL :: T') ->
  ends_at (m (Opt (Chr 10)) cont) T cs R C ->
  ends_at (m re_option_item cont) (l ++ T) cs R C.
Proof.
  intros (ind & k & w2 & v & -> & Hind & Hws & Hk & Halpha & Hw2 & Hv & Hnl) HT H.
  destruct ind as [|i0 ind]; [contradiction|].
  destruct k as [|k0 k]; [contradiction|].
  assert (Hv' : exists c w, v = c :: w).
  { destruct v; [contradiction | eauto]. }
  destruct Hv' as (c & w & ->).
  replace (((i0 :: ind) ++ (k0 :: k) ++ COLON :: w2 ++ c :: w) ++ T)
    with ((i0 :: ind) ++ (k0 :: k) ++ COLON :: w2 ++ (c :: w) ++ T)
    by (rewrite <- !app_assoc; cbn [app]; now rewrite <- !app_assoc).
  unfold re_option_item. do 5 apply ends_Seq.
  apply ends_plus_cls; [now apply Forall_ws | |].
  { cbn [app stops]. inversion Halpha; subst.
    unfold cls_has. simpl. rewrite orb_false_r. now apply alpha_not_space. }
  apply ends_plus_cls; [exact Halpha | reflexivity |].
  apply ends_Chr.
  apply ends_star_cls; [now apply Forall_ws | now apply stops_ws_nonspace |].
  apply ends_plus_cls; [now apply Forall_not_nl | now apply stops_not_nl_tail |].
  exact H.
Qed.

Lemma dep_it_line l cont T cs R C :
  dep_item_line l -> (T = [] \/ exists T', T = NL :: T') ->
  ends_at (m (Opt (Chr 10)) cont) T cs R C ->
  ends_at (m re_dep_item cont) (l ++ T) cs R C.
Proof.
  intros (ind & v & -> & Hind & Hws & Hv & Hnl) HT H.
  destruct ind as [|i0 ind]; [contradiction|].
  assert (Hv' : exists c w, v = c :: w).
  { destruct v; [contradiction | eauto]. }
  destruct Hv' as (c & w & ->).
  replace (((i0 :: ind) ++ 45 :: SP :: c :: w) ++ T)
    with ((i0 :: ind) ++ 45 :: [SP] ++ (c :: w) ++ T)
    by (rewrite <- !app_assoc; reflexivity).
  unfold re_dep_item. do 4 apply ends_Seq.
  apply ends_plus_cls; [now apply Forall_ws | reflexivity |].
  apply ends_Chr.
  apply ends_star_cls;
    [constructor; [reflexivity | constructor] | now apply stops_ws_nonspace |].
  apply ends_plus_cls; [now apply Forall_not_nl | now apply stops_not_nl_tail |].
  exact H.
Qed.

Lemma option_item_line_nonempty l : option_item_line l -> l <> [].
Proof.
  intros (ind & k & w2 & v & -> & Hind & _). destruct ind; [contradiction | discriminate].
Qed.

Lemma dep_item_line_nonempty l : dep_item_line l -> l <> [].
Proof.
  intros (ind & v & -> & Hind & _). destruct ind; [contradiction | discriminate].
Qed.

Lemma items_text_taken lines tail :
  lines <> [] ->
  items_text lines tail = items_taken lines tail ++ items_text [] tail.
Proof.
  unfold items_taken. induction lines as [|l ls IH]; intros Hne; [contradiction|].
  destruct ls as [|l' ls].
  - destruct tail; cbn [items_text join]; rewrite <- ?app_assoc; reflexivity.
  - change (items_text (l :: l' :: ls) tail) with (l ++ NL :: items_text (l' :: ls) tail).
    change (join [NL] (l :: l' :: ls)) with (l ++ [NL] ++ join [NL] (l' :: ls)).
    rewrite IH by discriminate. rewrite <- !app_assoc. reflexivity.
Qed.

Lemma firstn_taken (w t : jsstring) :
  firstn (length (w ++ t) - length t) (w ++ t) = w.
Proof.
  rewrite length_app.
  replace (length w + length t - length t)%nat with (length w) by lia.
  now rewrite firstn_app, Nat.sub_diag, firstn_all, app_nil_r.
Qed.

(** A capture recorded by the continuation of a group. *)
Lemma ends_capture i (s : jsstring) k s' cs' R C :
  ends_at k s' ((i, firstn (length s - length s') s) :: cs') R C ->
  ends_at (fun st' => k (MState (prev st') (rest st')
                                ((i, firstn (length s - length (rest st')) s)
                                   :: caps st'))) s' cs' R C.
Proof. intros H p. apply H. Qed.

(** An item of the options block does not read a [dependsOn] entry. *)
Lemma ws_runs_agree ind x r w y r' :
  all_space ind -> all_space w -> is_space x = false -> is_space y = false ->
  ind ++ x :: r = w ++ y :: r' -> x = y.
Proof.
  revert w. induction ind as [|i ind IH]; intros w Hind Hw Hx Hy H.
  - destruct w as [|z w]; simpl in H; inversion H; subst; [reflexivity|].
    inversion Hw; subst. congruence.
  - destruct w as [|z w]; simpl in H; inversion H; subst.
    + inversion Hind; subst. congruence.
    + inversion Hind; inversion Hw; subst. eapply IH; eauto.
Qed.

Lemma option_item_fails_dash cont ind r cs :
  all_space ind -> fails_at (m re_option_item cont) (ind ++ 45 :: r) cs.
Proof.
  intros Hind p. destruct (m re_option_item cont _) as [res|] eqn:Hm; [|reflexivity].
  exfalso. apply m_sound in Hm as (st' & Hm & _). unfold re_option_item in Hm.
  inversion Hm as [| | | | ? ? ? s5 ? Hm5 _ | | | | | | | | | ]; subst.
  inversion Hm5 as [| | | | ? ? ? s4 ? Hm4 _ | | | | | | | | | ]; subst.
  inversion Hm4 as [| | | | ? ? ? s3 ? Hm3 _ | | | | | | | | | ]; subst.
  inversion Hm3 as [| | | | ? ? ? s2 ? Hm2 _ | | | | | | | | | ]; subst.
  inversion Hm2 as [| | | | ? ? ? s1 ? Hws Halpha | | | | | | | | | ]; subst.
  apply matches_plus_cls in Hws as (c & w & Hw & Hall).
  apply matches_plus_cls in Halpha as (a & k & Hk & Hkall).
  cbn [rest] in Hw. rewrite Hk in Hw.
  inversion Hkall as [|? ? Ha _]; subst.
  assert (E : 45 = a).
  { apply (ws_runs_agree ind 45 r (c :: w) a (k ++ rest s2)).
    - exact Hind.
    - eapply Forall_impl; [exact Hall|]. intros; now apply cls_ws_space.
    - reflexivity.
    - now apply alpha_not_space.
    - exact Hw. }
  subst a. discriminate.
Qed.

Lemma item_fails_end it cont cs :
  (forall k st, rest st = [] -> m it k st = None) -> fails_at (m it cont) [] cs.
Proof. intros H p. now apply H. Qed.

Lemma option_item_fails_end cont cs : fails_at (m re_option_item cont) [] cs.
Proof. intros p. reflexivity. Qed.

Lemma dep_item_fails_end cont cs : fails_at (m re_dep_item cont) [] cs.
Proof. intros p. reflexivity. Qed.

Lemma repeat_suffix n : forall w1 c w2,
  repeat SP n = w1 ++ c :: w2 -> exists m', w2 = repeat SP m'.
Proof.
  induction n as [|n IH]; intros w1 c w2 H.
  - destruct w1; discriminate.
  - destruct w1 as [|e w1]; inversion H as [[He Hr]].
    + now exists n.
    + now apply (IH w1 c).
Qed.

(** The white space after [options:] or [dependsOn:] is read up to the
    first key and then given back, so that the newline can be read. *)
Lemma ends_header_newline k n x T cs R C :
  starts_nonspace x ->
  ends_at k (repeat SP n ++ x ++ T) cs R C ->
  ends_at (m (Seq (Star true ws) (Chr 10)) k) (NL :: repeat SP n ++ x ++ T) cs R C.
Proof.
  intros Hx H. apply ends_Seq.
  change (NL :: repeat SP n ++ x ++ T) with ((NL :: repeat SP n) ++ x ++ T).
  assert (Hrun : Forall (fun c => cls_has false [CSpace] c = true) (NL :: repeat SP n)).
  { constructor; [reflexivity|]. apply Forall_forall. intros c Hc.
    apply list_elem_of_In, repeat_spec in Hc. now subst. }
  apply ends_star_cls_back; [exact Hrun | now apply stops_ws_nonspace | |].
  - intros w1 c w2 Hw. apply fails_Chr.
    assert (Hw2 : exists m', w2 = repeat SP m').
    { destruct w1 as [|d w1]; inversion Hw as [[Hd Hr]].
      - now exists n.
      - now apply repeat_suffix in Hr. }
    destruct Hw2 as [m' ->]. destruct m' as [|m']; cbn [repeat app stops].
    + destruct x as [|x0 x]; [contradiction|]. cbn [app]. simpl in Hx.
      apply N.eqb_neq. intros <-. discriminate.
    + reflexivity.
  - cbn [app]. now apply ends_Chr.
Qed.

Section Nested.
Variable key : string.
Variable it : regex.
Variable good : jsstring -> Prop.

Hypothesis good_nonempty : forall l, good l -> l <> [].
Hypothesis it_line : forall l cont T cs R C,
    good l -> (T = [] \/ exists T', T = NL :: T') ->
    ends_at (m (Opt (Chr 10)) cont) T cs R C ->
    ends_at (m it cont) (l ++ T) cs R C.

(** What the pattern of a nested block finds at its key: the lines
    that its items read. *)
Lemma ends_nested n x ls tail :
  starts_nonspace x ->
  Forall good ((repeat SP n ++ x) :: ls) ->
  (forall cont, fails_at (m it cont) (items_text [] tail) []) ->
  ends_at (m (re_nested key it) Some)
          (str key ++ NL :: items_text ((repeat SP n ++ x) :: ls) tail) []
          (items_text [] tail)
          [(1%nat, items_taken ((repeat SP n ++ x) :: ls) tail)].
Proof.
  intros Hx Hgood Hfail.
  set (lines := (repeat SP n ++ x) :: ls).
  set (K := m (Group 1 (Plus true it)) Some).
  refine (ends_LitL (str key) (m (Seq (Star true ws) (Chr 10)) K) _ _ _ _ _).
  assert (Htext : exists T, items_text lines tail = repeat SP n ++ x ++ T).
  { subst lines. cbn [items_text]. rewrite <- app_assoc. eauto. }
  destruct Htext as [T Htext]. rewrite Htext.
  apply ends_header_newline; [exact Hx|]. rewrite <- Htext.
  subst K. apply ends_Group.
  apply (plus_items it good good_nonempty it_line); [exact Hfail | | exact Hgood].
  apply ends_capture.
  rewrite (items_text_taken lines tail) at 1 2 by discriminate.
  rewrite firstn_taken. apply ends_Some.
Qed.

Lemma leads_re_nested : leads_with (str key) (re_nested key it).
Proof. unfold re_nested. do 3 apply LW_seq. apply LW_lit. Qed.

(** The capture of the nested block in the text of a step. *)
Lemma regex_match_nested P before n x ls tail :
  let L := str key in
  ~ In NL L -> ~ In SP L -> L <> [] ->
  includes P L = false ->
  Forall (free L) before ->
  starts_nonspace x ->
  Forall good ((repeat SP n ++ x) :: ls) ->
  (forall cont, fails_at (m it cont) (items_text [] tail) []) ->
  exists mr,
    regex_match (re_nested key it)
      ((P ++ lines_text (before ++ [repeat SP 3])) ++ SP
         :: (L ++ NL :: items_text ((repeat SP n ++ x) :: ls) tail)) = Some mr
    /\ grp 1 mr = Ok (items_taken ((repeat SP n ++ x) :: ls) tail).
Proof.
  intros L HNL HSP HL HP Hb Hx Hgood Hfail. subst L.
  destruct (ends_nested n x ls tail Hx Hgood Hfail (Some SP)) as (st' & Hm & _ & Hcaps).
  destruct (regex_match_at _ (str key) _ SP _ st' leads_re_nested HSP
              (includes_before _ _ _ HNL HSP HL HP Hb) Hm) as (mr & Hr & Hc' & _).
  exists mr. split; [exact Hr|]. unfold grp. now rewrite Hc', Hcaps.
Qed.
End Nested.

(** ** Reading the captured lines back *)

Lemma trimStart_spaces ind z :
  all_space ind -> starts_nonspace z -> trimStart (ind ++ z) = z.
Proof.
  intros Hind Hz. induction Hind as [|c ind Hc _ IH]; cbn [app].
  - destruct z as [|c z]; [contradiction|]. now apply trimStart_nonspace.
  - simpl. now rewrite Hc.
Qed.

Lemma split_chr_go_line l : forall acc T,
  no_newline l ->
  split_chr_go NL (l ++ T) acc
  = match T with
    | [] => [rev acc ++ l]
    | c :: T' => if c =? NL then (rev acc ++ l) :: split_chr_go NL T' []
                 else split_chr_go NL T (rev l ++ acc)
    end.
Proof.
  induction l as [|x l IH]; intros acc T Hl.
  - cbn [app rev]. rewrite app_nil_r. destruct T as [|c T']; [reflexivity|].
    cbn [split_chr_go]. now destruct (c =? NL).
  - inversion Hl as [|? ? Hx Hl']; subst. cbn [app split_chr_go].
    rewrite (proj2 (N.eqb_neq x NL) Hx), IH by exact Hl'.
    cbn [rev]. rewrite <- !app_assoc. reflexivity.
Qed.

Lemma split_chr_join lines :
  lines <> [] -> Forall no_newline lines ->
  split_chr NL (join [NL] lines) = lines.
Proof.
  unfold split_chr. intros Hne H. induction H as [|l ls Hl Hls IH]; [contradiction|].
  destruct ls as [|l' ls].
  - cbn [join]. rewrite <- (app_nil_r l) at 1. now rewrite split_chr_go_line.
  - change (join [NL] (l :: l' :: ls)) with (l ++ NL :: join [NL] (l' :: ls)).
    rewrite split_chr_go_line by exact Hl. rewrite N.eqb_refl. cbn [rev app].
    f_equal. apply IH. discriminate.
Qed.

Lemma trim_taken ind x ls tail :
  all_space ind -> starts_nonspace x ->
  ends_nonspace (join [NL] (x :: ls)) ->
  trim (items_taken ((ind ++ x) :: ls) tail) = join [NL] (x :: ls).
Proof.
  intros Hind Hx (a & c & Ha & Hc). unfold items_taken, trim.
  rewrite join_cons, <- !app_assoc, trimStart_spaces.
  - rewrite app_assoc, <- join_cons, Ha, <- app_assoc. cbn [app].
    rewrite trimEnd_app_nonspace by exact Hc. now destruct tail.
  - exact Hind.
  - destruct x; [contradiction | exact Hx].
Qed.

(** *** Option lines *)

Lemma ends_option_line ind k0 k c w :
  all_space ind ->
  Forall (fun x => in_alpha_ x = true) (k0 :: k) ->
  is_space c = false ->
  Forall (fun x => not_terminator x = true) (c :: w) ->
  ends_at (m re_option_line Some) (ind ++ (k0 :: k) ++ COLON :: SP :: c :: w) []
          [] [(2%nat, c :: w); (1%nat, k0 :: k)].
Proof.
  intros Hind Hk Hc Hv. unfold re_option_line. do 4 apply ends_Seq.
  apply ends_star_cls; [now apply Forall_ws | |].
  { cbn [app stops]. inversion Hk; subst. unfold cls_has. simpl.
    rewrite orb_false_r. now apply alpha_not_space. }
  apply ends_Group. apply ends_plus_cls; [exact Hk | reflexivity |].
  apply ends_capture. rewrite firstn_taken.
  apply ends_Chr.
  replace (SP :: c :: w) with ([SP] ++ (c :: w) ++ [])
    by (cbn [app]; now rewrite app_nil_r).
  apply ends_star_cls;
    [constructor; [reflexivity | constructor]
    | cbn [app stops]; unfold cls_has; simpl; now rewrite Hc |].
  apply ends_Group. apply ends_plus_dot; [exact Hv | exact I |].
  apply ends_capture. rewrite firstn_taken. apply ends_Some.
Qed.

Lemma regex_match_option_line ind k0 k c w :
  all_space ind ->
  Forall (fun x => in_alpha_ x = true) (k0 :: k) ->
  is_space c = false ->
  Forall (fun x => not_terminator x = true) (c :: w) ->
  exists mr, regex_match re_option_line (ind ++ (k0 :: k) ++ COLON :: SP :: c :: w)
             = Some mr
             /\ grp 1 mr = Ok (k0 :: k) /\ grp 2 mr = Ok (c :: w).
Proof.
  intros Hind Hk Hc Hv.
  destruct (ends_option_line ind k0 k c w Hind Hk Hc Hv None) as (st' & Hm & _ & Hcaps).
  destruct (regex_match_start _ _ _ Hm) as (mr & Hr & Hc' & _).
  exists mr. split; [exact Hr|]. unfold grp. rewrite Hc', Hcaps. split; reflexivity.
Qed.

(** A line in which the pattern of an option line matches has a colon
    that is followed by something. *)
Lemma option_line_colon line mr :
  regex_match re_option_line line = Some mr ->
  exists a b y, line = a ++ COLON :: b /\ In y b /\ isLineTerminator y = false.
Proof.
  intros H. apply regex_match_sound in H as (st' & Hs & Hm & _).
  unfold re_option_line in Hm.
  inversion Hm as [| | | | ? ? ? s4 ? Hm4 Hg2 | | | | | | | | | ]; subst.
  inversion Hm4 as [| | | | ? ? ? s3 ? Hm3 Hws | | | | | | | | | ]; subst.
  inversion Hm3 as [| | | | ? ? ? s2 ? Hm2 Hcolon | | | | | | | | | ]; subst.
  apply matches_rest in Hm2 as [u Hu]. cbn [rest] in Hu.
  inversion Hcolon; subst. cbn [rest] in *.
  apply matches_star_cls in Hws as (w & Hw & _). cbn [rest] in Hw.
  inversion Hg2 as [| | | | | | | | | ? ? ? s5 Hplus | | | | ]; subst.
  unfold Plus in Hplus.
  inversion Hplus as [| | | | ? ? ? s6 ? Hdot _ | | | | | | | | | ]; subst.
  inversion Hdot as [| | ? ? ? ? Hy | | | | | | | | | | | ]; subst.
  cbn [rest] in Hu.
  exists (m_before mr ++ u), (w ++ c :: t), c.
  split; [|split; [apply in_or_app; right; now left | exact Hy]].
  rewrite Hu, <- !app_assoc. reflexivity.
Qed.

Lemma last_colon X : forall A B,
  ~ In COLON X -> A ++ COLON :: B = X ++ [COLON] -> B = [].
Proof.
  induction X as [|x X IH]; intros A B HX H.
  - destruct A as [|a A]; inversion H; [reflexivity|]. destruct A; discriminate.
  - destruct A as [|a A]; inversion H; subst.
    + exfalso. apply HX. now left.
    + apply (IH A B); [|assumption]. intros Hin. apply HX. now right.
Qed.

Lemma regex_match_option_line_header X :
  ~ In COLON X -> regex_match re_option_line (X ++ [COLON]) = None.
Proof.
  intros HX. destruct (regex_match _ _) as [mr|] eqn:Hm; [|reflexivity].
  apply option_line_colon in Hm as (a & b & y & Hl & Hy & _).
  symmetry in Hl. apply last_colon in Hl; [|exact HX]. subst b. destruct Hy.
Qed.

Lemma regex_match_option_line_no_colon line :
  ~ In COLON line -> regex_match re_option_line line = None.
Proof.
  intros HX. destruct (regex_match _ _) as [mr|] eqn:Hm; [|reflexivity].
  apply option_line_colon in Hm as (a & b & y & -> & _).
  exfalso. apply HX. apply in_or_app. right. now left.
Qed.

Lemma obj_update_fresh k v o : fresh_key o k -> obj_update k v o = o ++ [(k, v)].
Proof.
  unfold fresh_key. induction o as [|[k' v'] o IH]; intros H; [reflexivity|].
  cbn [existsb fst] in H. apply orb_false_iff in H as [H1 H2].
  cbn [obj_update app]. now rewrite H1, IH.
Qed.

Lemma plain_value_facts v :
  plain_value v = true ->
  trim v = v /\ starts_nonspace v /\ Forall (fun x => not_terminator x = true) v
  /\ clean v = true.
Proof.
  unfold plain_value. rewrite !andb_true_iff. intros [[Ht Hl] Hc].
  split; [now apply trim_trimmed|]. split; [|split; [|exact Hc]].
  - unfold trimmed in Ht. destruct v as [|c v]; [discriminate|].
    apply andb_true_iff in Ht as [H _]. now apply negb_true_iff in H.
  - rewrite forallb_forall in Hl. apply Forall_forall. intros x Hx.
    apply list_elem_of_In in Hx. now apply Hl.
Qed.

Lemma plain_key_facts k :
  plain_key k = true ->
  k <> [] /\ Forall (fun x => in_alpha_ x = true) k
  /\ str_eqb k (str "__proto__") = false /\ clean (k ++ [COLON]) = true.
Proof.
  unfold plain_key. rewrite !andb_true_iff. intros [[[Hn Ha] Hp] Hc].
  split; [destruct k; [discriminate | discriminate]|].
  split; [|split; [now apply negb_true_iff | exact Hc]].
  rewrite forallb_forall in Ha. apply Forall_forall. intros x Hx.
  apply list_elem_of_In in Hx. now apply Ha.
Qed.

Lemma parse_option_lines_skip lines : forall o,
  Forall (fun l => regex_match re_option_line l = None) lines ->
  parse_option_lines lines o = Ok o.
Proof.
  induction lines as [|l ls IH]; intros o H; [reflexivity|].
  inversion H as [|? ? Hl Hls]; subst. cbn [parse_option_lines].
  rewrite Hl. now apply IH.
Qed.

Lemma parse_option_lines_opts lines opts :
  Forall2 reads_option lines opts ->
  forall o rest_lines,
    Forall (fun kv => plain_key (fst kv) = true /\ plain_value (snd kv) = true) opts ->
    Forall (fun kv => fresh_key o (fst kv)) opts ->
    distinct_keys opts = true ->
    Forall (fun l => regex_match re_option_line l = None) rest_lines ->
    parse_option_lines (lines ++ rest_lines) o = Ok (o ++ opts).
Proof.
  induction 1 as [|line [k v] lines opts Hline _ IH];
    intros o rest_lines Hplain Hfresh Hdist Hrest.
  - cbn [app]. rewrite app_nil_r. now apply parse_option_lines_skip.
  - inversion Hplain as [|? ? [Hk Hv] Hplain']; subst.
    inversion Hfresh as [|? ? Hfk Hfresh']; subst.
    cbn [fst snd] in *. cbn [distinct_keys] in Hdist.
    apply andb_true_iff in Hdist as [Hnotin Hdist].
    apply negb_true_iff in Hnotin.
    destruct (plain_key_facts _ Hk) as (Hkne & Halpha & Hproto & _).
    destruct (plain_value_facts _ Hv) as (Htrim & Hstart & Hterm & _).
    destruct Hline as (ind & Hind & ->). cbn [fst snd].
    destruct k as [|k0 k]; [contradiction|].
    destruct v as [|c w]; [contradiction|].
    destruct (regex_match_option_line ind k0 k c w Hind Halpha Hstart Hterm)
      as (mr & Hr & Hg1 & Hg2).
    cbn [app parse_option_lines] in Hr |- *. rewrite Hr, Hg1, Hg2.
    cbn [mbind result_bind].
    rewrite Htrim. unfold obj_set. rewrite Hproto, obj_update_fresh by exact Hfk.
    rewrite IH; auto.
    + now rewrite <- app_assoc.
    + apply Forall_forall. intros [k' v'] Hin. cbn [fst]. unfold fresh_key.
      rewrite existsb_app. cbn [existsb fst]. rewrite orb_false_r.
      rewrite Forall_forall in Hfresh'. rewrite (Hfresh' _ Hin). cbn [orb].
      destruct (str_eqb (k0 :: k) k') eqn:E; [|reflexivity].
      apply str_eqb_eq in E. subst k'.
      assert (existsb (fun kv => str_eqb (fst kv) (k0 :: k)) opts = true); [|congruence].
      apply existsb_exists. exists (k0 :: k, v'). split.
      * now apply list_elem_of_In.
      * apply str_eqb_refl.
Qed.

(** *** dependsOn lines *)

Lemma ends_dep_line ind c w :
  all_space ind -> is_space c = false ->
  Forall (fun x => not_terminator x = true) (c :: w) ->
  ends_at (m re_dep_line Some) (ind ++ 45 :: SP :: c :: w) [] [] [(1%nat, c :: w)].
Proof.
  intros Hind Hc Hv. unfold re_dep_line. do 3 apply ends_Seq.
  apply ends_star_cls; [now apply Forall_ws | reflexivity |].
  apply ends_Chr.
  replace (SP :: c :: w) with ([SP] ++ (c :: w) ++ [])
    by (cbn [app]; now rewrite app_nil_r).
  apply ends_star_cls;
    [constructor; [reflexivity | constructor]
    | cbn [app stops]; unfold cls_has; simpl; now rewrite Hc |].
  apply ends_Group. apply ends_plus_dot; [exact Hv | exact I |].
  apply ends_capture. rewrite firstn_taken. apply ends_Some.
Qed.

Lemma plain_dep_facts d :
  plain_dep d = true ->
  trim d = d /\ starts_nonspace d /\ Forall (fun x => not_terminator x = true) d
  /\ ~ In COLON d /\ ends_nonspace d.
Proof.
  unfold plain_dep. rewrite !andb_true_iff. intros [Ht Hl].
  rewrite forallb_forall in Hl.
  split; [now apply trim_trimmed|]. split; [|split; [|split]].
  - unfold trimmed in Ht. destruct d as [|c d]; [discriminate|].
    apply andb_true_iff in Ht as [H _]. now apply negb_true_iff in H.
  - apply Forall_forall. intros x Hx. apply list_elem_of_In, Hl in Hx.
    now apply andb_true_iff in Hx as [Hx _].
  - intros Hin. apply Hl in Hin. apply andb_true_iff in Hin as [_ Hin].
    discriminate.
  - unfold trimmed in Ht. destruct d as [|c d]; [discriminate|].
    apply andb_true_iff in Ht as [_ H]. apply negb_true_iff in H.
    exists (removelast (c :: d)), (List.last (c :: d) 0). split; [|exact H].
    now apply app_removelast_last.
Qed.

Lemma parse_dep_lines_deps lines ds :
  Forall2 reads_dep lines ds ->
  forall deps,
    Forall (fun d => plain_dep d = true) ds ->
    parse_dep_lines lines deps = Ok (deps ++ ds).
Proof.
  induction 1 as [|line d lines ds Hline _ IH]; intros deps Hplain.
  - cbn [parse_dep_lines]. now rewrite app_nil_r.
  - inversion Hplain as [|? ? Hd Hplain']; subst.
    destruct (plain_dep_facts _ Hd) as (Htrim & Hstart & Hterm & _).
    destruct Hline as (ind & Hind & ->).
    destruct d as [|c w]; [contradiction|].
    destruct (ends_dep_line ind c w Hind Hstart Hterm None) as (st' & Hm & _ & Hcaps).
    destruct (regex_match_start _ _ _ Hm) as (mr & Hr & Hc' & _).
    cbn [parse_dep_lines]. rewrite Hr. unfold grp. rewrite Hc', Hcaps.
    cbn [assoc Nat.eqb mbind result_bind]. rewrite Htrim, IH by exact Hplain'.
    now rewrite <- app_assoc.
Qed.

(** ** The nested blocks in the text of a step *)

Lemma lines_text_items lines :
  lines <> [] -> lines_text lines = NL :: items_text lines None.
Proof.
  induction lines as [|l ls IH]; intros Hne; [contradiction|].
  change (lines_text (l :: ls)) with (NL :: l ++ lines_text ls).
  destruct ls as [|l' ls].
  - reflexivity.
  - rewrite IH by discriminate. reflexivity.
Qed.

(** The header of [dependsOn:] and its first entry, read as one line by
    an item of the options block. *)
Lemma items_text_pseudo A X Y R :
  items_text (A ++ [X ++ NL :: Y])
             (match R with [] => None | _ :: _ => Some (items_text R None) end)
  = items_text (A ++ X :: Y :: R) None.
Proof.
  induction A as [|a A IH].
  - destruct R as [|r R]; cbn [app items_text]; rewrite <- !app_assoc; reflexivity.
  - cbn [app].
    assert (H1 : forall B tail, B <> [] ->
                 items_text (a :: B) tail = a ++ NL :: items_text B tail).
    { intros B tail HB. destruct B; [contradiction | reflexivity]. }
    rewrite !H1 by (destruct A; discriminate). now rewrite IH.
Qed.

Lemma join_pseudo A X Y :
  join [NL] (A ++ [X ++ NL :: Y]) = join [NL] (A ++ [X; Y]).
Proof.
  rewrite !join_app_cons. cbn [flat_map app]. rewrite <- !app_assoc.
  cbn [app]. now rewrite !app_nil_r.
Qed.

Lemma ends_nonspace_app a z : ends_nonspace z -> ends_nonspace (a ++ z).
Proof.
  intros (b & c & -> & Hc). exists (a ++ b), c. now rewrite <- app_assoc.
Qed.

Lemma ends_nonspace_join x ls :
  Forall ends_nonspace (x :: ls) -> ends_nonspace (join [NL] (x :: ls)).
Proof.
  revert x. induction ls as [|l ls IH]; intros x H.
  - now inversion H.
  - change (join [NL] (x :: l :: ls)) with (x ++ [NL] ++ join [NL] (l :: ls)).
    inversion H; subst. rewrite app_assoc. apply ends_nonspace_app. now apply IH.
Qed.

Lemma block_split_nested P before L lines :
  lines <> [] ->
  P ++ lines_text (before ++ (str "    " ++ L) :: lines)
  = (P ++ lines_text (before ++ [repeat SP 3])) ++ SP :: (L ++ NL :: items_text lines None).
Proof.
  intros Hne.
  rewrite !lines_text_app.
  change (lines_text ((str "    " ++ L) :: lines))
    with (NL :: (str "    " ++ L) ++ lines_text lines).
  rewrite (lines_text_items lines Hne).
  cbn [lines_text flat_map repeat]. rewrite app_nil_r.
  change (str "    ") with [SP; SP; SP; SP].
  rewrite <- !app_assoc. cbn [app]. rewrite <- ?app_assoc. reflexivity.
Qed.

(** *** dependsOn *)

Lemma dep_line_item d : plain_dep d = true -> dep_item_line (dep_line d).
Proof.
  intros H. destruct (plain_dep_facts _ H) as (_ & Hstart & Hterm & _).
  exists (repeat SP 6), d. split; [reflexivity|].
  split; [discriminate|]. split; [repeat constructor|]. split; [exact Hstart|].
  eapply Forall_impl; [exact Hterm|]. intros x Hx ->. discriminate.
Qed.

Lemma dep_line_reads d : reads_dep (dep_line d) d.
Proof. exists (repeat SP 6). split; [repeat constructor | reflexivity]. Qed.

Lemma dep_line_no_newline d : plain_dep d = true -> no_newline (dep_line d).
Proof.
  intros H. destruct (plain_dep_facts _ H) as (_ & _ & Hterm & _).
  unfold dep_line. apply Forall_app. split.
  - vm_compute. repeat constructor; discriminate.
  - eapply Forall_impl; [exact Hterm|]. intros x Hx ->. discriminate.
Qed.

Lemma dep_line_ends d : plain_dep d = true -> ends_nonspace (dep_line d).
Proof.
  intros H. destruct (plain_dep_facts _ H) as (_ & _ & _ & _ & He).
  now apply ends_nonspace_app.
Qed.

Lemma parse_dependsOn_present P before d ds :
  let L := str "dependsOn:" in
  includes P L = false ->
  Forall (free L) before ->
  Forall (fun d => plain_dep d = true) (d :: ds) ->
  parse_dependsOn
    (P ++ lines_text (before ++ (str "    " ++ L) :: map dep_line (d :: ds)))
  = Ok (Some (d :: ds)).
Proof.
  intros L HP Hb Hplain. subst L.
  assert (HNL : ~ In NL (str "dependsOn:")) by (vm_compute; intuition discriminate).
  assert (HSP : ~ In SP (str "dependsOn:")) by (vm_compute; intuition discriminate).
  assert (HL : str "dependsOn:" <> []) by discriminate.
  inversion Hplain as [|? ? Hd Hds]; subst.
  destruct (plain_dep_facts _ Hd) as (_ & Hstart & _).
  rewrite block_split_nested by discriminate.
  cbn [map].
  change (dep_line d) with (repeat SP 6 ++ 45 :: SP :: d).
  destruct (regex_match_nested "dependsOn:" re_dep_item dep_item_line
              dep_item_line_nonempty dep_it_line P before 6 (45 :: SP :: d)
              (map dep_line ds) None HNL HSP HL HP Hb) as (mr & Hr & Hg).
  { reflexivity. }
  { constructor; [now apply (dep_line_item d)|].
    apply Forall_forall. intros l Hl. apply list_elem_of_In, in_map_iff in Hl as (d' & <- & Hd').
    apply dep_line_item. rewrite Forall_forall in Hds. now apply Hds, list_elem_of_In. }
  { intros cont. apply dep_item_fails_end. }
  unfold parse_dependsOn.
  change (re_dependsOn) with (re_nested "dependsOn:" re_dep_item).
  rewrite Hr, Hg. cbn [mbind result_bind].
  rewrite trim_taken.
  - rewrite split_chr_join.
    + rewrite (parse_dep_lines_deps _ (d :: ds)).
      * reflexivity.
      * constructor.
        -- exists []. split; [constructor | reflexivity].
        -- clear. induction ds as [|d' ds IH]; cbn [map]; constructor;
             [apply dep_line_reads | exact IH].
      * exact Hplain.
    + discriminate.
    + constructor.
      * pose proof (dep_line_no_newline d Hd) as H.
        change (dep_line d) with (repeat SP 6 ++ 45 :: SP :: d) in H.
        apply Forall_app in H. now destruct H.
      * apply Forall_forall. intros l Hl.
        apply list_elem_of_In, in_map_iff in Hl as (d' & <- & Hd').
        apply dep_line_no_newline. rewrite Forall_forall in Hds.
        now apply Hds, list_elem_of_In.
  - repeat constructor.
  - reflexivity.
  - apply ends_nonspace_join. constructor.
    + destruct (plain_dep_facts _ Hd) as (_ & _ & _ & _ & He).
      now apply (ends_nonspace_app [45; SP]).
    + apply Forall_forall. intros l Hl.
      apply list_elem_of_In, in_map_iff in Hl as (d' & <- & Hd').
      apply dep_line_ends. rewrite Forall_forall in Hds.
      now apply Hds, list_elem_of_In.
Qed.

Lemma parse_dependsOn_absent block :
  includes block (str "dependsOn:") = false -> parse_dependsOn block = Ok None.
Proof.
  intros H. unfold parse_dependsOn.
  change re_dependsOn with (re_nested "dependsOn:" re_dep_item).
  now rewrite (no_literal_no_match _ _ _ (leads_re_nested _ _) H).
Qed.

(** *** options *)

Lemma trimmed_ends v : trimmed v = true -> ends_nonspace v.
Proof.
  unfold trimmed. destruct v as [|c v]; [discriminate|]. intros H.
  apply andb_true_iff in H as [_ H]. apply negb_true_iff in H.
  exists (removelast (c :: v)), (List.last (c :: v) 0). split; [|exact H].
  now apply app_removelast_last.
Qed.

Lemma plain_value_ends v : plain_value v = true -> ends_nonspace v.
Proof.
  unfold plain_value. rewrite !andb_true_iff. intros [[H _] _].
  now apply trimmed_ends.
Qed.

Lemma not_terminator_no_newline v :
  Forall (fun x => not_terminator x = true) v -> no_newline v.
Proof. intros H. eapply Forall_impl; [exact H|]. intros x Hx ->. discriminate. Qed.

Lemma in_alpha_no_newline k :
  Forall (fun x => in_alpha_ x = true) k -> no_newline k.
Proof. intros H. eapply Forall_impl; [exact H|]. intros x Hx ->. discriminate. Qed.

Section OptionLines.
Variable kv : jsstring * jsstring.
Hypothesis Hkey : plain_key (fst kv) = true.
Hypothesis Hvalue : plain_value (snd kv) = true.

Lemma opt_line_item : option_item_line (opt_line kv).
Proof.
  destruct (plain_key_facts _ Hkey) as (Hne & Halpha & _).
  destruct (plain_value_facts _ Hvalue) as (_ & Hstart & Hterm & _).
  exists (repeat SP 6), (fst kv), [SP], (snd kv).
  split; [reflexivity|]. split; [discriminate|]. split; [repeat constructor|].
  split; [exact Hne|]. split; [exact Halpha|]. split; [repeat constructor|].
  split; [exact Hstart | now apply not_terminator_no_newline].
Qed.

Lemma opt_line_reads : reads_option (opt_line kv) kv.
Proof. exists (repeat SP 6). split; [repeat constructor | reflexivity]. Qed.

Lemma opt_line_body_no_newline : no_newline (fst kv ++ COLON :: SP :: snd kv).
Proof.
  destruct (plain_key_facts _ Hkey) as (_ & Halpha & _).
  destruct (plain_value_facts _ Hvalue) as (_ & _ & Hterm & _).
  apply Forall_app. split; [now apply in_alpha_no_newline|].
  constructor; [discriminate|]. constructor; [discriminate|].
  now apply not_terminator_no_newline.
Qed.

Lemma opt_line_no_newline : no_newline (opt_line kv).
Proof.
  change (opt_line kv) with (repeat SP 6 ++ fst kv ++ COLON :: SP :: snd kv).
  apply Forall_app. split; [repeat constructor; discriminate|].
  apply opt_line_body_no_newline.
Qed.

Lemma opt_line_body_ends : ends_nonspace (fst kv ++ COLON :: SP :: snd kv).
Proof.
  apply ends_nonspace_app. apply (ends_nonspace_app [COLON; SP]).
  now apply plain_value_ends.
Qed.

Lemma opt_line_ends : ends_nonspace (opt_line kv).
Proof.
  change (opt_line kv) with (repeat SP 6 ++ fst kv ++ COLON :: SP :: snd kv).
  apply ends_nonspace_app. apply opt_line_body_ends.
Qed.
End OptionLines.

(** The [dependsOn:] header with the first entry, as an option item. *)
Lemma pseudo_item d :
  plain_dep d = true ->
  option_item_line (str "    dependsOn:" ++ NL :: dep_line d).
Proof.
  intros H. destruct (plain_dep_facts _ H) as (_ & _ & Hterm & _).
  exists (repeat SP 4), (str "dependsOn"), (NL :: repeat SP 6), (45 :: SP :: d).
  split; [reflexivity|]. split; [discriminate|]. split; [repeat constructor|].
  split; [discriminate|]. split; [vm_compute; repeat constructor|].
  split; [repeat constructor|]. split; [reflexivity|].
  constructor; [discriminate|]. constructor; [discriminate|].
  now apply not_terminator_no_newline.
Qed.

Lemma Forall_map_plain {A} (f : A -> jsstring) (Q : jsstring -> Prop)
    (ok : A -> bool) l :
  (forall x, ok x = true -> Q (f x)) ->
  Forall (fun x => ok x = true) l -> Forall Q (map f l).
Proof.
  intros H Hl. induction Hl as [|x l Hx _ IH]; cbn [map]; constructor; auto.
Qed.

Lemma forallb_Forall {A} (f : A -> bool) l :
  forallb f l = true -> Forall (fun x => f x = true) l.
Proof.
  intros H. rewrite forallb_forall in H. apply Forall_forall.
  intros x Hx. now apply H, list_elem_of_In.
Qed.

Lemma dependsOnLines_plain deps :
  plain_deps deps = true ->
  deps = None /\ dependsOnLines deps = []
  \/ exists d ds, deps = Some (d :: ds)
       /\ Forall (fun d => plain_dep d = true) (d :: ds)
       /\ dependsOnLines deps = str "    dependsOn:" :: map dep_line (d :: ds).
Proof.
  destruct deps as [[|d ds]|]; [discriminate | | now left].
  intros H. right. exists d, ds. split; [reflexivity|]. split; [|reflexivity].
  now apply forallb_Forall in H.
Qed.

Lemma parse_options_present P before kv l deps :
  let L := str "options:" in
  includes P L = false ->
  Forall (free L) before ->
  Forall (fun kv => plain_key (fst kv) = true /\ plain_value (snd kv) = true) (kv :: l) ->
  distinct_keys (kv :: l) = true ->
  plain_deps deps = true ->
  parse_options
    (P ++ lines_text (before ++ (str "    " ++ L)
                        :: map opt_line (kv :: l) ++ dependsOnLines deps))
  = Ok (Some (kv :: l)).
Proof.
  intros L HP Hb Hplain Hdist Hdeps. subst L.
  assert (HNL : ~ In NL (str "options:")) by (vm_compute; intuition discriminate).
  assert (HSP : ~ In SP (str "options:")) by (vm_compute; intuition discriminate).
  assert (HL : str "options:" <> []) by discriminate.
  inversion Hplain as [|? ? [Hk Hv] Hl]; subst.
  destruct (plain_value_facts _ Hv) as (_ & Hstart & _).
  destruct (plain_key_facts _ Hk) as (Hkne & _).
  assert (Hx : starts_nonspace (fst kv ++ COLON :: SP :: snd kv)).
  { destruct (fst kv) as [|c k] eqn:E; [congruence|].
    destruct (plain_key_facts _ Hk) as (_ & Ha & _).
    inversion Ha as [|? ? Hc _]; subst. cbn. now apply alpha_not_space. }
  assert (Hitems : Forall option_item_line (map opt_line l)).
  { apply Forall_forall. intros x Hin.
    apply list_elem_of_In, in_map_iff in Hin as (kv' & <- & Hin).
    rewrite Forall_forall in Hl. destruct (Hl kv') as [? ?]; [now apply list_elem_of_In|].
    now apply opt_line_item. }
  assert (Hnn : Forall no_newline (map opt_line l)).
  { apply Forall_forall. intros x Hin.
    apply list_elem_of_In, in_map_iff in Hin as (kv' & <- & Hin).
    rewrite Forall_forall in Hl. destruct (Hl kv') as [? ?]; [now apply list_elem_of_In|].
    now apply opt_line_no_newline. }
  assert (Hends : Forall ends_nonspace (map opt_line l)).
  { apply Forall_forall. intros x Hin.
    apply list_elem_of_In, in_map_iff in Hin as (kv' & <- & Hin).
    rewrite Forall_forall in Hl. destruct (Hl kv') as [? ?]; [now apply list_elem_of_In|].
    now apply opt_line_ends. }
  assert (Hreads : Forall2 reads_option
                     ((fst kv ++ COLON :: SP :: snd kv) :: map opt_line l) (kv :: l)).
  { constructor.
    - exists []. split; [constructor | reflexivity].
    - clear. induction l as [|kv' l IH]; cbn [map]; constructor;
        [apply opt_line_reads | exact IH]. }
  rewrite block_split_nested by discriminate.
  unfold parse_options.
  change re_options with (re_nested "options:" re_option_item).
  cbn [map].
  change (opt_line kv) with (repeat SP 6 ++ fst kv ++ COLON :: SP :: snd kv).
  set (x := fst kv ++ COLON :: SP :: snd kv) in *.
  destruct (dependsOnLines_plain deps Hdeps) as [[_ ->] | (d & ds & _ & Hds & ->)].
  - (* no dependsOn block after the options *)
    rewrite app_nil_r.
    destruct (regex_match_nested "options:" re_option_item option_item_line
                option_item_line_nonempty option_it_line P before 6 x
                (map opt_line l) None HNL HSP HL HP Hb Hx) as (mr & Hr & Hg).
    { constructor; [now apply (opt_line_item kv) | exact Hitems]. }
    { intros cont. apply option_item_fails_end. }
    rewrite Hr, Hg. cbn [mbind result_bind].
    rewrite trim_taken.
    + rewrite split_chr_join.
      * rewrite <- (app_nil_r (x :: map opt_line l)).
        rewrite (parse_option_lines_opts _ (kv :: l) Hreads [] []).
        -- reflexivity.
        -- exact Hplain.
        -- apply Forall_forall. intros ? _. reflexivity.
        -- exact Hdist.
        -- constructor.
      * discriminate.
      * constructor; [now apply opt_line_body_no_newline | exact Hnn].
    + repeat constructor.
    + exact Hx.
    + apply ends_nonspace_join. constructor;
        [now apply opt_line_body_ends | exact Hends].
  - (* the dependsOn header and its first entry are read as one more item *)
    inversion Hds as [|? ? Hd Hds']; subst.
    cbn [map].
    set (X := str "    dependsOn:").
    set (tail := match map dep_line ds with
                 | [] => None
                 | _ :: _ => Some (items_text (map dep_line ds) None)
                 end).
    change ((repeat SP 6 ++ x) :: map opt_line l ++ X :: dep_line d :: map dep_line ds)
      with (((repeat SP 6 ++ x) :: map opt_line l) ++ X :: dep_line d :: map dep_line ds).
    rewrite <- items_text_pseudo. fold tail. rewrite <- app_comm_cons.
    destruct (plain_dep_facts _ Hd) as (_ & _ & _ & Hcolon & Hdend).
    destruct (regex_match_nested "options:" re_option_item option_item_line
                option_item_line_nonempty option_it_line P before 6 x
                (map opt_line l ++ [X ++ NL :: dep_line d]) tail
                HNL HSP HL HP Hb Hx) as (mr & Hr & Hg).
    { constructor; [now apply (opt_line_item kv)|].
      apply Forall_app. split; [exact Hitems|].
      constructor; [now apply pseudo_item | constructor]. }
    { intros cont. subst tail. destruct ds as [|d2 ds]; cbn [map items_text].
      - apply option_item_fails_end.
      - change (dep_line d2) with (repeat SP 6 ++ 45 :: SP :: d2).
        rewrite <- app_assoc. cbn [app].
        apply option_item_fails_dash. repeat constructor. }
    rewrite Hr, Hg. cbn [mbind result_bind].
    rewrite trim_taken.
    + rewrite app_comm_cons, join_pseudo.
      rewrite split_chr_join.
      * rewrite (parse_option_lines_opts _ (kv :: l) Hreads [] [X; dep_line d]).
        -- reflexivity.
        -- exact Hplain.
        -- apply Forall_forall. intros ? _. reflexivity.
        -- exact Hdist.
        -- constructor.
           ++ apply (regex_match_option_line_header (str "    dependsOn")).
              vm_compute. intuition discriminate.
           ++ constructor; [|constructor].
              apply regex_match_option_line_no_colon.
              change (dep_line d) with (str "      - " ++ d).
              intros Hin. apply in_app_or in Hin as [Hin | Hin]; [|now apply Hcolon].
              vm_compute in Hin. intuition discriminate.
      * discriminate.
      * rewrite <- app_comm_cons.
        constructor; [now apply opt_line_body_no_newline|].
        apply Forall_app. split; [exact Hnn|].
        constructor; [vm_compute; repeat constructor; discriminate|].
        constructor; [now apply dep_line_no_newline | constructor].
    + repeat constructor.
    + exact Hx.
    + apply ends_nonspace_join. constructor; [now apply opt_line_body_ends|].
      apply Forall_app. split; [exact Hends|].
      constructor; [|constructor].
      apply ends_nonspace_app. apply (ends_nonspace_app [NL]).
      now apply dep_line_ends.
Qed.

Lemma parse_options_absent block :
  includes block (str "options:") = false -> parse_options block = Ok None.
Proof.
  intros H. unfold parse_options.
  change re_options with (re_nested "options:" re_option_item).
  now rewrite (no_literal_no_match _ _ _ (leads_re_nested _ _) H).
Qed.

(** ** Attribute literals in the lines of a plain step *)

Lemma is_literal_In L : is_literal L = true -> In L attr_literals.
Proof.
  unfold is_literal. rewrite existsb_exists. intros (x & Hin & Hx).
  apply str_eqb_eq in Hx. now subst x.
Qed.

Lemma literal_facts L :
  is_literal L = true -> ~ In NL L /\ ~ In SP L /\ L <> [] /\ In COLON L.
Proof.
  intros H. apply is_literal_In in H. unfold attr_literals in H.
  cbn [map In] in H.
  repeat destruct H as [<- | H]; try contradiction;
    (split; [vm_compute; intuition discriminate|];
     split; [vm_compute; intuition discriminate|];
     split; [discriminate|]; vm_compute;
     repeat first [left; reflexivity | right]).
Qed.

Lemma clean_free v L : clean v = true -> is_literal L = true -> free L v.
Proof.
  unfold clean. rewrite forallb_forall. intros H HL.
  apply negb_true_iff, H. now apply is_literal_In.
Qed.

Lemma no_char_free c s L : In c L -> ~ In c s -> free L s.
Proof.
  intros HL Hs. unfold free. destruct (includes s L) eqn:E; [|reflexivity].
  apply includes_spec in E as (a & b & ->). exfalso. apply Hs.
  apply in_or_app. right. apply in_or_app. now left.
Qed.

Lemma key_line_free L hd v :
  ~ In SP L -> L <> [] -> free L hd -> free L v -> free L (hd ++ SP :: v).
Proof.
  unfold free. intros HSP HL Hh Hv. now rewrite includes_sep, Hh, Hv.
Qed.

Lemma indent_free L n v :
  ~ In SP L -> L <> [] -> free L v -> free L (repeat SP n ++ v).
Proof.
  unfold free. intros HSP HL Hv. induction n as [|n IH]; [exact Hv|].
  cbn [repeat app]. now rewrite includes_cons_sep.
Qed.

Lemma plain_text_clean v : plain_text v = true -> clean v = true.
Proof. unfold plain_text. rewrite !andb_true_iff. tauto. Qed.

Lemma plain_token_clean v : plain_token v = true -> clean v = true.
Proof. unfold plain_token. rewrite !andb_true_iff. tauto. Qed.

Lemma opt_ok_impl {A} (f g : A -> bool) o :
  (forall v, f v = true -> g v = true) -> opt_ok f o = true -> opt_ok g o = true.
Proof. destruct o; cbn; auto. Qed.

Lemma kindGroup_free step L :
  is_literal L = true -> free L (str "    kind:") ->
  plain_token (kind step) = true -> Forall (free L) (kindGroup step).
Proof.
  intros HL Hh Hk. destruct (literal_facts L HL) as (_ & HSP & Hne & _).
  constructor; [|constructor].
  change (str "    kind: " ++ kind step) with (str "    kind:" ++ SP :: kind step).
  apply key_line_free; auto. apply clean_free; auto using plain_token_clean.
Qed.

Lemma key_line_split key v :
  str "    " ++ str key ++ str ": " ++ v = (str "    " ++ str key ++ [COLON]) ++ SP :: v.
Proof. now rewrite <- !app_assoc. Qed.

Lemma textLine_free key o L :
  is_literal L = true -> free L (str "    " ++ str key ++ [COLON]) ->
  opt_ok clean o = true -> Forall (free L) (textLine key o).
Proof.
  intros HL Hh Ho. destruct (literal_facts L HL) as (_ & HSP & Hne & _).
  destruct o as [[|c v]|]; cbn [textLine]; constructor; [|constructor].
  rewrite key_line_split. apply key_line_free; auto. now apply clean_free.
Qed.

Lemma boolLine_free key o L :
  free L (str "    " ++ str key ++ str ": " ++ bool_str true) ->
  free L (str "    " ++ str key ++ str ": " ++ bool_str false) ->
  Forall (free L) (boolLine key o).
Proof. intros Ht Hf. destruct o as [[|]|]; repeat constructor; assumption. Qed.

Lemma includes_newline v :
  forallb (fun c => negb (c =? NL)) v = true -> includes v [NL] = false.
Proof.
  intros H. apply (no_char_free NL); [now left|].
  rewrite forallb_forall in H. intros Hin. apply H in Hin.
  now rewrite N.eqb_refl in Hin.
Qed.

Lemma sqlLines_plain v :
  plain_sql v = true -> sqlLines v = [str "    sql: " ++ v].
Proof.
  unfold plain_sql, plain_text. rewrite !andb_true_iff. intros [[[_ H] _] _].
  unfold sqlLines. now rewrite includes_newline.
Qed.

Lemma plain_sql_clean v : plain_sql v = true -> clean v = true.
Proof. unfold plain_sql. rewrite andb_true_iff. intros [H _]. now apply plain_text_clean. Qed.

Lemma sqlGroup_free step L :
  is_literal L = true -> free L (str "    sql:") ->
  opt_ok plain_sql (sql step) = true -> Forall (free L) (sqlGroup step).
Proof.
  intros HL Hh Ho. destruct (literal_facts L HL) as (_ & HSP & Hne & _).
  unfold sqlGroup. destruct (sql step) as [[|c v]|]; try constructor.
  cbn [opt_ok] in Ho. rewrite (sqlLines_plain _ Ho).
  constructor; [|constructor].
  change (str "    sql: " ++ c :: v) with (str "    sql:" ++ SP :: c :: v).
  apply key_line_free; auto. apply clean_free; auto using plain_sql_clean.
Qed.

Lemma plain_options_facts kv l :
  plain_options (Some (kv :: l)) = true ->
  Forall (fun kv => plain_key (fst kv) = true /\ plain_value (snd kv) = true) (kv :: l)
  /\ distinct_keys (kv :: l) = true.
Proof.
  cbn [plain_options]. rewrite andb_true_iff. intros [H Hd]. split; [|exact Hd].
  apply forallb_Forall in H. eapply Forall_impl; [exact H|].
  intros x Hx. now apply andb_true_iff in Hx.
Qed.

Lemma opt_line_free kv L :
  is_literal L = true ->
  plain_key (fst kv) = true -> plain_value (snd kv) = true -> free L (opt_line kv).
Proof.
  intros HL Hk Hv. destruct (literal_facts L HL) as (_ & HSP & Hne & _).
  destruct (plain_key_facts _ Hk) as (_ & _ & _ & Hck).
  destruct (plain_value_facts _ Hv) as (_ & _ & _ & Hcv).
  change (opt_line kv) with (repeat SP 6 ++ fst kv ++ [COLON] ++ SP :: snd kv).
  apply indent_free; auto. rewrite app_assoc.
  apply key_line_free; auto using clean_free.
Qed.

Lemma optionLines_free o L :
  is_literal L = true -> free L (str "    options:") ->
  plain_options o = true -> Forall (free L) (optionLines o).
Proof.
  intros HL Hh Ho. destruct o as [[|[k v] l]|]; try constructor; [exact Hh|].
  destruct (plain_options_facts _ _ Ho) as [Hall _].
  change (Forall (free L) (map opt_line ((k, v) :: l))).
  apply Forall_forall. intros x Hx.
  apply list_elem_of_In, in_map_iff in Hx as (kv & <- & Hin).
  rewrite Forall_forall in Hall.
  destruct (Hall kv) as [? ?]; [now apply list_elem_of_In|].
  now apply opt_line_free.
Qed.

Lemma dep_line_free d L :
  is_literal L = true -> plain_dep d = true -> free L (dep_line d).
Proof.
  intros HL Hd. destruct (literal_facts L HL) as (_ & _ & _ & Hcolon).
  destruct (plain_dep_facts _ Hd) as (_ & _ & _ & Hnc & _).
  apply (no_char_free COLON); [exact Hcolon|].
  change (dep_line d) with (str "      - " ++ d).
  intros Hin. apply in_app_or in Hin as [Hin | Hin]; [|now apply Hnc].
  vm_compute in Hin. intuition discriminate.
Qed.

Lemma dependsOnLines_free o L :
  is_literal L = true -> free L (str "    dependsOn:") ->
  plain_deps o = true -> Forall (free L) (dependsOnLines o).
Proof.
  intros HL Hh Ho.
  destruct (dependsOnLines_plain o Ho) as [[_ ->] | (d & ds & _ & Hds & ->)];
    constructor; [exact Hh|].
  apply Forall_forall. intros x Hx.
  apply list_elem_of_In, in_map_iff in Hx as (d' & <- & Hin).
  rewrite Forall_forall in Hds. apply dep_line_free; [exact HL|].
  now apply Hds, list_elem_of_In.
Qed.

Lemma head_free pre X L :
  pre = [] \/ pre = str "  - " ->
  is_literal L = true -> clean X = true ->
  includes (pre ++ str "id: " ++ X) L = false.
Proof.
  intros Hpre HL HX. destruct (literal_facts L HL) as (_ & HSP & Hne & _).
  change (str "id: " ++ X) with (str "id:" ++ SP :: X).
  rewrite app_assoc. apply key_line_free; auto using clean_free.
  apply is_literal_In in HL. unfold attr_literals in HL. cbn [map In] in HL.
  destruct Hpre as [-> | ->];
    repeat destruct HL as [<- | HL]; try contradiction; reflexivity.
Qed.

(** ** The attributes of a step, read from its lines *)

Lemma attr_lines_groups step : attr_lines step = concat (groups step).
Proof.
  unfold attr_lines, groups, kindGroup, sqlGroup. cbn [concat].
  now rewrite app_nil_r.
Qed.

Lemma free_concat L gs :
  Forall (Forall (free L)) gs -> Forall (free L) (concat gs).
Proof.
  induction 1 as [|g gs Hg _ IH]; cbn [concat]; [constructor|].
  apply Forall_app. now split.
Qed.

Lemma absent_block L P gs :
  ~ In NL L -> L <> [] -> includes P L = false ->
  Forall (Forall (free L)) gs ->
  includes (P ++ lines_text (concat gs)) L = false.
Proof.
  intros HNL HL HP Hgs. rewrite includes_text_lines, HP by assumption.
  apply includes_lines_text; auto. now apply free_concat.
Qed.

Lemma Forall_free_app L gs1 g gs2 :
  Forall (Forall (free L)) gs1 -> Forall (free L) g ->
  Forall (Forall (free L)) gs2 ->
  Forall (Forall (free L)) (gs1 ++ g :: gs2).
Proof. intros H1 Hg H2. apply Forall_app. split; [exact H1 | now constructor]. Qed.

Lemma text_field k keyc neg items post P gs1 o gs2 :
  str keyc = str k ++ [COLON] ->
  is_literal (str keyc) = true ->
  includes P (str keyc) = false ->
  Forall (Forall (free (str keyc))) gs1 ->
  Forall (Forall (free (str keyc))) gs2 ->
  cls_has neg items NL = false ->
  reads_value neg items post o ->
  field (re_attr keyc (Cls neg items)) post
        (P ++ lines_text (concat (gs1 ++ textLine k o :: gs2)))
  = Ok o.
Proof.
  intros Hkey HL HP H1 H2 Hcls Ho.
  destruct (literal_facts _ HL) as (HNL & HSP & Hne & _).
  destruct o as [[|c w]|].
  - destruct Ho as [[] _].
  - destruct Ho as (Hc & Hv & Hpost).
    rewrite concat_app. cbn [concat textLine app].
    replace (str "    " ++ str k ++ str ": " ++ c :: w)
      with (str "    " ++ str keyc ++ SP :: c :: w)
      by (rewrite Hkey, <- app_assoc; reflexivity).
    rewrite field_present; auto; try (now apply (free_concat (str keyc))).
    now rewrite Hpost.
  - apply field_absent, absent_block; auto.
    apply Forall_free_app; auto.
Qed.

Lemma flag_field k keyc P gs1 o gs2 :
  str keyc = str k ++ [COLON] ->
  is_literal (str keyc) = true ->
  includes P (str keyc) = false ->
  Forall (Forall (free (str keyc))) gs1 ->
  Forall (Forall (free (str keyc))) gs2 ->
  bool_field (re_bool keyc)
             (P ++ lines_text (concat (gs1 ++ boolLine k o :: gs2)))
  = Ok o.
Proof.
  intros Hkey HL HP H1 H2.
  destruct (literal_facts _ HL) as (HNL & HSP & Hne & _).
  destruct o as [b|].
  - rewrite concat_app. cbn [concat boolLine app].
    replace (str "    " ++ str k ++ str ": " ++ bool_str b)
      with (str "    " ++ str keyc ++ SP :: bool_str b)
      by (rewrite Hkey, <- app_assoc; reflexivity).
    rewrite bool_field_present; auto; now apply (free_concat (str keyc)).
  - apply bool_field_absent, absent_block; auto.
    apply Forall_free_app; auto.
Qed.

Lemma sql_field P gs1 step gs2 :
  let L := str "sql:" in
  includes P L = false ->
  Forall (Forall (free L)) gs1 ->
  Forall (Forall (free L)) gs2 ->
  opt_ok plain_sql (sql step) = true ->
  parse_sql (P ++ lines_text (concat (gs1 ++ sqlGroup step :: gs2)))
  = Ok (sql step).
Proof.
  intros L HP H1 H2 Ho. subst L. unfold sqlGroup.
  destruct (sql step) as [[|c w]|]; [discriminate | |].
  - cbn [opt_ok] in Ho. rewrite (sqlLines_plain _ Ho).
    rewrite concat_app. cbn [concat app].
    change (str "    sql: " ++ c :: w) with (str "    " ++ str "sql:" ++ SP :: c :: w).
    apply parse_sql_present; auto using free_concat.
  - apply parse_sql_absent, absent_block;
      [vm_compute; intuition discriminate | discriminate | exact HP
      | apply Forall_free_app; auto].
Qed.

Lemma options_field P gs1 o deps :
  let L := str "options:" in
  includes P L = false ->
  Forall (Forall (free L)) gs1 ->
  plain_options o = true -> plain_deps deps = true ->
  parse_options
    (P ++ lines_text (concat (gs1 ++ [optionLines o; dependsOnLines deps])))
  = Ok o.
Proof.
  intros L HP H1 Ho Hd. subst L.
  destruct o as [[|[k v] l]|]; [discriminate | |].
  - destruct (plain_options_facts _ _ Ho) as [Hall Hdist].
    rewrite concat_app. cbn [concat optionLines]. rewrite app_nil_r.
    rewrite <- app_comm_cons.
    change (str "    options:") with (str "    " ++ str "options:").
    change (map (fun kv => str "      " ++ fst kv ++ str ": " ++ snd kv) ((k, v) :: l))
      with (map opt_line ((k, v) :: l)).
    apply parse_options_present; auto using free_concat.
  - apply parse_options_absent, absent_block;
      [vm_compute; intuition discriminate | discriminate | exact HP|].
    apply Forall_free_app; auto.
    constructor; [|constructor].
    apply dependsOnLines_free; auto; reflexivity.
Qed.

Lemma dependsOn_field P gs1 deps :
  let L := str "dependsOn:" in
  includes P L = false ->
  Forall (Forall (free L)) gs1 ->
  plain_deps deps = true ->
  parse_dependsOn (P ++ lines_text (concat (gs1 ++ [dependsOnLines deps])))
  = Ok deps.
Proof.
  intros L HP H1 Hd. subst L.
  destruct (dependsOnLines_plain deps Hd) as [[-> ->] | (d & ds & -> & Hds & ->)].
  - apply parse_dependsOn_absent, absent_block;
      [vm_compute; intuition discriminate | discriminate | exact HP
      | apply Forall_free_app; auto].
  - rewrite concat_app. cbn [concat]. rewrite app_nil_r.
    change (str "    dependsOn:") with (str "    " ++ str "dependsOn:").
    apply parse_dependsOn_present; auto using free_concat.
Qed.

(** ** A whole step *)

Lemma plain_token_facts v :
  plain_token v = true ->
  exists c w, v = c :: w /\ is_space c = false
              /\ Forall (fun x => cls_has true [CSpace; CChr 10] x = true) (c :: w).
Proof.
  unfold plain_token. rewrite !andb_true_iff. intros [[Hne Hsp] _].
  destruct v as [|c w]; [discriminate|]. exists c, w. split; [reflexivity|].
  apply forallb_Forall in Hsp. split.
  - inversion Hsp as [|? ? Hc _]; subst. now apply negb_true_iff in Hc.
  - eapply Forall_impl; [exact Hsp|]. intros x Hx. apply negb_true_iff in Hx.
    unfold cls_has. cbn [existsb citem_has]. rewrite Hx. cbn [orb].
    destruct (x =? 10) eqn:E; [|reflexivity].
    apply N.eqb_eq in E. subst x. discriminate.
Qed.

Lemma plain_token_reads o :
  opt_ok plain_token o = true ->
  reads_value true [CSpace; CChr 10] (fun v => v) o.
Proof.
  destruct o as [v|]; [|constructor]. cbn [opt_ok reads_value]. intros H.
  destruct (plain_token_facts _ H) as (c & w & -> & Hc & Hall). now repeat split.
Qed.

Lemma plain_text_reads o :
  opt_ok plain_text o = true -> reads_value true [CChr 10] trim o.
Proof.
  destruct o as [v|]; [|constructor]. cbn [opt_ok reads_value].
  unfold plain_text. rewrite !andb_true_iff. intros [[Ht Hnl] _].
  split; [|split].
  - unfold trimmed in Ht. destruct v as [|c v]; [discriminate|].
    apply andb_true_iff in Ht as [H _]. now apply negb_true_iff in H.
  - apply forallb_Forall in Hnl. eapply Forall_impl; [exact Hnl|].
    intros x Hx. unfold cls_has. cbn [existsb citem_has].
    now rewrite orb_false_r.
  - now apply trim_trimmed.
Qed.

Lemma id_match pre X ls :
  pre = [] \/ pre = str "  - " ->
  plain_token X = true ->
  exists mr, regex_match re_id (pre ++ str "id: " ++ X ++ lines_text ls) = Some mr
             /\ grp 1 mr = Ok X.
Proof.
  intros Hpre HX. destruct (plain_token_facts _ HX) as (c & w & -> & Hc & Hall).
  change re_id with (re_attr "id:" (Cls true [CSpace; CChr 10])).
  change (str "id: " ++ (c :: w) ++ lines_text ls)
    with (str "id:" ++ SP :: (c :: w) ++ lines_text ls).
  destruct Hpre as [-> | ->].
  - destruct (match_here_attr "id:" true [CSpace; CChr 10] None c w (lines_text ls)
                Hc Hall) as (st' & Hm & Hcaps & _); [now apply stops_lines_text|].
    destruct (regex_match_start _ _ _ Hm) as (mr & Hr & Hc' & _).
    exists mr. split; [exact Hr|]. unfold grp. now rewrite Hc', Hcaps.
  - destruct (match_here_attr "id:" true [CSpace; CChr 10] (Some SP) c w (lines_text ls)
                Hc Hall) as (st' & Hm & Hcaps & _); [now apply stops_lines_text|].
    assert (HSP : ~ In SP (str "id:")) by (vm_compute; intuition discriminate).
    assert (HA : includes (str "  -") (str "id:") = false) by reflexivity.
    destruct (regex_match_at _ (str "id:") (str "  -") SP _ st'
                (leads_re_attr "id:" _) HSP HA Hm) as (mr & Hr & Hc' & _).
    exists mr. split; [exact Hr|]. unfold grp. now rewrite Hc', Hcaps.
Qed.

Lemma field_match r block v :
  field r (fun v => v) block = Ok (Some v) ->
  exists mr, regex_match r block = Some mr /\ grp 1 mr = Ok v.
Proof.
  unfold field. destruct (regex_match r block) as [mr|]; [|discriminate].
  destruct (grp 1 mr) as [v'|] eqn:E; [|discriminate].
  cbn [mbind result_bind]. intros H. inversion H; subst. eauto.
Qed.

Lemma kind_match pre X K ls :
  pre = [] \/ pre = str "  - " ->
  plain_id X = true -> plain_token K = true ->
  exists mr,
    regex_match re_kind
      (pre ++ str "id: " ++ X ++ lines_text ((str "    kind: " ++ K) :: ls)) = Some mr
    /\ grp 1 mr = Ok K.
Proof.
  intros Hpre HX HK. apply field_match.
  destruct (plain_token_facts _ HK) as (c & w & -> & Hc & Hall).
  change re_kind with (re_attr "kind:" (Cls true [CSpace; CChr 10])).
  rewrite !app_assoc. rewrite <- (app_assoc pre).
  change (str "    kind: " ++ c :: w) with (str "    " ++ str "kind:" ++ SP :: c :: w).
  apply (field_present "kind:" true [CSpace; CChr 10] (fun v => v) _ [] c w ls);
    try (vm_compute; intuition discriminate); auto.
  unfold plain_id in HX. apply andb_true_iff in HX as [_ HX].
  apply negb_true_iff in HX.
  change (str "id: " ++ X) with (str "id:" ++ SP :: X). rewrite app_assoc.
  apply key_line_free; try (vm_compute; intuition discriminate); auto.
  destruct Hpre as [-> | ->]; reflexivity.
Qed.

Ltac free_group :=
  first
    [ apply kindGroup_free; [reflexivity | reflexivity | assumption]
    | apply textLine_free; [reflexivity | reflexivity | assumption]
    | apply sqlGroup_free; [reflexivity | reflexivity | assumption]
    | apply boolLine_free; reflexivity
    | apply optionLines_free; [reflexivity | reflexivity | assumption]
    | apply dependsOnLines_free; [reflexivity | reflexivity | assumption] ].

Ltac free_groups :=
  unfold groups; cbn [firstn skipn];
  repeat match goal with
         | |- Forall (Forall _) [] => constructor
         | |- Forall (Forall _) (_ :: _) => constructor; [free_group|]
         end.

(** The parser reads a plain step back from its text, whether or not
    the dash of the entry is still in front of it. *)
Lemma parseStepBlock_plain pre s :
  pre = [] \/ pre = str "  - " ->
  plain_step s = true ->
  parseStepBlock (pre ++ core s) = Ok (Some s).
Proof.
  intros Hpre Hs. unfold plain_step in Hs. rewrite !andb_true_iff in Hs.
  destruct Hs as (((((((((((((Hid & Hkind) & Hsd) & Hdesc) & Hfmt) & Hsql) & Hpath)
                            & Hsrc) & Hopts) & Hschema) & _) & _) & Hdeps) & Hpos).
  assert (Hidt : plain_token (id s) = true).
  { unfold plain_id in Hid. now apply andb_true_iff in Hid as [? _]. }
  pose proof (plain_token_clean _ Hidt) as Hidc.
  pose proof (opt_ok_impl _ _ _ plain_text_clean Hsd) as Hsd'.
  pose proof (opt_ok_impl _ _ _ plain_token_clean Hfmt) as Hfmt'.
  pose proof (opt_ok_impl _ _ _ plain_text_clean Hpath) as Hpath'.
  pose proof (opt_ok_impl _ _ _ plain_token_clean Hsrc) as Hsrc'.
  pose proof (opt_ok_impl _ _ _ plain_text_clean Hschema) as Hschema'.
  set (P := pre ++ str "id: " ++ id s).
  assert (Hblock : pre ++ core s = P ++ lines_text (concat (groups s))).
  { unfold core, P. now rewrite attr_lines_groups, <- !app_assoc. }
  assert (HP : forall L, is_literal L = true -> includes P L = false).
  { intros L HL. now apply head_free. }
  destruct (id_match pre (id s) (attr_lines s) Hpre Hidt) as (idMatch & Eid & Gid).
  destruct (kind_match pre (id s) (kind s) (tl (attr_lines s)) Hpre Hid Hkind)
    as (kindMatch & Ekind & Gkind).
  unfold parseStepBlock.
  change (pre ++ str "id: " ++ id s ++ lines_text (attr_lines s))
    with (pre ++ core s) in Eid.
  change (pre ++ str "id: " ++ id s
          ++ lines_text ((str "    kind: " ++ kind s) :: tl (attr_lines s)))
    with (pre ++ core s) in Ekind.
  rewrite Eid, Ekind, Gid, Gkind. cbn [mbind result_bind].
  rewrite Hblock.
  assert (F1 : field re_shortDesc trim (P ++ lines_text (concat (groups s)))
               = Ok (shortDesc s)).
  { apply (text_field "shortDesc" "shortDesc:" true [CChr 10] trim P
             (firstn 1 (groups s)) (shortDesc s) (skipn 2 (groups s)));
      [reflexivity | reflexivity | now apply HP | free_groups | free_groups
      | reflexivity | now apply plain_text_reads]. }
  assert (F2 : field re_desc trim (P ++ lines_text (concat (groups s))) = Ok None).
  { apply (field_absent "desc:"), absent_block;
      [vm_compute; intuition discriminate | discriminate | now apply HP
      | free_groups]. }
  assert (F3 : field re_format (fun v => v) (P ++ lines_text (concat (groups s)))
               = Ok (format s)).
  { apply (text_field "format" "format:" true [CSpace; CChr 10] (fun v => v) P
             (firstn 3 (groups s)) (format s) (skipn 4 (groups s)));
      [reflexivity | reflexivity | now apply HP | free_groups | free_groups
      | reflexivity | now apply plain_token_reads]. }
  assert (F4 : field re_source (fun v => v) (P ++ lines_text (concat (groups s)))
               = Ok (source s)).
  { apply (text_field "source" "source:" true [CSpace; CChr 10] (fun v => v) P
             (firstn 2 (groups s)) (source s) (skipn 3 (groups s)));
      [reflexivity | reflexivity | now apply HP | free_groups | free_groups
      | reflexivity | now apply plain_token_reads]. }
  assert (F5 : field re_path trim (P ++ lines_text (concat (groups s)))
               = Ok (path s)).
  { apply (text_field "path" "path:" true [CChr 10] trim P
             (firstn 4 (groups s)) (path s) (skipn 5 (groups s)));
      [reflexivity | reflexivity | now apply HP | free_groups | free_groups
      | reflexivity | now apply plain_text_reads]. }
  assert (F6 : field re_schema trim (P ++ lines_text (concat (groups s)))
               = Ok (schema s)).
  { apply (text_field "schema" "schema:" true [CChr 10] trim P
             (firstn 8 (groups s)) (schema s) (skipn 9 (groups s)));
      [reflexivity | reflexivity | now apply HP | free_groups | free_groups
      | reflexivity | now apply plain_text_reads]. }
  assert (F7 : bool_field re_cache (P ++ lines_text (concat (groups s)))
               = Ok (cache s)).
  { apply (flag_field "cache" "cache:" P
             (firstn 6 (groups s)) (cache s) (skipn 7 (groups s)));
      [reflexivity | reflexivity | now apply HP | free_groups | free_groups]. }
  assert (F8 : bool_field re_show (P ++ lines_text (concat (groups s)))
               = Ok (show s)).
  { apply (flag_field "show" "show:" P
             (firstn 7 (groups s)) (show s) (skipn 8 (groups s)));
      [reflexivity | reflexivity | now apply HP | free_groups | free_groups]. }
  assert (F9 : parse_sql (P ++ lines_text (concat (groups s))) = Ok (sql s)).
  { apply (sql_field P (firstn 5 (groups s)) s (skipn 6 (groups s)));
      [now apply HP | free_groups | free_groups | exact Hsql]. }
  assert (F10 : parse_options (P ++ lines_text (concat (groups s)))
                = Ok (options s)).
  { apply (options_field P (firstn 9 (groups s)) (options s) (dependsOn s));
      [now apply HP | free_groups | exact Hopts | exact Hdeps]. }
  assert (F11 : parse_dependsOn (P ++ lines_text (concat (groups s)))
                = Ok (dependsOn s)).
  { apply (dependsOn_field P (firstn 10 (groups s)) (dependsOn s));
      [now apply HP | free_groups | exact Hdeps]. }
  rewrite F1, F2, F3, F4, F5, F6, F7, F8, F9, F10, F11.
  cbn [mbind result_bind].
  destruct s as [i k sd d f q pa so o sc ca sh dp po]. cbn in *.
  destruct d; [discriminate|]. destruct po; [discriminate|]. reflexivity.
Qed.

(** ** The lines of a plain step *)

Lemma attr_line_key key x kr v :
  str key = x :: kr -> is_space x = false -> x <> 45 ->
  no_newline (str key) -> no_newline v -> ends_nonspace v ->
  attr_line (str "    " ++ str key ++ str ": " ++ v).
Proof.
  intros Hkey Hx Hd Hk Hv He. split; [|split].
  - apply Forall_app. split; [repeat constructor; discriminate|].
    apply Forall_app. split; [exact Hk|].
    apply Forall_app. split; [repeat constructor; discriminate | exact Hv].
  - now do 3 apply ends_nonspace_app.
  - exists 3%nat, x, (kr ++ str ": " ++ v). rewrite Hkey.
    split; [reflexivity|]. split; [exact Hx|]. intros ->. contradiction.
Qed.

Lemma attr_line_header key x kr :
  str key = x :: kr -> is_space x = false -> x <> 45 ->
  no_newline (str key) ->
  attr_line (str "    " ++ str key ++ [COLON]).
Proof.
  intros Hkey Hx Hd Hk. split; [|split].
  - apply Forall_app. split; [repeat constructor; discriminate|].
    apply Forall_app. split; [exact Hk | repeat constructor; discriminate].
  - do 2 apply ends_nonspace_app. exists [], COLON. now split.
  - exists 3%nat, x, (kr ++ [COLON]). rewrite Hkey.
    split; [reflexivity|]. split; [exact Hx|]. intros ->. contradiction.
Qed.

Lemma plain_text_line v : plain_text v = true -> no_newline v /\ ends_nonspace v.
Proof.
  unfold plain_text. rewrite !andb_true_iff. intros [[Ht Hnl] _]. split.
  - apply forallb_Forall in Hnl. eapply Forall_impl; [exact Hnl|].
    intros x Hx ->. discriminate.
  - now apply trimmed_ends.
Qed.

Lemma plain_token_line v : plain_token v = true -> no_newline v /\ ends_nonspace v.
Proof.
  unfold plain_token. rewrite !andb_true_iff. intros [[Hne Hsp] _].
  apply forallb_Forall in Hsp. split.
  - eapply Forall_impl; [exact Hsp|]. intros x Hx ->. discriminate.
  - destruct v as [|c v]; [discriminate|].
    exists (removelast (c :: v)), (List.last (c :: v) 0).
    split; [now apply app_removelast_last|].
    rewrite Forall_forall in Hsp. apply negb_true_iff, Hsp, list_elem_of_In.
    destruct (exists_last (l := c :: v)) as (a & z & E); [discriminate|].
    rewrite E, last_last. apply in_or_app. right. now left.
Qed.

Ltac line_side :=
  first [ reflexivity | discriminate | assumption
        | vm_compute; repeat constructor; discriminate ].

Lemma kindGroup_lines step :
  plain_token (kind step) = true -> Forall attr_line (kindGroup step).
Proof.
  intros H. destruct (plain_token_line _ H) as [Hn He].
  constructor; [|constructor].
  change (str "    kind: " ++ kind step)
    with (str "    " ++ str "kind" ++ str ": " ++ kind step).
  apply (attr_line_key "kind" 107 (str "ind")); line_side.
Qed.

Lemma textLine_lines key x kr (ok : jsstring -> bool) o :
  str key = x :: kr -> is_space x = false -> x <> 45 -> no_newline (str key) ->
  (forall v, ok v = true -> no_newline v /\ ends_nonspace v) ->
  opt_ok ok o = true -> Forall attr_line (textLine key o).
Proof.
  intros Hkey Hx Hd Hk Hok Ho. destruct o as [[|c v]|]; try constructor; [|constructor].
  destruct (Hok _ Ho) as [Hn He]. now apply (attr_line_key key x kr).
Qed.

Lemma boolLine_lines key x kr o :
  str key = x :: kr -> is_space x = false -> x <> 45 -> no_newline (str key) ->
  Forall attr_line (boolLine key o).
Proof.
  intros Hkey Hx Hd Hk. destruct o as [b|]; constructor; [|constructor].
  apply (attr_line_key key x kr); auto.
  - destruct b; vm_compute; repeat constructor; discriminate.
  - destruct b; [exists (str "tru"), 101 | exists (str "fals"), 101]; now split.
Qed.

Lemma sqlGroup_lines step :
  opt_ok plain_sql (sql step) = true -> Forall attr_line (sqlGroup step).
Proof.
  intros Ho. unfold sqlGroup. destruct (sql step) as [[|c v]|]; try constructor.
  cbn [opt_ok] in Ho. rewrite (sqlLines_plain _ Ho).
  assert (Ht : plain_text (c :: v) = true).
  { unfold plain_sql in Ho. now apply andb_true_iff in Ho as [? _]. }
  destruct (plain_text_line _ Ht) as [Hn He].
  constructor; [|constructor].
  change (str "    sql: " ++ c :: v)
    with (str "    " ++ str "sql" ++ str ": " ++ c :: v).
  apply (attr_line_key "sql" 115 (str "ql")); line_side.
Qed.

Lemma opt_line_attr kv :
  plain_key (fst kv) = true -> plain_value (snd kv) = true -> attr_line (opt_line kv).
Proof.
  intros Hk Hv. split; [now apply opt_line_no_newline|].
  split; [now apply opt_line_ends|].
  destruct (plain_key_facts _ Hk) as (Hne & Ha & _).
  destruct (fst kv) as [|x kr] eqn:E; [congruence|].
  inversion Ha as [|? ? Hx _]; subst.
  exists 5%nat, x, (kr ++ str ": " ++ snd kv). split.
  - unfold opt_line. now rewrite E.
  - split; [now apply alpha_not_space|]. intros ->. discriminate.
Qed.

Lemma optionLines_lines o :
  plain_options o = true -> Forall attr_line (optionLines o).
Proof.
  intros Ho. destruct o as [[|[k v] l]|]; try constructor.
  - apply (attr_line_header "options" 111 (str "ptions")); line_side.
  - destruct (plain_options_facts _ _ Ho) as [Hall _].
    change (Forall attr_line (map opt_line ((k, v) :: l))).
    apply Forall_forall. intros x Hx.
    apply list_elem_of_In, in_map_iff in Hx as (kv & <- & Hin).
    rewrite Forall_forall in Hall.
    destruct (Hall kv) as [? ?]; [now apply list_elem_of_In|].
    now apply opt_line_attr.
Qed.

Lemma dep_line_attr d : plain_dep d = true -> attr_line (dep_line d).
Proof.
  intros Hd. split; [now apply dep_line_no_newline|].
  split; [now apply dep_line_ends|].
  destruct (plain_dep_facts _ Hd) as (_ & Hs & _ & Hc & _).
  exists 5%nat, 45, (SP :: d). split; [reflexivity|]. split; [reflexivity|].
  intros _. now exists d.
Qed.

Lemma dependsOnLines_lines o :
  plain_deps o = true -> Forall attr_line (dependsOnLines o).
Proof.
  intros Ho.
  destruct (dependsOnLines_plain o Ho) as [[_ ->] | (d & ds & _ & Hds & ->)];
    constructor.
  - apply (attr_line_header "dependsOn" 100 (str "ependsOn")); line_side.
  - apply Forall_forall. intros x Hx.
    apply list_elem_of_In, in_map_iff in Hx as (d' & <- & Hin).
    rewrite Forall_forall in Hds. now apply dep_line_attr, Hds, list_elem_of_In.
Qed.

Lemma Forall_concat_groups {A} (Q : A -> Prop) gs :
  Forall (Forall Q) gs -> Forall Q (concat gs).
Proof.
  induction 1 as [|g gs Hg _ IH]; cbn [concat]; [constructor|].
  apply Forall_app. now split.
Qed.

Lemma plain_attr_lines s :
  plain_step s = true -> Forall attr_line (attr_lines s).
Proof.
  intros Hs. unfold plain_step in Hs. rewrite !andb_true_iff in Hs.
  destruct Hs as (((((((((((((Hid & Hkind) & Hsd) & Hdesc) & Hfmt) & Hsql) & Hpath)
                            & Hsrc) & Hopts) & Hschema) & _) & _) & Hdeps) & Hpos).
  rewrite attr_lines_groups. apply Forall_concat_groups. unfold groups.
  repeat match goal with |- Forall (Forall _) _ => constructor end.
  - now apply kindGroup_lines.
  - apply (textLine_lines "shortDesc" 115 (str "hortDesc") plain_text);
      first [line_side | apply plain_text_line].
  - apply (textLine_lines "source" 115 (str "ource") plain_token);
      first [line_side | apply plain_token_line].
  - apply (textLine_lines "format" 102 (str "ormat") plain_token);
      first [line_side | apply plain_token_line].
  - apply (textLine_lines "path" 112 (str "ath") plain_text);
      first [line_side | apply plain_text_line].
  - now apply sqlGroup_lines.
  - apply (boolLine_lines "cache" 99 (str "ache")); line_side.
  - apply (boolLine_lines "show" 115 (str "how")); line_side.
  - apply (textLine_lines "schema" 115 (str "chema") plain_text);
      first [line_side | apply plain_text_line].
  - now apply optionLines_lines.
  - now apply dependsOnLines_lines.
Qed.

(** ** The text of a document *)

Lemma stepLines_attr s :
  stepLines s = (str "  - id: " ++ id s) :: attr_lines s ++ [[]].
Proof.
  unfold stepLines, attr_lines. cbn [app]. now rewrite <- !app_assoc.
Qed.

Lemma lines_text_stepLines s : lines_text (stepLines s) = NL :: entry s ++ [NL].
Proof.
  rewrite stepLines_attr. unfold entry, core.
  change (lines_text ((str "  - id: " ++ id s) :: attr_lines s ++ [[]]))
    with (NL :: (str "  - " ++ str "id: " ++ id s) ++ lines_text (attr_lines s ++ [[]])).
  rewrite lines_text_app. cbn [lines_text flat_map].
  now rewrite <- !app_assoc.
Qed.

Lemma lines_text_steps s rest :
  lines_text (flat_map stepLines (s :: rest)) = NL :: body_text s rest ++ [NL].
Proof.
  unfold body_text. revert s. induction rest as [|s' rest IH]; intros s.
  - cbn [flat_map]. now rewrite !app_nil_r, lines_text_stepLines.
  - change (flat_map stepLines (s :: s' :: rest))
      with (stepLines s ++ flat_map stepLines (s' :: rest)).
    rewrite lines_text_app, IH, lines_text_stepLines.
    cbn [flat_map]. unfold step_sep, entry at 3.
    rewrite <- !app_assoc. cbn [app]. now rewrite <- !app_assoc.
Qed.

Lemma attr_lines_nonempty s : attr_lines s <> [].
Proof. unfold attr_lines. discriminate. Qed.

Lemma lines_text_ends lines :
  lines <> [] -> Forall ends_nonspace lines -> ends_nonspace (lines_text lines).
Proof.
  intros Hne Hall. destruct (exists_last Hne) as (a & z & ->).
  rewrite lines_text_app. apply ends_nonspace_app.
  apply Forall_app in Hall as [_ Hz]. inversion Hz as [|? ? He _]; subst.
  cbn [lines_text flat_map]. rewrite app_nil_r.
  now apply (ends_nonspace_app [NL]).
Qed.

Lemma core_ends s : plain_step s = true -> ends_nonspace (core s).
Proof.
  intros Hs. unfold core. do 2 apply ends_nonspace_app.
  apply lines_text_ends; [apply attr_lines_nonempty|].
  eapply Forall_impl; [now apply plain_attr_lines|].
  intros l Hl. apply Hl.
Qed.

Lemma body_text_ends s rest :
  Forall (fun s => plain_step s = true) (s :: rest) ->
  ends_nonspace (body_text s rest).
Proof.
  unfold body_text. intros H. inversion H as [|? ? Hs Hrest]; subst.
  destruct (exists_last (l := s :: rest)) as (a & z & E); [discriminate|].
  assert (Hz : plain_step z = true).
  { rewrite Forall_forall in H. apply H, list_elem_of_In. rewrite E.
    apply in_or_app. right. now left. }
  destruct rest as [|s' rest'].
  - cbn [flat_map]. rewrite app_nil_r. apply ends_nonspace_app. now apply core_ends.
  - apply ends_nonspace_app.
    destruct (exists_last (l := s' :: rest')) as (a' & z' & E'); [discriminate|].
    assert (Hz' : plain_step z' = true).
    { rewrite Forall_forall in Hrest. apply Hrest, list_elem_of_In. rewrite E'.
      apply in_or_app. right. now left. }
    rewrite E', flat_map_app. cbn [flat_map]. rewrite app_nil_r.
    do 2 apply ends_nonspace_app. now apply core_ends.
Qed.

(** The serialized text of a non-empty list of plain steps: the header
    and, after a newline, the text of the steps. *)
Lemma stepsToYaml_steps s rest pid pdesc :
  Forall (fun s => plain_step s = true) (s :: rest) ->
  stepsToYaml (s :: rest) pid pdesc
  = join [NL] (headerLines pid pdesc) ++ NL :: body_text s rest.
Proof.
  intros H. rewrite stepsToYaml_trimEnd. unfold yamlLines.
  destruct (headerLines_last pid pdesc) as [l Hl]. rewrite Hl.
  rewrite <- app_assoc. cbn [app]. rewrite !join_app_cons.
  change (flat_map (fun y => [NL] ++ y) (flat_map stepLines (s :: rest)))
    with (lines_text (flat_map stepLines (s :: rest))).
  rewrite lines_text_steps. cbn [flat_map]. rewrite app_nil_r.
  destruct (body_text_ends s rest H) as (a & c & -> & Hc).
  rewrite <- !app_assoc. cbn [app].
  assert (E : forall Y Z : jsstring,
             Y ++ str "steps" ++ COLON :: NL :: a ++ Z
             = (Y ++ str "steps" ++ COLON :: NL :: a) ++ Z)
    by (intros; rewrite <- !app_assoc; reflexivity).
  rewrite !E. change [c; NL] with (c :: [NL]).
  now rewrite trimEnd_app_nonspace by exact Hc.
Qed.

(** ** The steps section *)

Lemma no_top_level_at w1 c w2 :
  no_top_level (w1 ++ c :: w2) = true ->
  (c =? NL) && match w2 with
               | x :: _ => cls_has false [CRange 97 122; CRange 65 90] x
               | [] => false
               end = false.
Proof.
  induction w1 as [|x w1 IH]; cbn [app no_top_level]; intros H;
    apply andb_true_iff in H as [H1 H2].
  - now apply negb_true_iff in H1.
  - now apply IH.
Qed.

Lemma steps_lookahead_inside p c w2 cs :
  (c =? NL) && match w2 with
               | x :: _ => cls_has false [CRange 97 122; CRange 65 90] x
               | [] => false
               end = false ->
  m (Look (Alt (Chr 10 · alpha) Eos)) Some (MState p (c :: w2) cs) = None.
Proof.
  intros H. cbn [m step_if rest caps prev].
  change (10 =? c) with (NL =? c). rewrite N.eqb_sym.
  destruct (c =? NL); [|reflexivity].
  cbn [andb] in H. destruct w2 as [|x w2]; [reflexivity|].
  unfold alpha. cbn [m step_if rest]. now rewrite H.
Qed.

(** The lazy capture of the steps section runs to the end of a text in
    which no line starts with a letter. *)
Lemma ends_steps_capture body :
  no_top_level body = true ->
  ends_at (m (Group 1 (Star false any)) (m (Look (Alt (Chr 10 · alpha) Eos)) Some))
          body [] [] [(1%nat, body)].
Proof.
  intros H p. unfold ends. rewrite m_Group.
  change (m (Star false any) ?k (MState p body []))
    with (star_loop (m any) false k (length body) (MState p body [])).
  rewrite star_any_lazy.
  - eexists. split; [reflexivity|]. cbn [rest caps prev].
    split; [reflexivity|]. unfold consumed. cbn [rest length].
    now rewrite Nat.sub_0_r, firstn_all.
  - reflexivity.
  - intros w1 c w2 E. cbn beta. cbn [prev rest caps].
    apply steps_lookahead_inside. apply (no_top_level_at w1). now rewrite <- E.
Qed.

Lemma no_top_level_app a b :
  no_top_level a = true -> no_top_level b = true ->
  match b with
  | x :: _ => cls_has false [CRange 97 122; CRange 65 90] x = false
  | [] => True
  end ->
  no_top_level (a ++ b) = true.
Proof.
  intros Ha Hb Hx. induction a as [|c a IH]; [exact Hb|].
  cbn [app no_top_level] in *. apply andb_true_iff in Ha as [H1 H2].
  rewrite (IH H2), andb_true_r.
  destruct a as [|y a]; [|exact H1]. cbn [app].
  destruct b as [|x b]; [exact H1|]. rewrite Hx. now rewrite andb_false_r.
Qed.

Lemma no_top_level_line l : no_newline l -> no_top_level l = true.
Proof.
  induction 1 as [|c l Hc _ IH]; [reflexivity|]. cbn [no_top_level].
  rewrite IH, andb_true_r. apply N.eqb_neq in Hc. now rewrite Hc.
Qed.

Lemma no_top_level_lines lines :
  Forall attr_line lines -> no_top_level (lines_text lines) = true.
Proof.
  induction 1 as [|l lines Hl _ IH]; [reflexivity|].
  cbn [lines_text flat_map]. fold (lines_text lines).
  destruct Hl as (Hn & _ & n & x & r & -> & _).
  apply (no_top_level_app (NL :: _)); [|exact IH|].
  - change (no_top_level (NL :: repeat SP (S n) ++ x :: r))
      with (no_top_level (repeat SP n ++ x :: r)).
    apply no_top_level_line. now inversion Hn.
  - destruct lines; cbn; auto.
Qed.

Lemma no_top_level_cons c x t :
  cls_has false [CRange 97 122; CRange 65 90] x = false ->
  no_top_level (x :: t) = true -> no_top_level (c :: x :: t) = true.
Proof.
  intros Hx Ht. change (no_top_level (c :: x :: t))
    with (negb ((c =? NL) && cls_has false [CRange 97 122; CRange 65 90] x)
          && no_top_level (x :: t)).
  now rewrite Hx, andb_false_r, Ht.
Qed.

Lemma plain_id_line s : plain_step s = true -> no_newline (id s).
Proof.
  unfold plain_step, plain_id. rewrite !andb_true_iff. intros H.
  now apply plain_token_line.
Qed.

Lemma no_top_level_block pre s :
  no_newline pre -> plain_step s = true ->
  no_top_level ((pre ++ str "id: " ++ id s) ++ lines_text (attr_lines s)) = true.
Proof.
  intros Hpre Hs. apply no_top_level_app.
  - apply no_top_level_line. apply Forall_app. split; [exact Hpre|].
    apply Forall_app. split; [repeat constructor; discriminate|].
    now apply plain_id_line.
  - now apply no_top_level_lines, plain_attr_lines.
  - destruct (attr_lines s); cbn; auto.
Qed.

Lemma no_top_level_entry s : plain_step s = true -> no_top_level (entry s) = true.
Proof.
  intros Hs. unfold entry, core. rewrite !app_assoc. rewrite <- (app_assoc (str "  - ")).
  apply no_top_level_block; [repeat constructor; discriminate | exact Hs].
Qed.

Lemma no_top_level_next s :
  plain_step s = true -> no_top_level (step_sep ++ core s) = true.
Proof.
  intros Hs. change (step_sep ++ core s) with (NL :: NL :: entry s).
  pose proof (no_top_level_entry s Hs) as H.
  change (entry s) with (SP :: SP :: 45 :: SP :: core s) in *.
  apply no_top_level_cons; [reflexivity|].
  now apply no_top_level_cons.
Qed.

Lemma no_top_level_body s rest :
  Forall (fun s => plain_step s = true) (s :: rest) ->
  no_top_level (body_text s rest) = true.
Proof.
  intros H. inversion H as [|? ? Hs Hrest]; subst. unfold body_text.
  assert (Hr : no_top_level (flat_map (fun s' => step_sep ++ core s') rest) = true
               /\ match flat_map (fun s' => step_sep ++ core s') rest with
                  | x :: _ => cls_has false [CRange 97 122; CRange 65 90] x = false
                  | [] => True
                  end).
  { clear H Hs. induction Hrest as [|s' rest Hs' _ IH]; [now split|].
    cbn [flat_map]. split; [|reflexivity].
    destruct IH as [IH1 IH2]. apply no_top_level_app; auto.
    now apply no_top_level_next. }
  destruct Hr as [Hr1 Hr2]. apply no_top_level_app; auto.
  now apply no_top_level_entry.
Qed.

(** The header ends with [steps:], which does not occur before. *)
Lemma header_text pid pdesc :
  plain_meta pid = true -> plain_meta pdesc = true ->
  exists A0, join [NL] (headerLines pid pdesc) = A0 ++ NL :: str "steps:"
             /\ includes A0 (str "steps:") = false.
Proof.
  intros Hid Hdesc.
  assert (HSP : ~ In SP (str "steps:")) by (vm_compute; intuition discriminate).
  assert (HNL : ~ In NL (str "steps:")) by (vm_compute; intuition discriminate).
  assert (HL : str "steps:" <> []) by discriminate.
  assert (Hi : includes (or_default pid (str "my-pipeline")) (str "steps:") = false).
  { destruct pid as [[|c v]|]; try reflexivity. now apply negb_true_iff in Hid. }
  unfold headerLines. destruct pdesc as [[|c d]|]; cbn [app join].
  - exists (str "id:" ++ SP :: or_default pid (str "my-pipeline") ++ [NL]).
    split; [repeat (progress (rewrite <- ?app_assoc; cbn [app])); reflexivity|].
    now rewrite includes_sep, includes_sep, Hi by assumption.
  - exists (str "id:" ++ SP :: or_default pid (str "my-pipeline")
            ++ NL :: str "desc:" ++ SP :: (c :: d) ++ [NL]).
    split; [repeat (progress (rewrite <- ?app_assoc; cbn [app])); reflexivity|].
    apply negb_true_iff in Hdesc.
    rewrite includes_sep, includes_sep, Hi by assumption.
    now rewrite includes_sep, includes_sep, Hdesc by assumption.
  - exists (str "id:" ++ SP :: or_default pid (str "my-pipeline") ++ [NL]).
    split; [repeat (progress (rewrite <- ?app_assoc; cbn [app])); reflexivity|].
    now rewrite includes_sep, includes_sep, Hi by assumption.
Qed.

(** The pattern of the steps section captures the text of the steps. *)
Lemma steps_section A0 s rest :
  includes A0 (str "steps:") = false ->
  Forall (fun s => plain_step s = true) (s :: rest) ->
  exists mr,
    regex_match re_steps ((A0 ++ NL :: str "steps:") ++ NL :: body_text s rest)
    = Some mr
    /\ grp 1 mr = Ok (body_text s rest).
Proof.
  intros HA H.
  assert (He : ends_at (m re_steps Some) (str "steps:" ++ NL :: body_text s rest)
                       [] [] [(1%nat, body_text s rest)]).
  { refine (ends_LitL (str "steps:")
              (m (Seq (Star true ws) (Chr 10))
                 (m (Group 1 (Star false any))
                    (m (Look (Alt (Chr 10 · alpha) Eos)) Some))) _ _ _ _ _).
    pose proof (ends_steps_capture _ (no_top_level_body s rest H)) as Hc.
    change (body_text s rest)
      with (repeat SP 2 ++ (45 :: SP :: core s)
            ++ flat_map (fun s' => step_sep ++ core s') rest) in Hc |- * at 1.
    apply ends_header_newline; [reflexivity | exact Hc]. }
  destruct (He (Some NL)) as (st' & Hm & _ & Hcaps).
  assert (HNL : ~ In NL (str "steps:")) by (vm_compute; intuition discriminate).
  destruct (regex_match_at _ (str "steps:") A0 NL _ st' leads_re_steps HNL HA Hm)
    as (mr & Hr & Hc' & _).
  exists mr. split.
  - rewrite <- app_assoc. exact Hr.
  - unfold grp. now rewrite Hc', Hcaps.
Qed.

(** ** Splitting the steps section *)

Lemma split_go_end r p acc : regex_split_go r p [] acc 0 = [rev acc].
Proof. reflexivity. Qed.

Lemma split_go_skip r T : forall w p acc,
  T <> [] ->
  regex_split_go r p (w ++ T) acc (length w) = regex_split_go r (lastp p w) T acc 0.
Proof.
  intros w p acc HT. revert p. induction w as [|c w IH]; intros p; [reflexivity|].
  cbn [app length regex_split_go lastp]. apply IH.
Qed.

Lemma split_go_free r T : forall b p acc,
  (forall b1 c b2, b = b1 ++ c :: b2 ->
                   match_here r (lastp p b1) (c :: b2 ++ T) = None) ->
  regex_split_go r p (b ++ T) acc 0 = regex_split_go r (lastp p b) T (rev b ++ acc) 0.
Proof.
  induction b as [|c b IH]; intros p acc H; [reflexivity|].
  pose proof (H [] c b eq_refl) as H0. cbn [lastp] in H0.
  cbn [app regex_split_go]. rewrite H0.
  rewrite IH.
  - cbn [lastp rev]. now rewrite <- app_assoc.
  - intros b1 c' b2 E. apply (H (c :: b1)). now rewrite E.
Qed.

Lemma split_go_sep r p c w T acc st' :
  T <> [] ->
  match_here r p (c :: w ++ T) = Some st' -> rest st' = T ->
  regex_split_go r p ((c :: w) ++ T) acc 0
  = rev acc :: regex_split_go r (lastp (Some c) w) T [] 0.
Proof.
  intros HT Hm Hr. cbn [app regex_split_go]. rewrite Hm, Hr.
  replace (length (c :: w ++ T) - length T)%nat with (S (length w))
    by (cbn [length]; rewrite length_app; lia).
  now rewrite split_go_skip.
Qed.

Lemma ends_Look_lit L k s cs R C :
  ends_at k (L ++ s) cs R C -> ends_at (m (Look (LitL L)) k) (L ++ s) cs R C.
Proof.
  intros H p. unfold ends. cbn [m]. rewrite m_LitL. cbn [prev rest caps].
  apply H.
Qed.

(** The separator between two steps is read up to the [id:] of the
    second one. *)
Lemma sep_match p s T :
  plain_step s = true ->
  exists st', match_here re_step_sep p (step_sep ++ core s ++ T) = Some st'
              /\ rest st' = core s ++ T.
Proof.
  intros Hs.
  assert (He : ends_at (m re_step_sep Some) (step_sep ++ core s ++ T) []
                       (core s ++ T) []).
  { unfold re_step_sep. do 4 apply ends_Seq.
    change (step_sep ++ core s ++ T)
      with (NL :: [NL; SP; SP] ++ 45 :: [SP] ++ core s ++ T).
    apply ends_Chr. apply ends_star_cls; [repeat constructor | reflexivity |].
    apply ends_Chr. apply ends_plus_cls; [repeat constructor | reflexivity |].
    unfold core. rewrite <- !app_assoc.
    change (str "id: " ++ id s ++ lines_text (attr_lines s) ++ T)
      with (str "id:" ++ SP :: id s ++ lines_text (attr_lines s) ++ T).
    apply (ends_Look_lit (str "id:")). apply ends_Some. }
  destruct (He p) as (st' & Hm & Hr & _). now exists st'.
Qed.

Lemma ws_runs_split ind x r w y r' :
  all_space ind -> all_space w -> is_space x = false -> is_space y = false ->
  ind ++ x :: r = w ++ y :: r' -> ind = w /\ x = y /\ r = r'.
Proof.
  revert w. induction ind as [|i ind IH]; intros w Hind Hw Hx Hy H.
  - destruct w as [|z w]; simpl in H; inversion H; subst; [now repeat split|].
    inversion Hw; subst. congruence.
  - destruct w as [|z w]; simpl in H; inversion H; subst.
    + inversion Hind; subst. congruence.
    + inversion Hind; inversion Hw; subst.
      destruct (IH w) as (-> & -> & ->); auto.
Qed.

Lemma prefix_no_char (c : N) P : forall X b1 b2,
  ~ In c P -> P ++ X = b1 ++ c :: b2 ->
  exists b1', b1 = P ++ b1' /\ X = b1' ++ c :: b2.
Proof.
  induction P as [|x P IH]; intros X b1 b2 Hc E.
  - now exists b1.
  - destruct b1 as [|y b1]; inversion E; subst.
    + exfalso. apply Hc. now left.
    + destruct (IH X b1 b2) as (b1' & -> & ->); auto.
      * intros Hin. apply Hc. now right.
      * now exists b1'.
Qed.

(** A newline of the text of some lines is the newline before one of
    them. *)
Lemma lines_text_cut lines : forall b1 b2,
  Forall no_newline lines ->
  lines_text lines = b1 ++ NL :: b2 ->
  exists before l after, lines = before ++ l :: after /\ b2 = l ++ lines_text after.
Proof.
  induction lines as [|l lines IH]; intros b1 b2 Hall E.
  - destruct b1; discriminate.
  - inversion Hall as [|? ? Hl Hls]; subst.
    cbn [lines_text flat_map] in E. fold (lines_text lines) in E.
    destruct b1 as [|y b1]; inversion E; subst.
    + now exists [], l, lines.
    + destruct (prefix_no_char NL l (lines_text lines) b1 b2) as (b1' & -> & E');
        auto.
      * intros Hin. unfold no_newline in Hl. rewrite Forall_forall in Hl.
        now apply (Hl NL); [apply list_elem_of_In|].
      * destruct (IH b1' b2 Hls E') as (before & l' & after & -> & ->).
        now exists (l :: before), l', after.
Qed.

(** What the separator pattern reads. *)
Lemma sep_match_shape p s cs st' :
  matches re_step_sep (MState p s cs) st' ->
  exists w1 w2 R,
    s = NL :: w1 ++ 45 :: w2 ++ str "id:" ++ R
    /\ all_space w1 /\ all_space w2 /\ w2 <> [].
Proof.
  unfold re_step_sep. intros H.
  inversion H as [| | | | ? ? ? st4 ? H4 HL | | | | | | | | |]; subst; clear H.
  inversion H4 as [| | | | ? ? ? st3 ? H3 HP | | | | | | | | |]; subst; clear H4.
  inversion H3 as [| | | | ? ? ? st2 ? H2 HD | | | | | | | | |]; subst; clear H3.
  inversion H2 as [| | | | ? ? ? st1 ? H1 HS | | | | | | | | |]; subst; clear H2.
  inversion H1; subst; clear H1.
  apply matches_star_cls in HS as (w1 & E1 & Hw1).
  inversion HD; subst; clear HD.
  apply matches_plus_cls in HP as (c2 & w2 & E2 & Hw2).
  inversion HL as [| | | | | | | | | | ? ? st5 H5 | | |]; subst; clear HL.
  apply matches_LitL in H5.
  cbn [rest] in *. subst.
  exists w1, (c2 :: w2), (rest st5). split; [|split; [|split]].
  - now rewrite H5.
  - eapply Forall_impl; [exact Hw1|]. intros x Hx. now apply cls_ws_space.
  - eapply Forall_impl; [exact Hw2|]. intros x Hx. now apply cls_ws_space.
  - discriminate.
Qed.

Lemma no_id_after d T :
  starts_nonspace d -> ~ In COLON d ->
  T = [] \/ (exists T', T = NL :: T') ->
  forall R, d ++ T <> str "id:" ++ R.
Proof.
  intros Hs Hc HT R E.
  destruct d as [|a [|b [|c d]]]; cbn [app] in E.
  - contradiction.
  - destruct HT as [-> | [T' ->]]; discriminate.
  - destruct HT as [-> | [T' ->]]; discriminate.
  - inversion E; subst. apply Hc. right. right. now left.
Qed.

(** No separator is found inside the text of a plain step. *)
Lemma sep_free_block pre s :
  no_newline pre -> plain_step s = true -> sep_free (pre ++ core s).
Proof.
  intros Hpre Hs T p b1 c b2 HT E.
  destruct (match_here re_step_sep p (c :: b2 ++ T)) as [st'|] eqn:Hm;
    [exfalso | reflexivity].
  unfold match_here in Hm. apply m_sound in Hm as (st'' & Hmat & _).
  apply sep_match_shape in Hmat as (w1 & w2 & R & Es & Hw1 & Hw2 & Hne).
  assert (Ec : c = NL) by congruence.
  assert (Eb : b2 ++ T = w1 ++ 45 :: w2 ++ str "id:" ++ R) by congruence.
  subst c. clear Es.
  unfold core in E. rewrite !app_assoc in E. rewrite <- (app_assoc pre) in E.
  assert (Hhead : ~ In NL (pre ++ str "id: " ++ id s)).
  { intros Hin. apply in_app_or in Hin as [Hin | Hin].
    - unfold no_newline in Hpre. rewrite Forall_forall in Hpre.
      now apply (Hpre NL); [apply list_elem_of_In|].
    - apply in_app_or in Hin as [Hin | Hin].
      + vm_compute in Hin. intuition discriminate.
      + pose proof (plain_id_line s Hs) as Hn. unfold no_newline in Hn.
        rewrite Forall_forall in Hn. now apply (Hn NL); [apply list_elem_of_In|]. }
  destruct (prefix_no_char NL _ _ b1 b2 Hhead E) as (b1' & _ & E').
  pose proof (plain_attr_lines s Hs) as Hlines.
  destruct (lines_text_cut (attr_lines s) b1' b2) as (before & l & after & El & ->);
    [eapply Forall_impl; [exact Hlines | intros x Hx; apply Hx] | exact E' |].
  rewrite El in Hlines. apply Forall_app in Hlines as [_ Hl].
  inversion Hl as [|? ? (_ & _ & n & x & r & -> & Hx & Hdash) Hafter]; subst.
  set (T2 := lines_text after ++ T) in *.
  assert (HT2 : T2 = [] \/ exists T', T2 = NL :: T').
  { subst T2. destruct after as [|l' after]; [exact HT|].
    right. cbn [lines_text flat_map]. eexists. reflexivity. }
  rewrite <- !app_assoc in Eb. cbn [app] in Eb. fold T2 in Eb.
  rewrite <- app_assoc in Eb. cbn [app] in Eb.
  assert (Hind : all_space (repeat SP (S n))).
  { apply Forall_forall. intros y Hy. apply list_elem_of_In, repeat_spec in Hy.
    now subst. }
  destruct (ws_runs_split (repeat SP (S n)) x (r ++ T2) w1 45
              (w2 ++ str "id:" ++ R) Hind Hw1 Hx eq_refl Eb) as (_ & -> & Er).
  destruct (Hdash eq_refl) as (d & -> & Hd & Hcolon).
  destruct d as [|d0 d]; [contradiction|].
  assert (Hsp : all_space [SP]) by (repeat constructor).
  destruct (ws_runs_split [SP] d0 (d ++ T2) w2 105 (str "d:" ++ R)
              Hsp Hw2 Hd eq_refl Er) as (_ & -> & Ed).
  apply (no_id_after (105 :: d) T2 Hd Hcolon HT2 R).
  cbn [app]. rewrite Ed. reflexivity.
Qed.

Lemma core_nonempty s : core s <> [].
Proof. unfold core. discriminate. Qed.

Lemma split_body rest : forall b p acc,
  sep_free b -> Forall (fun s => plain_step s = true) rest ->
  regex_split_go re_step_sep p
    (b ++ flat_map (fun s' => step_sep ++ core s') rest) acc 0
  = (rev acc ++ b) :: map core rest.
Proof.
  induction rest as [|s rest IH]; intros b p acc Hb Hrest.
  - cbn [flat_map map]. rewrite split_go_free.
    + rewrite split_go_end, rev_app_distr, rev_involutive. reflexivity.
    + intros b1 c b2 E. apply (Hb [] _ b1 c b2); [now left | exact E].
  - inversion Hrest as [|? ? Hs Hrest']; subst.
    cbn [flat_map map]. rewrite <- app_assoc.
    set (T := core s ++ flat_map (fun s' => step_sep ++ core s') rest).
    assert (HT : T <> []).
    { subst T. pose proof (core_nonempty s). destruct (core s); [contradiction|discriminate]. }
    rewrite split_go_free.
    + destruct (sep_match (lastp p b) s
                  (flat_map (fun s' => step_sep ++ core s') rest) Hs)
        as (st' & Hm & Hr).
      fold T in Hm, Hr.
      change (step_sep ++ T) with ((NL :: NL :: str "  - ") ++ T) in *.
      rewrite (split_go_sep _ _ NL (NL :: str "  - ") T _ st' HT Hm Hr).
      rewrite rev_app_distr, rev_involutive. f_equal.
      subst T. rewrite (IH (core s) _ [] (sep_free_block [] s (Forall_nil_2 _) Hs) Hrest').
      reflexivity.
    + intros b1 c b2 E. apply (Hb _ _ b1 c b2); [|exact E].
      right. eexists. reflexivity.
Qed.

Lemma regex_split_body s rest :
  Forall (fun s => plain_step s = true) (s :: rest) ->
  regex_split re_step_sep (body_text s rest) = entry s :: map core rest.
Proof.
  intros H. inversion H as [|? ? Hs Hrest]; subst.
  unfold body_text.
  assert (E : exists c t, entry s = c :: t) by (unfold entry; eexists _, _; reflexivity).
  destruct E as (c & t & E).
  assert (Hsplit : regex_split re_step_sep
                     (entry s ++ flat_map (fun s' => step_sep ++ core s') rest)
                   = regex_split_go re_step_sep None
                       (entry s ++ flat_map (fun s' => step_sep ++ core s') rest) [] 0).
  { rewrite E. reflexivity. }
  rewrite Hsplit, split_body; [reflexivity | | exact Hrest].
  apply sep_free_block; [repeat constructor; discriminate | exact Hs].
Qed.

Lemma parse_blocks_cores rest :
  Forall (fun s => plain_step s = true) rest ->
  parse_blocks (map core rest) = Ok rest.
Proof.
  induction 1 as [|s rest Hs _ IH]; [reflexivity|].
  pose proof (parseStepBlock_plain [] s (or_introl eq_refl) Hs) as H0.
  cbn [app] in H0. cbn [map parse_blocks]. rewrite H0, IH. reflexivity.
Qed.

Lemma filter_nonempty_all (l : list jsstring) :
  Forall (fun b => b <> []) l -> filter (fun b => nonempty b = true) l = l.
Proof.
  induction 1 as [|b l Hb _ IH]; [reflexivity|].
  destruct b as [|c b]; [contradiction|].
  rewrite filter_cons_True by reflexivity. now rewrite IH.
Qed.

(** * Round trip *)

(** The parser gives back every list of plain steps from its text. *)
Lemma parse_serialized_plain S pid pdesc :
  Forall (fun s => plain_step s = true) S ->
  plain_meta pid = true -> plain_meta pdesc = true ->
  parseYamlSteps (stepsToYaml S pid pdesc) = Ok S.
Proof.
  intros HS Hid Hdesc.
  destruct (header_text pid pdesc Hid Hdesc) as (A0 & EA & HA).
  destruct S as [|s rest].
  - (* no step: the text ends with [steps:] and the pattern finds nothing *)
    rewrite stepsToYaml_trimEnd. unfold yamlLines. cbn [flat_map].
    rewrite app_nil_r, EA.
    assert (Ht : trimEnd (A0 ++ NL :: str "steps:") = A0 ++ NL :: str "steps:").
    { replace (A0 ++ NL :: str "steps:")
        with ((A0 ++ NL :: str "steps") ++ COLON :: [])
        by (rewrite <- app_assoc; reflexivity).
      now rewrite trimEnd_app_nonspace by reflexivity. }
    rewrite Ht. unfold parseYamlSteps.
    rewrite (regex_match_none_at re_steps (str "steps:") A0 NL (str "steps:"));
      [reflexivity | exact leads_re_steps | vm_compute; intuition discriminate
      | exact HA | reflexivity | reflexivity].
  - rewrite (stepsToYaml_steps s rest pid pdesc HS), EA.
    destruct (steps_section A0 s rest HA HS) as (mr & Hr & Hg).
    unfold parseYamlSteps. rewrite Hr, Hg. cbn [mbind result_bind].
    unfold stepBlocksOf. rewrite (regex_split_body s rest HS).
    inversion HS as [|? ? Hs Hrest]; subst.
    rewrite filter_nonempty_all.
    + cbn [parse_blocks].
      change (entry s) with (str "  - " ++ core s).
      rewrite (parseStepBlock_plain (str "  - ") s (or_intror eq_refl) Hs).
      rewrite (parse_blocks_cores rest Hrest). reflexivity.
    + constructor; [unfold entry; discriminate|].
      apply Forall_forall. intros b Hb.
      apply list_elem_of_In, in_map_iff in Hb as (s' & <- & _). apply core_nonempty.
Qed.

(** What is not carried does not show in the text. *)
Lemma stepLines_carried s : stepLines (carried s) = stepLines s.
Proof.
  unfold stepLines, carried. cbn [id kind shortDesc source format path sql cache
                                   show schema options dependsOn].
  assert (Ht : forall k o, textLine k (carried_text o) = textLine k o)
    by (intros k [[|c v]|]; reflexivity).
  rewrite !Ht.
  assert (Ho : optionLines (carried_list (options s)) = optionLines (options s))
    by (destruct (options s) as [[|[k v] l]|]; reflexivity).
  assert (Hd : dependsOnLines (carried_list (dependsOn s)) = dependsOnLines (dependsOn s))
    by (destruct (dependsOn s) as [[|d l]|]; reflexivity).
  rewrite Ho, Hd. destruct (sql s) as [[|c v]|]; reflexivity.
Qed.

Lemma stepsToYaml_carried S pid pdesc :
  stepsToYaml (map carried S) pid pdesc = stepsToYaml S pid pdesc.
Proof.
  unfold stepsToYaml, yamlLines. do 3 f_equal.
  induction S as [|s S IH]; [reflexivity|].
  cbn [map flat_map]. now rewrite stepLines_carried, IH.
Qed.



Lemma carried_plain s : plain_step s = true -> carried s = s.
Proof.
  intros Hs. unfold plain_step in Hs. rewrite !andb_true_iff in Hs.
  destruct Hs as (((((((((((((Hid & Hkind) & Hsd) & Hdesc) & Hfmt) & Hsql) & Hpath)
                            & Hsrc) & Hopts) & Hschema) & _) & _) & Hdeps) & Hpos).
  assert (Ht : forall (ok : jsstring -> bool) o,
             ok [] = false -> opt_ok ok o = true -> carried_text o = o).
  { intros ok [[|c v]|] H0 H; try reflexivity. cbn in H. congruence. }
  destruct s as [i k sd d f q pa so o sc ca sh dp po]. unfold carried. cbn in *.
  rewrite (Ht plain_text sd), (Ht plain_token f), (Ht plain_sql q),
    (Ht plain_text pa), (Ht plain_token so), (Ht plain_text sc) by (reflexivity || assumption).
  destruct d; [discriminate|]. destruct po; [discriminate|].
  destruct o as [[|kv l]|]; [discriminate | |];
    destruct dp as [[|d0 l0]|]; try discriminate; reflexivity.
Qed.

(** The parser gives back what the text carries of the steps. *)
Lemma parse_serialized_carried S pid pdesc :
  Forall (fun s => plain_step (carried s) = true) S ->
  plain_meta pid = true -> plain_meta pdesc = true ->
  parseYamlSteps (stepsToYaml S pid pdesc) = Ok (map carried S).
Proof.
  intros HS Hid Hdesc. rewrite <- stepsToYaml_carried.
  apply parse_serialized_plain; auto.
  apply Forall_forall. intros s Hs.
  apply list_elem_of_In, in_map_iff in Hs as (s' & <- & Hin).
  rewrite Forall_forall in HS. now apply HS, list_elem_of_In.
Qed.

(** C1 (as amended): parsing the text produced from a list of plain
    steps gives the list back, field for field.  A step is plain when
    its [id], [kind], [format] and [source] are non-empty and without
    white space; its [shortDesc], [path], [schema] and [sql] are
    non-empty, on one line and without white space at either end, the
    [sql] not starting with a vertical bar; its [options] and
    [dependsOn] are absent or non-empty, the option keys distinct, made
    of letters and underscores and other than [__proto__], the option
    values on one line and trimmed, the [dependsOn] entries on one line,
    trimmed and without a colon; none of these values (nor an option key
    with its colon) contains the literal of an attribute such as [sql:]
    or [desc:], nor the [id] the literal [kind:]; and it has neither
    [desc] nor [position].  The pipeline id and description must not
    contain [steps:]. *)
Theorem plain_steps_round_trip S pid pdesc :
  Forall (fun s => plain_step s = true) S ->
  plain_meta pid = true -> plain_meta pdesc = true ->
  parseYamlSteps (stepsToYaml S pid pdesc) = Ok S.
Proof.
  intros HS Hid Hdesc.
  assert (Hc : map carried S = S).
  { induction HS as [|s S Hs _ IH]; [reflexivity|].
    cbn [map]. now rewrite carried_plain, IH. }
  rewrite parse_serialized_carried; [now rewrite Hc | | exact Hid | exact Hdesc].
  eapply Forall_impl; [exact HS|]. intros s Hs. now rewrite carried_plain.
Qed.

(** The pipeline of three steps, with a description, is read back as it
    was written. *)
Lemma plain_steps_round_trip_witness :
  parseYamlSteps (stepsToYaml pipeline_example None (Some (str "Adults report")))
  = Ok pipeline_example.
Proof.
  apply plain_steps_round_trip;
    [repeat (constructor; [vm_compute; reflexivity|]); constructor
    | reflexivity | reflexivity].
Defined.

(** No field of the step contains a newline, and yet the step is not
    read back as it was: the description is not written, so the parsed
    step has none. *)
Lemma described_step_counterexample :
  no_embedded_newline step_described = true
  /\ parseYamlSteps (stepsToYaml [step_described] None None)
     = Ok [carried step_described]
  /\ parseYamlSteps (stepsToYaml [step_described] None None) <> Ok [step_described].
Proof.
  split; [reflexivity|].
  assert (H : parseYamlSteps (stepsToYaml [step_described] None None)
              = Ok [carried step_described]) by (vm_compute; reflexivity).
  split; [exact H|]. rewrite H. intros E. inversion E.
Qed.

(** C3 (as amended): for every list of steps whose carried part is
    plain (the steps may have a [desc] and a [position], and attributes
    that are empty strings, objects or arrays), the text produced from
    the parse of the text is the text itself. *)
Theorem reserialization_is_idempotent S pid pdesc :
  Forall (fun s => plain_step (carried s) = true) S ->
  plain_meta pid = true -> plain_meta pdesc = true ->
  exists parsed,
    parseYamlSteps (stepsToYaml S pid pdesc) = Ok parsed
    /\ stepsToYaml parsed pid pdesc = stepsToYaml S pid pdesc.
Proof.
  intros HS Hid Hdesc. exists (map carried S). split.
  - now apply parse_serialized_carried.
  - apply stepsToYaml_carried.
Qed.

(** A list with a described step, a step with a position, an empty
    short description and empty options, and the pipeline of three
    steps. *)
Lemma reserialization_is_idempotent_witness :
  exists parsed,
    parseYamlSteps (stepsToYaml (step_described :: step_placed :: pipeline_example)
                                (Some (str "adults")) None) = Ok parsed
    /\ stepsToYaml parsed (Some (str "adults")) None
       = stepsToYaml (step_described :: step_placed :: pipeline_example)
                     (Some (str "adults")) None.
Proof.
  apply reserialization_is_idempotent;
    [repeat (constructor; [vm_compute; reflexivity|]); constructor
    | reflexivity | reflexivity].
Defined.

(** The URL of the JDBC input contains [sql:], which the parser reads as
    the [sql] of the step; the text produced from the parsed step has a
    [sql] line that the first text does not have. *)
Lemma jdbc_url_counterexample :
  no_embedded_newline step_jdbc = true
  /\ exists parsed,
       parseYamlSteps (stepsToYaml [step_jdbc] None None) = Ok [parsed]
       /\ sql parsed = Some (str "//db/sales")
       /\ stepsToYaml [parsed] None None <> stepsToYaml [step_jdbc] None None.
Proof.
  split; [reflexivity|].
  exists (mkStep (str "orders") (str "input") None None (Some (str "jdbc"))
                 (Some (str "//db/sales")) None None
                 (Some [(str "url", str "jdbc:postgresql://db/sales")])
                 None None None None None).
  split; [vm_compute; reflexivity|]. split; [reflexivity|].
  intros E.
  assert (H : str_eqb (stepsToYaml
                 [mkStep (str "orders") (str "input") None None (Some (str "jdbc"))
                         (Some (str "//db/sales")) None None
                         (Some [(str "url", str "jdbc:postgresql://db/sales")])
                         None None None None None] None None)
                (stepsToYaml [step_jdbc] None None) = false)
    by (vm_compute; reflexivity).
  rewrite E, str_eqb_refl in H. discriminate.
Qed.




(** * Further properties *)

(** ** The validator *)

Lemma check_source_nil steps stepIds step :
  (forall i, i ∈ stepIds -> exists s, In s steps /\ id s = i) ->
  In step steps ->
  (check_source steps ({[ id step ]} ∪ stepIds) step = []
   <-> match source step with
       | Some (c :: r) => existsb (has_id (c :: r)) steps = true
       | _ => True
       end).
Proof.
  intros Hids Hin. unfold check_source.
  destruct (source step) as [[|c r]|]; [tauto | | tauto].
  destruct (existsb (has_id (c :: r)) steps) eqn:E.
  - split; [reflexivity|]. intros _. now destruct (_ && _).
  - assert (Hno : forall s', In s' steps -> id s' <> c :: r).
    { intros s' Hs' Heq. rewrite <- not_true_iff_false in E. apply E.
      apply existsb_exists. exists s'. split; [exact Hs'|].
      unfold has_id. now apply str_eqb_eq. }
    assert (Hd : differs_from_found steps (c :: r) = true).
    { unfold differs_from_found.
      destruct (find (has_id (c :: r)) steps) as [s'|] eqn:Ef; [|reflexivity].
      apply find_some in Ef as [Hs' Eq]. unfold has_id in Eq.
      apply str_eqb_eq in Eq. now apply Hno in Hs'. }
    rewrite Hd, bool_decide_eq_true_2.
    + split; discriminate.
    + rewrite elem_of_union, elem_of_singleton. intros [Eq | Hi].
      * symmetry in Eq. now apply Hno in Eq.
      * destruct (Hids _ Hi) as (s' & Hs' & Eq). now apply Hno in Hs'.
Qed.

Lemma iter_errors_nil steps stepIds step :
  (forall i, i ∈ stepIds -> exists s, In s steps /\ id s = i) ->
  In step steps ->
  (iter_errors steps stepIds step = []
   <-> (id step ∉ stepIds) /\ step_accepted steps step = true).
Proof.
  intros Hids Hin. unfold iter_errors, step_accepted.
  pose proof (check_source_nil steps stepIds step Hids Hin) as Hsrc.
  rewrite !andb_true_iff. unfold check_duplicate, check_kind, check_format.
  fold (needs_format step).
  destruct (decide (id step ∈ stepIds)) as [Hd|Hd].
  { split; [discriminate | tauto]. }
  destruct (existsb (str_eqb (kind step)) validKinds).
  2: { split; [discriminate | intros [_ [[? _] _]]; discriminate]. }
  destruct (needs_format step && negb (truthy (format step))).
  { split; [discriminate | intros [_ [[_ ?] _]]; discriminate]. }
  cbn [app negb]. rewrite Hsrc.
  destruct (source step) as [[|c r]|]; tauto.
Qed.

Lemma distinct_ids_cons i l :
  distinct_ids (i :: l) = true <-> ~ In i l /\ distinct_ids l = true.
Proof.
  cbn [distinct_ids]. rewrite andb_true_iff, negb_true_iff.
  split; intros [H1 H2]; split; auto.
  - intros Hin. rewrite <- not_true_iff_false in H1. apply H1.
    apply existsb_exists. exists i. split; [exact Hin | apply str_eqb_refl].
  - destruct (existsb (str_eqb i) l) eqn:E; [|reflexivity].
    apply existsb_exists in E as (x & Hx & E). apply str_eqb_eq in E. now subst.
Qed.

Lemma loop_errors_nil steps : forall l stepIds,
  (forall i, i ∈ stepIds -> exists s, In s steps /\ id s = i) ->
  (forall s, In s l -> In s steps) ->
  (loop_errors steps stepIds l = []
   <-> (forall s, In s l -> id s ∉ stepIds)
       /\ distinct_ids (map id l) = true
       /\ forallb (step_accepted steps) l = true).
Proof.
  induction l as [|step l IH]; intros stepIds Hids Hl.
  - cbn. split; [intros _; repeat split; intros ? [] | reflexivity].
  - cbn [loop_errors map forallb]. rewrite distinct_ids_cons, andb_true_iff.
    assert (Hstep : In step steps) by (apply Hl; now left).
    rewrite list.app_nil, (iter_errors_nil steps stepIds step Hids Hstep).
    rewrite IH.
    + split.
      * intros [[Hd Hacc] (Hfresh & Hdist & Hall)]. repeat split; auto.
        -- intros s [<- | Hs]; [exact Hd|].
           specialize (Hfresh s Hs). rewrite elem_of_union in Hfresh. tauto.
        -- intros Hin. apply in_map_iff in Hin as (s & Eq & Hs).
           specialize (Hfresh s Hs). rewrite elem_of_union, elem_of_singleton in Hfresh.
           tauto.
      * intros (Hfresh & [Hni Hdist] & [Hacc Hall]). repeat split; auto.
        -- apply Hfresh. now left.
        -- intros s Hs. rewrite elem_of_union, elem_of_singleton.
           intros [Eq | Hi].
           ++ apply Hni. rewrite <- Eq. now apply in_map.
           ++ revert Hi. apply Hfresh. now right.
    + intros i Hi. rewrite elem_of_union, elem_of_singleton in Hi.
      destruct Hi as [-> | Hi]; [now exists step | now apply Hids].
    + intros s Hs. apply Hl. now right.
Qed.

(** The errors array is empty exactly for an accepted text. *)
Lemma validate_steps_nil yaml steps :
  validate_steps (header_errors yaml) steps = [] <-> accepted yaml steps = true.
Proof.
  rewrite validate_steps_eq. unfold accepted, header_errors.
  rewrite !andb_true_iff, !list.app_nil.
  rewrite (loop_errors_nil steps steps ∅).
  - destruct (regex_match re_has_id yaml); cbn [is_some];
      destruct (includes yaml (str "steps:")); destruct steps;
      split; intros H; decompose [and] H; try discriminate; repeat split; auto.
    all: intros ? _; apply not_elem_of_empty.
  - intros i Hi. now apply not_elem_of_empty in Hi.
  - auto.
Qed.

(** ** The shape of every serialized text *)

Lemma span_run (p : N -> bool) l :
  exists w s, l = w ++ s /\ Forall (fun x => p x = true) w /\ stops p s.
Proof.
  induction l as [|c l (w & s & -> & Hw & Hs)].
  - exists [], []. repeat split. constructor.
  - destruct (p c) eqn:E.
    + exists (c :: w), s. repeat split; [now constructor | exact Hs].
    + exists [], (c :: w ++ s). repeat split; [constructor | exact E].
Qed.

(** The pattern of the id check matches at the start of a text that
    begins with [id:] and is not blank after it. *)
Lemma has_id_match R :
  (exists x, In x R /\ is_space x = false) ->
  exists mr, regex_match re_has_id (str "id:" ++ R) = Some mr.
Proof.
  intros (x & Hx & Hsp).
  destruct (span_run (cls_has false [CSpace]) R) as (w & s & -> & Hw & Hs).
  destruct s as [|c s].
  { exfalso. rewrite app_nil_r in Hx. rewrite Forall_forall in Hw.
    apply list_elem_of_In, Hw in Hx. unfold cls_has in Hx. cbn in Hx.
    rewrite orb_false_r in Hx. congruence. }
  destruct (span_run (cls_has false [CNotSpace]) s) as (w2 & s2 & -> & Hw2 & Hs2).
  assert (Hc : cls_has false [CNotSpace] c = true).
  { cbn [stops] in Hs. unfold cls_has in *. cbn in *.
    rewrite orb_false_r in *. now rewrite Hs. }
  assert (He : ends_at (m (Seq (Seq (Lit "id:") (Star true ws)) (Plus true nonws)) Some)
                       (str "id:" ++ w ++ (c :: w2) ++ s2) [] s2 []).
  { do 2 apply ends_Seq. apply (ends_LitL (str "id:")).
    apply ends_star_cls; [exact Hw | exact Hs |].
    apply ends_plus_cls; [now constructor | exact Hs2 | apply ends_Some]. }
  destruct (He None) as (st' & Hm & _).
  destruct (regex_match_start re_has_id (str "id:" ++ w ++ (c :: w2) ++ s2) st')
    as (mr & Hr & _); [exact Hm|].
  now exists mr.
Qed.

Lemma stepsToYaml_starts steps pid pdesc :
  exists rest, stepsToYaml steps pid pdesc
               = str "id: " ++ or_default pid (str "my-pipeline") ++ rest.
Proof.
  destruct (stepsToYaml_header steps pid pdesc) as [tail ->].
  unfold headerLines. cbn [app]. rewrite join_cons, <- !app_assoc. eauto.
Qed.

Lemma stepsToYaml_steps_literal steps pid pdesc :
  includes (stepsToYaml steps pid pdesc) (str "steps:") = true.
Proof.
  destruct (stepsToYaml_header steps pid pdesc) as [tail ->].
  destruct (headerLines_last pid pdesc) as [l ->].
  rewrite join_app_cons. cbn [flat_map]. rewrite app_nil_r, <- !app_assoc.
  apply includes_spec. eexists _, tail. reflexivity.
Qed.

Lemma stepsToYaml_has_id steps pid pdesc :
  exists mr, regex_match re_has_id (stepsToYaml steps pid pdesc) = Some mr.
Proof.
  pose proof (stepsToYaml_steps_literal steps pid pdesc) as Hinc.
  destruct (stepsToYaml_starts steps pid pdesc) as [rest E]. rewrite E in *.
  change (str "id: " ++ or_default pid (str "my-pipeline") ++ rest)
    with (str "id:" ++ SP :: or_default pid (str "my-pipeline") ++ rest) in *.
  apply has_id_match. exists 115. split; [|reflexivity].
  apply includes_spec in Hinc as (a & b & Hab).
  assert (Hin : In 115 (str "id:" ++ SP :: or_default pid (str "my-pipeline") ++ rest)).
  { rewrite Hab. apply in_or_app. right. now left. }
  apply in_app_or in Hin as [Hin | Hin]; [|exact Hin].
  vm_compute in Hin. intuition discriminate.
Qed.

Lemma header_errors_serialized steps pid pdesc :
  header_errors (stepsToYaml steps pid pdesc) = [].
Proof.
  unfold header_errors. rewrite stepsToYaml_steps_literal.
  destruct (stepsToYaml_has_id steps pid pdesc) as [mr ->]. reflexivity.
Qed.

Lemma trimStart_idem s : trimStart (trimStart s) = trimStart s.
Proof.
  induction s as [|c s IH]; [reflexivity|]. cbn [trimStart].
  destruct (is_space c) eqn:E; [exact IH|]. cbn [trimStart]. now rewrite E.
Qed.

Lemma trimStart_cases s :
  trimStart s = [] \/ exists c t, trimStart s = c :: t /\ is_space c = false.
Proof.
  induction s as [|c s IH]; [now left|]. cbn [trimStart].
  destruct (is_space c) eqn:E; [exact IH|]. right. now exists c, s.
Qed.

Lemma trim_idem s : trim (trim s) = trim s.
Proof.
  unfold trim.
  assert (H : trimStart (trimEnd (trimStart s)) = trimEnd (trimStart s)).
  { destruct (trimStart_cases s) as [-> | (c & t & -> & Hc)]; [reflexivity|].
    pose proof (trimEnd_app_nonspace [] c t Hc) as H1. cbn [app] in H1.
    rewrite H1. now apply trimStart_nonspace. }
  rewrite H. unfold trimEnd. now rewrite rev_involutive, trimStart_idem.
Qed.

Lemma stepsToYaml_nil pid pdesc :
  stepsToYaml [] pid pdesc = join [NL] (headerLines pid pdesc).
Proof.
  rewrite stepsToYaml_trimEnd. unfold yamlLines. cbn [flat_map]. rewrite app_nil_r.
  destruct (headerLines_last pid pdesc) as [l ->].
  rewrite join_app_cons. cbn [flat_map]. rewrite app_nil_r.
  rewrite !app_assoc. now rewrite trimEnd_app_nonspace by reflexivity.
Qed.

Lemma last_chr_app a b : b <> [] -> last_chr (a ++ b) = last_chr b.
Proof.
  intros Hb. unfold last_chr. induction a as [|x a IH]; [reflexivity|].
  cbn [app]. destruct (a ++ b) eqn:E; [|exact IH].
  apply app_eq_nil in E as [_ ->]. contradiction.
Qed.

Lemma last_chr_header_error yaml e :
  In e (header_errors yaml ++ [err_empty]) -> last_chr e <> 116 /\ last_chr e <> 39.
Proof.
  unfold header_errors. rewrite !in_app_iff. intros [[H|H]|H].
  - destruct (regex_match re_has_id yaml); [contradiction|].
    destruct H as [<-|[]]. split; discriminate.
  - destruct (includes yaml (str "steps:")); [contradiction|].
    destruct H as [<-|[]]. split; discriminate.
  - destruct H as [<-|[]]. split; discriminate.
Qed.

(** The message of the format check is the only one that ends with
    the letter t. *)
Lemma iter_errors_format steps stepIds step e :
  In e (iter_errors steps stepIds step) -> last_chr e = 116 ->
  e = err_format (id step) (kind step)
  /\ needs_format step = true /\ truthy (format step) = false.
Proof.
  unfold iter_errors. rewrite !in_app_iff.
  intros [H|[H|[H|H]]] Hlast.
  - unfold check_duplicate in H. destruct (decide _); [|contradiction].
    destruct H as [<-|[]]. unfold err_duplicate in Hlast.
    rewrite app_assoc, last_chr_app in Hlast by discriminate. discriminate Hlast.
  - unfold check_kind in H. destruct (existsb _ validKinds); [contradiction|].
    destruct H as [<-|[]]. unfold err_kind in Hlast.
    rewrite !app_assoc, last_chr_app in Hlast by discriminate. discriminate Hlast.
  - unfold check_format in H. fold (needs_format step) in H.
    destruct (needs_format step); [|contradiction].
    destruct (truthy (format step)); [contradiction|].
    destruct H as [<-|[]]. auto.
  - unfold check_source in H. destruct (source step) as [[|c r]|]; try contradiction.
    destruct (_ && _); [|contradiction].
    destruct (existsb _ steps); [contradiction|].
    destruct H as [<-|[]]. unfold err_source in Hlast.
    rewrite !app_assoc, last_chr_app in Hlast by discriminate. discriminate Hlast.
Qed.

Lemma last_chr_err_format i k : last_chr (err_format i k) = 116.
Proof. unfold err_format. rewrite !app_assoc, last_chr_app; [reflexivity | discriminate]. Qed.


(** X2: a parsed step of kind [input] or [output] whose format is
    missing gets the message that it should specify a format, and every
    such message among the errors is the one of a parsed step of kind
    [input] or [output] without format. *)
Theorem format_error_exactly_when_missing yaml :
  exists steps v,
    parseYamlSteps yaml = Ok steps /\ validateYaml yaml = Ok v
    /\ (forall s, In s steps -> needs_format s = true ->
                  truthy (format s) = false ->
                  In (err_format (id s) (kind s)) (errors v))
    /\ (forall i k, In (err_format i k) (errors v) ->
          exists s, In s steps /\ needs_format s = true
                    /\ truthy (format s) = false
                    /\ err_format i k = err_format (id s) (kind s)).
Proof.
  destruct (validateYaml_total yaml) as (steps & Hp & Hv).
  eexists steps, _. split; [exact Hp|]. split; [exact Hv|]. cbn [errors]. split.
  - intros s Hin Hneed Hfmt. rewrite validate_steps_eq, !in_app_iff. right; right.
    apply (In_loop_errors_iter steps s); [exact Hin|]. intros stepIds.
    unfold iter_errors. rewrite !in_app_iff. right; right; left.
    unfold check_format. fold (needs_format s). rewrite Hneed, Hfmt. now left.
  - intros i k H. apply In_validate_steps in H as [H|H].
    + apply last_chr_header_error in H as [H _].
      now rewrite last_chr_err_format in H.
    + apply In_loop_errors in H as (pre & step & post & Hsteps & H).
      apply iter_errors_format in H as (He & Hneed & Hfmt);
        [|apply last_chr_err_format].
      exists step. repeat split; auto. rewrite Hsteps. apply in_elt.
Qed.

(** X3: a text in which [steps:] does not occur has no parsed step, and
    its errors are, after the message of the id check if that one
    fails, the messages that the steps section is missing and that
    there must be at least one step; it is never valid. *)
Theorem missing_steps_section_errors yaml :
  includes yaml (str "steps:") = false ->
  parseYamlSteps yaml = Ok []
  /\ validateYaml yaml
     = Ok (mkValidation false
             (match regex_match re_has_id yaml with
              | None => [err_no_id]
              | Some _ => []
              end ++ [err_no_steps; err_empty])).
Proof.
  intros H.
  assert (Hp : parseYamlSteps yaml = Ok []).
  { unfold parseYamlSteps. now rewrite (no_literal_no_match _ _ _ leads_re_steps H). }
  split; [exact Hp|]. unfold validateYaml. rewrite Hp. cbn [mbind result_bind].
  unfold validate_steps, header_errors. rewrite H. cbn [fold_left snd].
  rewrite <- app_assoc. cbn [app].
  now destruct (regex_match re_has_id yaml).
Qed.

Lemma missing_steps_section_errors_witness :
  validateYaml doc_without_steps
  = Ok (mkValidation false [err_no_steps; err_empty]).
Proof.
  destruct (missing_steps_section_errors doc_without_steps) as [_ H];
    [vm_compute; reflexivity|].
  rewrite H. vm_compute. reflexivity.
Defined.

(** X4: whatever the steps, the id and the description, the serialized
    text starts with [id: ] followed by the pipeline id (or
    [my-pipeline]), contains [steps:], has no white space at its ends,
    and passes the two header checks of the validator: the messages
    about a missing id and a missing steps section are never among its
    errors. *)
Theorem serialized_text_shape steps pid pdesc :
  let yaml := stepsToYaml steps pid pdesc in
  starts_with (str "id: " ++ or_default pid (str "my-pipeline")) yaml = true
  /\ includes yaml (str "steps:") = true
  /\ trim yaml = yaml
  /\ (exists mr, regex_match re_has_id yaml = Some mr)
  /\ (exists v, validateYaml yaml = Ok v
                /\ ~ In err_no_id (errors v) /\ ~ In err_no_steps (errors v)).
Proof.
  intros yaml. subst yaml. split; [|split; [|split; [|split]]].
  - destruct (stepsToYaml_starts steps pid pdesc) as [rest ->].
    apply starts_with_spec. exists rest. now rewrite <- app_assoc.
  - apply stepsToYaml_steps_literal.
  - unfold stepsToYaml. apply trim_idem.
  - apply stepsToYaml_has_id.
  - destruct (validateYaml_total (stepsToYaml steps pid pdesc)) as (parsed & _ & Hv').
    eexists. split; [exact Hv'|]. cbn [errors]. clear Hv'.
    rewrite validate_steps_eq, header_errors_serialized. cbn [app].
    split; intros H; apply in_app_iff in H as [H|H].
    + destruct parsed; [destruct H as [H|[]]; discriminate | contradiction].
    + apply first_chr_loop_error in H. destruct H as [H|[H|H]]; discriminate.
    + destruct parsed; [destruct H as [H|[]]; discriminate | contradiction].
    + apply first_chr_loop_error in H. destruct H as [H|[H|H]]; discriminate.
Qed.

(** X5: for an empty list of steps the serialized text is the header
    alone, ending with [steps:]; when the pipeline id and description do
    not contain [steps:], it parses to the empty list and the validator
    rejects it with the single message that there must be at least one
    step. *)
Theorem empty_pipeline_text pid pdesc :
  plain_meta pid = true -> plain_meta pdesc = true ->
  stepsToYaml [] pid pdesc = join [NL] (headerLines pid pdesc)
  /\ parseYamlSteps (stepsToYaml [] pid pdesc) = Ok []
  /\ validateYaml (stepsToYaml [] pid pdesc) = Ok (mkValidation false [err_empty]).
Proof.
  intros Hid Hdesc. split; [apply stepsToYaml_nil|].
  assert (Hp : parseYamlSteps (stepsToYaml [] pid pdesc) = Ok [])
    by (apply parse_serialized_plain; auto).
  split; [exact Hp|]. unfold validateYaml. rewrite Hp. cbn [mbind result_bind].
  now rewrite validate_steps_eq, header_errors_serialized.
Qed.

Lemma empty_pipeline_text_witness :
  stepsToYaml [] None None = text ["id: my-pipeline"; ""; "steps:"]%string
  /\ validateYaml (stepsToYaml [] None None) = Ok (mkValidation false [err_empty]).
Proof.
  destruct (empty_pipeline_text None None eq_refl eq_refl) as (H1 & _ & H3).
  split; [rewrite H1; reflexivity | exact H3].
Defined.

(** X6: for plain steps and a pipeline id and description without
    [steps:], the validator accepts the serialized text exactly when the
    list is not empty, the ids are pairwise distinct, and every step has
    a known kind, a format when its kind is [input] or [output], and a
    source that is the id of a step of the list. *)
Theorem accepted_steps_give_valid_text S pid pdesc :
  Forall (fun s => plain_step s = true) S ->
  plain_meta pid = true -> plain_meta pdesc = true ->
  exists v,
    validateYaml (stepsToYaml S pid pdesc) = Ok v
    /\ valid v = match S with [] => false | _ :: _ => true end
                 && distinct_ids (map id S)
                 && forallb (step_accepted S) S.
Proof.
  intros HS Hid Hdesc.
  pose proof (parse_serialized_plain S pid pdesc HS Hid Hdesc) as Hp.
  destruct (validateYaml_total (stepsToYaml S pid pdesc)) as (parsed & Hp' & Hv).
  rewrite Hp in Hp'. inversion Hp'; subst parsed. clear Hp'.
  eexists. split; [exact Hv|]. cbn [valid].
  pose proof (validate_steps_nil (stepsToYaml S pid pdesc) S) as H.
  unfold accepted in H. rewrite stepsToYaml_steps_literal in H.
  destruct (stepsToYaml_has_id S pid pdesc) as [mr Hmr]. rewrite Hmr in H.
  cbn [is_some andb] in H.
  destruct (validate_steps _ S) as [|e errs];
    destruct (_ && _ && _); try reflexivity.
  - destruct H as [H _]. now specialize (H eq_refl).
  - destruct H as [_ H]. now specialize (H eq_refl).
Qed.

Lemma accepted_steps_give_valid_text_witness :
  exists v,
    validateYaml (stepsToYaml pipeline_example None (Some (str "Adults report")))
    = Ok v
    /\ valid v = true.
Proof.
  destruct (accepted_steps_give_valid_text pipeline_example None
              (Some (str "Adults report"))) as (v & Hv & Hvalid);
    [repeat (constructor; [vm_compute; reflexivity|]); constructor
    | reflexivity | reflexivity |].
  exists v. split; [exact Hv|]. rewrite Hvalid. vm_compute. reflexivity.
Defined.

(** X7: two different lists of plain steps are serialized to different
    texts, whatever the pipeline ids and descriptions (without [steps:])
    the two texts are written with. *)
Theorem distinct_steps_distinct_texts S S' pid pdesc pid' pdesc' :
  Forall (fun s => plain_step s = true) S ->
  Forall (fun s => plain_step s = true) S' ->
  plain_meta pid = true -> plain_meta pdesc = true ->
  plain_meta pid' = true -> plain_meta pdesc' = true ->
  S <> S' ->
  stepsToYaml S pid pdesc <> stepsToYaml S' pid' pdesc'.
Proof.
  intros HS HS' Hid Hdesc Hid' Hdesc' Hne E. apply Hne.
  pose proof (parse_serialized_plain S pid pdesc HS Hid Hdesc) as H.
  rewrite E, (parse_serialized_plain S' pid' pdesc' HS' Hid' Hdesc') in H.
  now inversion H.
Qed.

Lemma distinct_steps_distinct_texts_witness :
  stepsToYaml [step_adults; step_report] None None
  <> stepsToYaml [step_report; step_adults] (Some (str "p")) None.
Proof.
  apply distinct_steps_distinct_texts;
    first [ reflexivity
          | repeat (constructor; [vm_compute; reflexivity|]); constructor
          | vm_compute; discriminate ].
Defined.

(** ** A top-level section after the steps *)







(** ** The lines of every serialized text *)

Lemma one_line_app a b : one_line (a ++ b) = one_line a && one_line b.
Proof. apply forallb_app. Qed.

Lemma one_line_no_newline v : one_line v = true -> ~ In NL v.
Proof.
  unfold one_line. rewrite forallb_forall. intros H Hin. now apply H in Hin.
Qed.

Lemma indented_key_line key v :
  one_line (str key) = true -> one_line v = true ->
  indented_line (str "    " ++ str key ++ str ": " ++ v).
Proof.
  intros Hk Hv. split; [|right; eexists; reflexivity].
  now rewrite !one_line_app, Hk, Hv.
Qed.

Lemma textLine_indented key o :
  one_line (str key) = true -> opt_one_line o = true ->
  Forall indented_line (textLine key o).
Proof.
  intros Hk Ho. destruct o as [[|c v]|]; constructor; [|constructor].
  now apply indented_key_line.
Qed.

Lemma boolLine_indented key o :
  one_line (str key) = true -> Forall indented_line (boolLine key o).
Proof.
  intros Hk. destruct o as [b|]; constructor; [|constructor].
  apply indented_key_line; [exact Hk | now destruct b].
Qed.

(** The pieces between the newlines of a text hold the characters of the
    text other than newlines. *)
Lemma split_chr_go_pieces (Q : N -> Prop) s : forall acc,
  Forall (fun c => c = NL \/ Q c) s -> Forall Q acc ->
  Forall (Forall Q) (split_chr_go NL s acc).
Proof.
  induction s as [|x s IH]; intros acc Hs Hacc; cbn [split_chr_go].
  - constructor; [|constructor]. now apply Forall_rev.
  - inversion Hs as [|? ? Hx Hs']; subst. destruct (x =? NL) eqn:E.
    + constructor; [now apply Forall_rev | apply IH; [exact Hs' | constructor]].
    + apply IH; [exact Hs'|]. constructor; [|exact Hacc].
      destruct Hx as [-> | Hx]; [|exact Hx]. now rewrite N.eqb_refl in E.
Qed.

Lemma sqlLines_indented v :
  forallb (fun c => (c =? NL) || negb (isLineTerminator c)) v = true ->
  Forall indented_line (sqlLines v).
Proof.
  intros Hv. apply forallb_Forall in Hv. unfold sqlLines.
  destruct (includes v [NL]) eqn:E.
  - constructor; [split; [reflexivity | right; eexists; reflexivity]|].
    assert (Hp : Forall (Forall (fun c => negb (isLineTerminator c) = true))
                        (split_chr NL v)).
    { apply split_chr_go_pieces; [|constructor].
      eapply Forall_impl; [exact Hv|]. intros x Hx.
      apply orb_true_iff in Hx as [Hx | Hx]; [left; now apply N.eqb_eq | now right]. }
    apply Forall_forall. intros l Hl.
    apply list_elem_of_In, in_map_iff in Hl as (piece & <- & Hin).
    split; [|right; eexists; reflexivity].
    rewrite one_line_app. cbn [andb]. unfold one_line. apply forallb_forall.
    intros x Hx. rewrite Forall_forall in Hp.
    specialize (Hp piece (proj2 (list_elem_of_In _ _) Hin)).
    rewrite Forall_forall in Hp. now apply Hp, list_elem_of_In.
  - constructor; [|constructor].
    change (str "    sql: " ++ v) with (str "    " ++ str "sql" ++ str ": " ++ v).
    apply indented_key_line; [reflexivity|].
    unfold one_line. apply forallb_forall. intros x Hx.
    rewrite Forall_forall in Hv.
    pose proof (Hv x (proj2 (list_elem_of_In _ _) Hx)) as H.
    apply orb_true_iff in H as [H | H]; [|exact H].
    apply N.eqb_eq in H. subst x. exfalso.
    rewrite <- not_true_iff_false in E. apply E. apply includes_spec.
    apply in_split in Hx as (a & b & ->). now exists a, b.
Qed.

Lemma optionLines_indented o :
  match o with
  | Some l => forallb (fun kv => one_line (fst kv) && one_line (snd kv)) l
  | None => true
  end = true ->
  Forall indented_line (optionLines o).
Proof.
  intros Ho. destruct o as [[|[k v] l]|]; try constructor.
  - split; [reflexivity | right; eexists; reflexivity].
  - apply forallb_Forall in Ho. apply Forall_forall. intros x Hx.
    apply list_elem_of_In, in_map_iff in Hx as (kv & <- & Hin).
    rewrite Forall_forall in Ho.
    pose proof (Ho kv (proj2 (list_elem_of_In _ _) Hin)) as H.
    apply andb_true_iff in H as [Hk Hv].
    split; [|right; eexists; reflexivity].
    now rewrite !one_line_app, Hk, Hv.
Qed.

Lemma dependsOnLines_indented o :
  match o with Some l => forallb one_line l | None => true end = true ->
  Forall indented_line (dependsOnLines o).
Proof.
  intros Ho. destruct o as [[|d l]|]; try constructor.
  - split; [reflexivity | right; eexists; reflexivity].
  - apply forallb_Forall in Ho. apply Forall_forall. intros x Hx.
    apply list_elem_of_In, in_map_iff in Hx as (d' & <- & Hin).
    rewrite Forall_forall in Ho.
    pose proof (Ho d' (proj2 (list_elem_of_In _ _) Hin)) as H.
    split; [|right; eexists; reflexivity].
    now rewrite one_line_app, H.
Qed.

Lemma stepLines_indented s :
  no_line_break s = true -> Forall indented_line (stepLines s).
Proof.
  unfold no_line_break. rewrite !andb_true_iff.
  intros (((((((((Hid & Hkind) & Hsd) & Hsrc) & Hfmt) & Hpath) & Hsql) & Hsch)
            & Hopt) & Hdep).
  unfold stepLines. rewrite !Forall_app. repeat split.
  - constructor; [|constructor; [|constructor]].
    + split; [|right; eexists; reflexivity]. now rewrite one_line_app, Hid.
    + split; [|right; eexists; reflexivity]. now rewrite one_line_app, Hkind.
  - now apply textLine_indented.
  - now apply textLine_indented.
  - now apply textLine_indented.
  - now apply textLine_indented.
  - destruct (sql s) as [[|c v]|]; try constructor. now apply sqlLines_indented.
  - now apply boolLine_indented.
  - now apply boolLine_indented.
  - now apply textLine_indented.
  - now apply optionLines_indented.
  - now apply dependsOnLines_indented.
  - constructor; [|constructor]. split; [reflexivity | now left].
Qed.

(** ** Keys at the start of a line *)

Lemma In_lines_text x lines :
  In x (lines_text lines) -> x = NL \/ exists l, In l lines /\ In x l.
Proof.
  induction lines as [|l lines IH]; cbn [lines_text flat_map]; [contradiction|].
  fold (lines_text lines). intros [<- | H]; [now left|].
  apply in_app_or in H as [H | H].
  - right. exists l. split; [now left | exact H].
  - destruct (IH H) as [-> | (l' & Hl' & Hx)]; [now left|].
    right. exists l'. split; [now right | exact Hx].
Qed.

(** A key found after a line terminator in the text of lines without
    line terminators is at the start of one of the lines. *)
Lemma key_starts_line L lines b t R :
  Forall (fun l => one_line l = true) lines ->
  ~ In NL L ->
  isLineTerminator t = true ->
  lines_text lines = (b ++ [t]) ++ L ++ R ->
  exists l, In l lines /\ starts_with L l = true.
Proof.
  intros Hlines HL Ht E.
  assert (Hnn : Forall no_newline lines).
  { eapply Forall_impl; [exact Hlines|]. intros l Hl.
    apply Forall_forall. intros x Hx ->.
    now apply (one_line_no_newline l Hl), list_elem_of_In. }
  assert (Et : t = NL).
  { assert (Hin : In t (lines_text lines)).
    { rewrite E. apply in_or_app. left. apply in_or_app. right. now left. }
    apply In_lines_text in Hin as [-> | (l & Hl & Hx)]; [reflexivity|].
    rewrite Forall_forall in Hlines.
    pose proof (Hlines l (proj2 (list_elem_of_In _ _) Hl)) as H1.
    unfold one_line in H1. rewrite forallb_forall in H1. apply H1 in Hx.
    now rewrite Ht in Hx. }
  subst t. rewrite <- app_assoc in E. cbn [app] in E.
  destruct (lines_text_cut lines b (L ++ R) Hnn E)
    as (before & l & after & -> & E').
  exists l. split; [apply in_elt|]. apply starts_with_spec.
  destruct after as [|l' after].
  - cbn [lines_text flat_map] in E'. rewrite app_nil_r in E'. now exists R.
  - cbn [lines_text flat_map app] in E'.
    destruct (prefix_no_char NL L R l _ HL E') as (b1' & -> & _). now exists b1'.
Qed.

Lemma trimStart_suffix s : exists a, s = a ++ trimStart s.
Proof.
  induction s as [|c s (a & IH)]; [now exists []|]. cbn [trimStart].
  destruct (is_space c); [|now exists []].
  exists (c :: a). cbn [app]. now rewrite <- IH.
Qed.

Lemma trimEnd_prefix s : exists t, s = trimEnd s ++ t.
Proof.
  unfold trimEnd. destruct (trimStart_suffix (rev s)) as (a & E).
  exists (rev a). rewrite <- rev_app_distr, <- E. now rewrite rev_involutive.
Qed.

(** A key that no line starts with is not found at the start of a line
    of the serialized text. *)
Lemma no_top_level_key L v steps pid pdesc :
  L <> [] -> ~ In NL L ->
  Forall (fun l => one_line l = true /\ starts_with L l = false)
         (yamlLines steps pid pdesc) ->
  ~ top_level_value L (stepsToYaml steps pid pdesc) v.
Proof.
  intros HL HNL Hlines (pre & w & x & post & E & Hpre & _).
  rewrite stepsToYaml_trimEnd in E.
  destruct (trimEnd_prefix (join [NL] (yamlLines steps pid pdesc))) as (t & Et).
  rewrite E in Et.
  assert (Elines : lines_text (yamlLines steps pid pdesc)
                   = NL :: join [NL] (yamlLines steps pid pdesc)).
  { destruct (yamlLines_head steps pid pdesc) as [l ->]. now rewrite join_cons. }
  rewrite Et in Elines.
  assert (Hb : exists b c, NL :: pre = b ++ [c] /\ isLineTerminator c = true).
  { unfold at_line_start in Hpre.
    destruct (rev pre) as [|c r] eqn:Er.
    - apply (f_equal (@rev N)) in Er. rewrite rev_involutive in Er. subst pre.
      now exists [], NL.
    - apply (f_equal (@rev N)) in Er. rewrite rev_involutive in Er. subst pre.
      cbn [rev hd_error] in *. exists (NL :: rev r), c. now split. }
  destruct Hb as (b & c & Eb & Hc).
  destruct (key_starts_line L (yamlLines steps pid pdesc) b c
              (w ++ x ++ post ++ t)) as (l & Hl & Hs); auto.
  - eapply Forall_impl; [exact Hlines|]. now intros l [? _].
  - rewrite Elines, <- Eb. cbn [app]. now rewrite <- !app_assoc.
  - rewrite Forall_forall in Hlines.
    destruct (Hlines l (proj2 (list_elem_of_In _ _) Hl)) as [_ H]. congruence.
Qed.

(** ** Reading the metadata back *)

Lemma exec_from_fails r B : forall A p before,
  (forall A1 c A2, A = A1 ++ c :: A2 ->
                   match_here r (lastp p A1) (c :: A2 ++ B) = None) ->
  exec_from r p before (A ++ B) = exec_from r (lastp p A) (rev A ++ before) B.
Proof.
  induction A as [|c A IH]; intros p before H; [reflexivity|].
  pose proof (H [] c A eq_refl) as H0. cbn [lastp] in H0.
  cbn [app exec_from]. rewrite H0, IH.
  - cbn [lastp rev]. now rewrite <- app_assoc.
  - intros A1 c' A2 HA. apply (H (c :: A1) c' A2). now rewrite HA.
Qed.

Lemma exec_from_here r p before s st' :
  match_here r p s = Some st' ->
  exec_from r p before s
  = Some (MatchResult (rev before) (consumed (MState p s []) st') (rest st') (caps st')).
Proof. intros H. destruct s; cbn [exec_from]; now rewrite H. Qed.

Lemma lastp_snoc p A x : lastp p (A ++ [x]) = Some x.
Proof. revert p. induction A as [|c A IH]; intros p; [reflexivity | apply IH]. Qed.

Lemma or_default_line pid :
  plain_header pid = true ->
  trimmed (or_default pid (str "my-pipeline")) = true
  /\ one_line (or_default pid (str "my-pipeline")) = true.
Proof.
  destruct pid as [[|c v]|]; cbn [plain_header or_default]; try (now split).
  intros H. now apply andb_true_iff in H.
Qed.

Lemma one_line_not_nl v :
  one_line v = true -> Forall (fun x => cls_has true [CChr 10] x = true) v.
Proof.
  intros H. apply forallb_Forall in H. eapply Forall_impl; [exact H|].
  intros x Hx. unfold cls_has. cbn [existsb citem_has xorb].
  rewrite orb_false_r. destruct (x =? 10) eqn:E; [|reflexivity].
  apply N.eqb_eq in E. now subst x.
Qed.

Lemma trimmed_head c w : trimmed (c :: w) = true -> is_space c = false.
Proof.
  unfold trimmed. intros H. apply andb_true_iff in H as [H _].
  now apply negb_true_iff in H.
Qed.

(** The pattern of a top-level key reads the value of a line that
    starts with the key. *)
Lemma top_level_capture (key : string) p c w T :
  at_bol (MState p [] []) = true ->
  trimmed (c :: w) = true -> one_line (c :: w) = true ->
  stops (cls_has true [CChr 10]) T ->
  exists st',
    match_here (Bol · Lit key · Star true ws · Group 1 (Plus true not_nl))%re p
               (str key ++ SP :: (c :: w) ++ T) = Some st'
    /\ caps st' = [(1%nat, c :: w)].
Proof.
  intros Hbol Ht Hl HT.
  destruct (match_here_attr key true [CChr 10] p c w T (trimmed_head _ _ Ht)
              (one_line_not_nl _ Hl) HT) as (st' & Hm & Hc & _).
  exists st'. split; [|exact Hc].
  unfold match_here in *. rewrite <- Hm. unfold re_attr.
  rewrite !m_Seq. cbn [m]. unfold at_bol in *. cbn [prev] in *. now rewrite Hbol.
Qed.

Lemma top_level_fails (key : string) x s :
  isLineTerminator x = false ->
  match_here (Bol · Lit key · Star true ws · Group 1 (Plus true not_nl))%re
             (Some x) s = None.
Proof.
  intros Hx. unfold match_here. rewrite !m_Seq. cbn [m]. unfold at_bol.
  cbn [prev]. now rewrite Hx.
Qed.

Lemma opt_capture_here r s st' v :
  match_here r None s = Some st' -> caps st' = [(1%nat, v)] ->
  opt_capture r s = Some (trim v).
Proof.
  intros Hm Hc. unfold opt_capture, regex_match.
  rewrite (exec_from_here r None [] s st' Hm). cbn [m_caps]. rewrite Hc.
  reflexivity.
Qed.

(** The id written by the serializer is the one read from the text. *)
Lemma meta_id_serialized steps pid pdesc :
  plain_header pid = true ->
  opt_capture re_meta_id (stepsToYaml steps pid pdesc)
  = Some (or_default pid (str "my-pipeline")).
Proof.
  intros Hid. destruct (or_default_line pid Hid) as [Ht Hl].
  destruct (stepsToYaml_header steps pid pdesc) as [tail ->].
  destruct (or_default pid (str "my-pipeline")) as [|c w] eqn:Ed; [discriminate|].
  assert (E : exists T, join [NL] (headerLines pid pdesc) ++ tail
                        = str "id:" ++ SP :: (c :: w) ++ NL :: T).
  { unfold headerLines. rewrite Ed. cbn [app]. rewrite join_cons.
    destruct pdesc as [[|c' d]|]; cbn [app flat_map]; rewrite <- !app_assoc;
      cbn [app]; eexists; reflexivity. }
  destruct E as [T ->].
  destruct (top_level_capture "id:" None c w (NL :: T) eq_refl Ht Hl eq_refl)
    as (st' & Hm & Hc).
  rewrite (opt_capture_here re_meta_id _ st' (c :: w) Hm Hc).
  now rewrite trim_trimmed.
Qed.

(** So is the description, when there is one. *)
Lemma meta_desc_serialized steps pid c d :
  plain_header pid = true -> plain_header (Some (c :: d)) = true ->
  opt_capture re_meta_desc (stepsToYaml steps pid (Some (c :: d)))
  = Some (c :: d).
Proof.
  intros Hid Hdesc. destruct (or_default_line pid Hid) as [Ht Hl].
  cbn [plain_header] in Hdesc. apply andb_true_iff in Hdesc as [Hdt Hdl].
  destruct (stepsToYaml_header steps pid (Some (c :: d))) as [tail ->].
  set (P := str "id: " ++ or_default pid (str "my-pipeline")).
  assert (E : exists T, join [NL] (headerLines pid (Some (c :: d))) ++ tail
                        = (P ++ [NL]) ++ str "desc:" ++ SP :: (c :: d) ++ NL :: T).
  { unfold headerLines. cbn [app]. rewrite join_cons. cbn [app flat_map].
    eexists. subst P. repeat (progress (rewrite <- ?app_assoc; cbn [app])).
    reflexivity. }
  destruct E as [T ->].
  destruct (top_level_capture "desc:" (Some NL) c d (NL :: T) eq_refl Hdt Hdl eq_refl)
    as (st' & Hm & Hc).
  unfold opt_capture, regex_match. rewrite exec_from_fails.
  - rewrite lastp_snoc.
    rewrite (exec_from_here re_meta_desc (Some NL) _ _ st' Hm). cbn [m_caps].
    rewrite Hc. cbn [assoc Nat.eqb fmap option_fmap option_map].
    now rewrite trim_trimmed.
  - intros A1 x A2 EA. destruct A1 as [|a0 A1r].
    + cbn [lastp app] in *. rewrite app_comm_cons, <- EA. reflexivity.
    + destruct (exists_last (l := a0 :: A1r)) as (A1' & z & EA1); [discriminate|].
      rewrite EA1 in *. clear EA1 a0 A1r.
      rewrite lastp_snoc. apply (top_level_fails "desc:").
      (* z is a character of the id line *)
      assert (Hz : In z P).
      { destruct (exists_last (l := x :: A2)) as (A2' & y & E2); [discriminate|].
        rewrite E2, !app_assoc in EA. apply app_inj_tail in EA as [EA _].
        rewrite EA. apply in_or_app. left. apply in_or_app. right. now left. }
      subst P. apply in_app_or in Hz as [Hz | Hz].
      * vm_compute in Hz.
        repeat (destruct Hz as [<- | Hz]; [reflexivity|]). contradiction.
      * unfold one_line in Hl. rewrite forallb_forall in Hl.
        apply Hl in Hz. now apply negb_true_iff in Hz.
Qed.

Lemma indented_not_key l :
  indented_line l -> one_line l = true /\ starts_with (str "desc:") l = false.
Proof. intros [Hl [-> | [t ->]]]; now split. Qed.

Lemma yamlLines_no_desc steps pid pdesc :
  plain_header pid = true -> carried_text pdesc = None ->
  Forall (fun s => no_line_break s = true) steps ->
  Forall (fun l => one_line l = true /\ starts_with (str "desc:") l = false)
         (yamlLines steps pid pdesc).
Proof.
  intros Hid Hdesc Hsteps. destruct (or_default_line pid Hid) as [_ Hl].
  unfold yamlLines. apply Forall_app. split.
  - unfold headerLines.
    assert (Hd : match pdesc with
                 | Some (c :: d) => [str "desc: " ++ c :: d]
                 | _ => []
                 end = []) by (now destruct pdesc as [[|c d]|]).
    rewrite Hd. cbn [app]. repeat constructor.
    now rewrite one_line_app, Hl.
  - induction Hsteps as [|s steps Hs _ IH]; [constructor|].
    cbn [flat_map]. apply Forall_app. split; [|exact IH].
    eapply Forall_impl; [now apply stepLines_indented|]. apply indented_not_key.
Qed.

(** Without a description, no [desc:] is found at the start of a line. *)
Lemma meta_desc_absent steps pid pdesc :
  plain_header pid = true -> carried_text pdesc = None ->
  Forall (fun s => no_line_break s = true) steps ->
  opt_capture re_meta_desc (stepsToYaml steps pid pdesc) = None.
Proof.
  intros Hid Hdesc Hsteps.
  destruct (opt_capture re_meta_desc (stepsToYaml steps pid pdesc)) as [v|] eqn:E;
    [exfalso | reflexivity].
  apply (opt_capture_sound "desc:") in E. revert E.
  apply no_top_level_key; [discriminate | vm_compute; intuition discriminate|].
  now apply yamlLines_no_desc.
Qed.




(** X9: the pipeline id and description that the serializer writes are
    the ones that [extractPipelineMetadata] reads from the text, when
    they are on one line and without white space at their ends: the id
    read is the id given, or [my-pipeline] when none (or an empty one)
    is given; the description read is the description given; and when
    no description (or an empty one) is given and no written field of
    the steps holds a line terminator other than the newlines of [sql],
    no description is read. *)
Theorem metadata_read_back S pid pdesc :
  plain_header pid = true -> plain_header pdesc = true ->
  let metadata := extractPipelineMetadata (stepsToYaml S pid pdesc) in
  meta_id metadata = Some (or_default pid (str "my-pipeline"))
  /\ (forall c d, pdesc = Some (c :: d) -> meta_desc metadata = Some (c :: d))
  /\ (carried_text pdesc = None ->
      Forall (fun s => no_line_break s = true) S ->
      meta_desc metadata = None).
Proof.
  intros Hid Hdesc metadata. subst metadata.
  unfold extractPipelineMetadata. cbn [meta_id meta_desc].
  split; [now apply meta_id_serialized|]. split.
  - intros c d ->. now apply meta_desc_serialized.
  - intros Hnone HS. now apply meta_desc_absent.
Qed.

Lemma metadata_read_back_witness :
  extractPipelineMetadata
    (stepsToYaml pipeline_example (Some (str "adults")) (Some (str "Adults report")))
  = mkMetadata (Some (str "adults")) (Some (str "Adults report"))
  /\ extractPipelineMetadata (stepsToYaml pipeline_example None None)
     = mkMetadata (Some (str "my-pipeline")) None.
Proof.
  split.
  - destruct (metadata_read_back pipeline_example (Some (str "adults"))
                (Some (str "Adults report")) eq_refl eq_refl) as (H1 & H2 & _).
    specialize (H2 _ _ eq_refl).
    destruct (extractPipelineMetadata _) as [i d]. cbn [meta_id meta_desc] in *.
    now rewrite H1, H2.
  - destruct (metadata_read_back pipeline_example None None eq_refl eq_refl)
      as (H1 & _ & H3).
    specialize (H3 eq_refl).
    assert (HS : Forall (fun s => no_line_break s = true) pipeline_example)
      by (repeat (constructor; [vm_compute; reflexivity|]); constructor).
    specialize (H3 HS).
    destruct (extractPipelineMetadata _) as [i d]. cbn [meta_id meta_desc] in *.
    now rewrite H1, H3.
Defined.



(** ** What every parsed step looks like *)













(** ** Reconnecting the logs socket *)

Lemma attemptReconnect_bounds n :
  (n <= maxReconnectAttempts)%nat ->
  (fst (attemptReconnect n) <= maxReconnectAttempts)%nat
  /\ forall d, snd (attemptReconnect n) = Some d -> (2000 <= d <= 30000)%N.
Proof.
  unfold maxReconnectAttempts. intros Hn.
  do 6 (destruct n as [|n]; [split; [cbn; lia | intros d H; inversion H; vm_compute;
                                                split; discriminate]|]).
  lia.
Qed.

Lemma run_events_bounds es : forall n,
  (n <= maxReconnectAttempts)%nat ->
  (fst (run_events n es) <= maxReconnectAttempts)%nat
  /\ Forall (fun d => (2000 <= d <= 30000)%N) (snd (run_events n es)).
Proof.
  induction es as [|e es IH]; intros n Hn; cbn [run_events].
  - split; [exact Hn | constructor].
  - destruct (on_event n e) as [n1 d] eqn:E.
    assert (H1 : (n1 <= maxReconnectAttempts)%nat
                 /\ forall x, d = Some x -> (2000 <= x <= 30000)%N).
    { destruct e; cbn [on_event] in E.
      - inversion E; subst. split; [unfold maxReconnectAttempts; lia | discriminate].
      - destruct (attemptReconnect_bounds n Hn) as [Ha Hb]. rewrite E in Ha, Hb.
        now split. }
    destruct H1 as [Hn1 Hd]. destruct (IH n1 Hn1) as [IH1 IH2].
    destruct (run_events n1 es) as [n2 ds]. cbn [fst snd] in *.
    split; [exact IH1|]. destruct d as [x|]; [|exact IH2].
    constructor; [now apply Hd | exact IH2].
Qed.

Lemma run_events_given_up k :
  run_events maxReconnectAttempts (repeat SocketClosed k) = (maxReconnectAttempts, []).
Proof.
  induction k as [|k IH]; [reflexivity|].
  cbn [repeat run_events on_event].
  change (attemptReconnect maxReconnectAttempts) with (maxReconnectAttempts, @None N).
  cbv beta iota. now rewrite IH.
Qed.

Lemma run_events_app es1 es2 n :
  run_events n (es1 ++ es2)
  = (fst (run_events (fst (run_events n es1)) es2),
     snd (run_events n es1) ++ snd (run_events (fst (run_events n es1)) es2)).
Proof.
  revert n. induction es1 as [|e es1 IH]; intros n; cbn [app run_events].
  - cbn [fst snd app]. now destruct (run_events n es2).
  - destruct (on_event n e) as [n1 d]. rewrite IH.
    destruct (run_events n1 es1) as [n2 ds]. cbn [fst snd].
    destruct (run_events n2 es2) as [n3 ds']. cbn [fst snd].
    now destruct d.
Qed.

(** X12: the logs socket backs off and gives up.  Starting from a fresh
    socket, whatever the sequence of openings and closings, the counter
    of reconnection attempts never exceeds five and every reconnection
    is scheduled between 2 and 30 seconds later; and [n] closings in a
    row, with no opening in between, schedule the first [n] of the
    delays 2 s, 4 s, 8 s, 16 s, 30 s and nothing after the fifth. *)
Theorem reconnect_backs_off_and_gives_up :
  (forall es,
      (fst (run_events O es) <= 5)%nat
      /\ Forall (fun d => (2000 <= d <= 30000)%N) (snd (run_events O es)))
  /\ (forall n,
      run_events O (repeat SocketClosed n)
      = (Nat.min n 5, firstn n [2000; 4000; 8000; 16000; 30000]%N)).
Proof.
  split.
  - intros es. apply (run_events_bounds es O). unfold maxReconnectAttempts. lia.
  - intros n.
    do 5 (destruct n as [|n]; [reflexivity|]).
    replace (S (S (S (S (S n))))) with (5 + n)%nat by lia.
    rewrite repeat_app, run_events_app.
    change (run_events O (repeat SocketClosed 5))
      with (maxReconnectAttempts, [2000; 4000; 8000; 16000; 30000]%N).
    cbn [fst snd]. rewrite run_events_given_up. cbn [fst snd].
    rewrite app_nil_r. f_equal.
    + unfold maxReconnectAttempts. lia.
    + now destruct n.
Qed.
